(** * The contact auditor of boulder: [cmd/contact-auditor/main.go]

    A shallow embedding of the audit pipeline (payload decoder, contact
    validator, result sink, orchestrator) and the proofs of its properties.

    Conventions.
    - A Go [string] and a Go [[]byte] are byte sequences: both are Rocq
      [string]s (lists of 8-bit [ascii]).
    - An [int64] is a [Z]; the program does no arithmetic on it.
    - A Go [error] is represented by its [Error()] text, the only thing the
      program observes of it; a nilable error is an [option error].
    - A nil slice and an empty slice are both [[]]: the program only ranges
      over its slices.
    - The Go standard library ([strings], [unicode/utf8], [fmt],
      [encoding/json]) is modelled as far as the program uses it, each package
      in a module of its name. *)

From Stdlib Require Import ZArith NArith List String Ascii Bool Lia DecimalString.
Import ListNotations.
Local Open Scope string_scope.

Definition error : Type := string.

(** Bytes as numbers. *)
Definition byte_val (c : ascii) : Z := Z.of_N (N_of_ascii c).
Definition byte_of (z : Z) : ascii := ascii_of_N (Z.to_N (Z.land z 255)).

(** [lo <= c && c <= hi] on bytes. *)
Definition between (lo hi c : ascii) : bool :=
  (byte_val lo <=? byte_val c)%Z && (byte_val c <=? byte_val hi)%Z.

Definition TAB : string := String (ascii_of_nat 9) "".
Definition NL : string := String (ascii_of_nat 10) "".

(** The escapes of a Go interpreted string literal, so that the literals of
    the source can be written as they are there: [lit "a\tb\n"]. *)
Definition escape_byte (c : ascii) : option ascii :=
  match c with
  | "a"%char => Some (ascii_of_nat 7)
  | "b"%char => Some (ascii_of_nat 8)
  | "f"%char => Some (ascii_of_nat 12)
  | "n"%char => Some (ascii_of_nat 10)
  | "r"%char => Some (ascii_of_nat 13)
  | "t"%char => Some (ascii_of_nat 9)
  | "v"%char => Some (ascii_of_nat 11)
  | "\"%char => Some "\"%char
  | _ => None
  end.

Fixpoint lit (s : string) : string :=
  match s with
  | String "\" (String c rest as tl) =>
      match escape_byte c with
      | Some b => String b (lit rest)
      | None => String "\" (lit tl)
      end
  | String c rest => String c (lit rest)
  | EmptyString => EmptyString
  end.

(** ** Package [strings] *)
Module strings.

(** [s[n:]] for [n <= len(s)]. *)
Fixpoint slice_from (n : nat) (s : string) : string :=
  match n, s with
  | O, _ => s
  | S n', String _ rest => slice_from n' rest
  | S _, EmptyString => EmptyString
  end.

(** [len(s) >= len(prefix) && s[0:len(prefix)] == prefix] *)
Definition HasPrefix (s prefix : string) : bool := String.prefix prefix s.

Definition TrimPrefix (s prefix : string) : string :=
  if HasPrefix s prefix then slice_from (String.length prefix) s else s.

End strings.

(** ** Package [unicode/utf8] *)
Module utf8.

Definition RuneError : Z := 0xFFFD.
Definition MaxRune : Z := 0x10FFFF.
Definition RuneSelf : Z := 0x80.

(** The table [first]: for a leading byte, the length of its sequence and the
    range accepted for the second byte; [None] for ASCII and for bytes that
    start no sequence. *)
Definition first (p0 : Z) : option (nat * Z * Z) :=
  if (p0 <? 0xC2)%Z then None
  else if (p0 <=? 0xDF)%Z then Some (2%nat, 0x80, 0xBF)%Z
  else if (p0 =? 0xE0)%Z then Some (3%nat, 0xA0, 0xBF)%Z
  else if (p0 =? 0xED)%Z then Some (3%nat, 0x80, 0x9F)%Z
  else if (p0 <=? 0xEF)%Z then Some (3%nat, 0x80, 0xBF)%Z
  else if (p0 =? 0xF0)%Z then Some (4%nat, 0x90, 0xBF)%Z
  else if (p0 <=? 0xF3)%Z then Some (4%nat, 0x80, 0xBF)%Z
  else if (p0 =? 0xF4)%Z then Some (4%nat, 0x80, 0x8F)%Z
  else None.

Definition cont (b : Z) : bool := (0x80 <=? b)%Z && (b <=? 0xBF)%Z.

(** [DecodeRune(p)]: the first rune of [p] and its width in bytes;
    [(RuneError, 0)] on the empty input and [(RuneError, 1)] on an encoding
    that is not valid. *)
Definition DecodeRune (p : string) : Z * nat :=
  match p with
  | EmptyString => (RuneError, 0%nat)
  | String c0 p1 =>
      let p0 := byte_val c0 in
      match first p0 with
      | None => (if (p0 <? RuneSelf)%Z then p0 else RuneError, 1%nat)
      | Some (sz, lo, hi) =>
          match p1 with
          | EmptyString => (RuneError, 1%nat)
          | String c1 p2 =>
              let b1 := byte_val c1 in
              if (b1 <? lo)%Z || (hi <? b1)%Z then (RuneError, 1%nat)
              else if (sz <=? 2)%nat then
                (Z.lor (Z.shiftl (Z.land p0 0x1F) 6) (Z.land b1 0x3F), 2%nat)
              else
                match p2 with
                | EmptyString => (RuneError, 1%nat)
                | String c2 p3 =>
                    let b2 := byte_val c2 in
                    if negb (cont b2) then (RuneError, 1%nat)
                    else if (sz <=? 3)%nat then
                      (Z.lor (Z.shiftl (Z.land p0 0x0F) 12)
                         (Z.lor (Z.shiftl (Z.land b1 0x3F) 6) (Z.land b2 0x3F)),
                       3%nat)
                    else
                      match p3 with
                      | EmptyString => (RuneError, 1%nat)
                      | String c3 _ =>
                          let b3 := byte_val c3 in
                          if negb (cont b3) then (RuneError, 1%nat)
                          else
                            (Z.lor (Z.shiftl (Z.land p0 0x07) 18)
                               (Z.lor (Z.shiftl (Z.land b1 0x3F) 12)
                                  (Z.lor (Z.shiftl (Z.land b2 0x3F) 6)
                                     (Z.land b3 0x3F))),
                             4%nat)
                      end
                end
          end
      end
  end.

Definition encode3 (r : Z) : string :=
  String (byte_of (Z.lor 0xE0 (Z.shiftr r 12)))
    (String (byte_of (Z.lor 0x80 (Z.land (Z.shiftr r 6) 0x3F)))
       (String (byte_of (Z.lor 0x80 (Z.land r 0x3F))) "")).

(** [EncodeRune(p, r)]: the bytes written. *)
Definition EncodeRune (r : Z) : string :=
  if (0 <=? r)%Z && (r <=? 0x7F)%Z then String (byte_of r) ""
  else if (0 <=? r)%Z && (r <=? 0x7FF)%Z then
    String (byte_of (Z.lor 0xC0 (Z.shiftr r 6)))
      (String (byte_of (Z.lor 0x80 (Z.land r 0x3F))) "")
  else if (r <? 0)%Z || (MaxRune <? r)%Z || ((0xD800 <=? r)%Z && (r <=? 0xDFFF)%Z)
  then encode3 RuneError
  else if (r <=? 0xFFFF)%Z then encode3 r
  else
    String (byte_of (Z.lor 0xF0 (Z.shiftr r 18)))
      (String (byte_of (Z.lor 0x80 (Z.land (Z.shiftr r 12) 0x3F)))
         (String (byte_of (Z.lor 0x80 (Z.land (Z.shiftr r 6) 0x3F)))
            (String (byte_of (Z.lor 0x80 (Z.land r 0x3F))) ""))).

End utf8.

(** The conversion [string(c)] of a byte [c]: the UTF-8 encoding of the rune
    with that value. *)
Definition string_of_byte (c : ascii) : string := utf8.EncodeRune (byte_val c).

(** ** Package [unicode/utf16] *)
Module utf16.

Definition IsSurrogate (r : Z) : bool := (0xD800 <=? r)%Z && (r <? 0xE000)%Z.

(** [DecodeRune(r1, r2)]: the rune of a surrogate pair, U+FFFD when the pair
    is not valid. *)
Definition DecodeRune (r1 r2 : Z) : Z :=
  if (0xD800 <=? r1)%Z && (r1 <? 0xDC00)%Z && (0xDC00 <=? r2)%Z && (r2 <? 0xE000)%Z
  then (Z.lor (Z.shiftl (r1 - 0xD800) 10) (r2 - 0xDC00) + 0x10000)%Z
  else utf8.RuneError.

End utf16.

(** ** Package [fmt]

    The verbs the program uses: [%d] of an [int64], and [%s] and [%q] of a
    [string], a [[]byte] or a non-nil [error].  [%q] is [strconv.Quote]; its
    escaping needs Unicode's tables of printable runes, so it is a parameter
    [quote] of the development. *)
Module fmt.

Inductive operand : Type :=
| Int64 (n : Z)
| Str (s : string)
| Bytes (b : string)
| Err (e : error).

(** [%d]: decimal, with a minus sign below zero. *)
Definition fmt_d (n : Z) : string := NilZero.string_of_int (Z.to_int n).

Section Verbs.
Variable quote : string -> string.

Definition verb (v : ascii) (a : operand) : option string :=
  match v, a with
  | "d"%char, Int64 n => Some (fmt_d n)
  | "s"%char, Str s => Some s
  | "s"%char, Bytes s => Some s
  | "s"%char, Err s => Some s
  | "q"%char, Str s => Some (quote s)
  | "q"%char, Bytes s => Some (quote s)
  | "q"%char, Err s => Some (quote s)
  | _, _ => None
  end.

(** The text a format produces from its operands; [None] outside the
    modelled fragment (another verb or operand type, flags, an operand
    missing or left over), where Go prints a [%!verb(...)] marker. *)
Fixpoint directives (format : string) (a : list operand) : option string :=
  match format with
  | EmptyString => match a with [] => Some "" | _ :: _ => None end
  | String "%" EmptyString => None
  | String "%" (String v rest) =>
      if Ascii.eqb v "%" then option_map (String "%") (directives rest a)
      else
        match a with
        | [] => None
        | x :: a' =>
            match verb v x, directives rest a' with
            | Some s, Some t => Some (s ++ t)
            | _, _ => None
            end
        end
  | String c rest => option_map (String c) (directives rest a)
  end.

(** Every format of the program is in the fragment (lemmas
    [Sprintf_validation], [Sprintf_unmarshal], [Sprintf_beginning],
    [Sprintf_write_error_stdout], [Sprintf_write_error_file]), so the second
    branch is never taken. *)
Definition Sprintf (format : string) (a : list operand) : string :=
  match directives format a with
  | Some s => s
  | None => ""
  end.

End Verbs.
End fmt.

(** ** Package [encoding/json]: [Unmarshal] into a [[]string]

    [Unmarshal(data, &contacts)] first checks the whole input with the
    scanner ([checkValid]), a state machine over bytes with a stack of open
    arrays and objects, and only then stores the value. *)
Module json.

Definition DQUOTE : ascii := ascii_of_nat 34.

Record SyntaxError : Type := { msg : string; Offset : Z }.

Record UnmarshalTypeError : Type := { Value : string; Type_ : string }.

Inductive opcode : Type :=
| scanContinue | scanBeginLiteral | scanBeginObject | scanObjectKey
| scanObjectValue | scanEndObject | scanBeginArray | scanArrayValue
| scanEndArray | scanSkipSpace | scanEnd | scanError.

Inductive parse : Type := parseObjectKey | parseObjectValue | parseArrayValue.

(** The scanner's step functions, as values of its field [step]. *)
Inductive state : Type :=
| stateBeginValueOrEmpty | stateBeginValue | stateBeginStringOrEmpty
| stateBeginString | stateEndValue | stateEndTop
| stateInString | stateInStringEsc | stateInStringEscU | stateInStringEscU1
| stateInStringEscU12 | stateInStringEscU123
| stateNeg | state1 | state0 | stateDot | stateDot0 | stateE | stateESign
| stateE0 | stateT | stateTr | stateTru | stateF | stateFa | stateFal
| stateFals | stateN | stateNu | stateNul | stateError.

(** [parseState] is a stack: its top (Go's last element) is the head. *)
Record scanner : Type := {
  step : state;
  endTop : bool;
  parseState : list parse;
  err : option SyntaxError;
  bytes : Z }.

Definition maxNestingDepth : Z := 10000.

Definition reset : scanner :=
  {| step := stateBeginValue; endTop := false; parseState := [];
     err := None; bytes := 0 |}.

Definition with_step (s : scanner) (f : state) : scanner :=
  {| step := f; endTop := endTop s; parseState := parseState s;
     err := err s; bytes := bytes s |}.

Definition with_parseState (s : scanner) (ps : list parse) : scanner :=
  {| step := step s; endTop := endTop s; parseState := ps;
     err := err s; bytes := bytes s |}.

Definition isSpace (c : ascii) : bool :=
  Ascii.eqb c " " || Ascii.eqb c (ascii_of_nat 9)
  || Ascii.eqb c (ascii_of_nat 13) || Ascii.eqb c (ascii_of_nat 10).

Definition isHex (c : ascii) : bool :=
  between "0" "9" c || between "a" "f" c || between "A" "F" c.

Section Scanner.
Variable quote : string -> string.

(** [quoteChar]: the byte in single quotes, escaped as [strconv.Quote]
    escapes the one-rune string [string(c)] (its result without the two
    double quotes around it). *)
Definition quoteChar (c : ascii) : string :=
  if Ascii.eqb c "'" then "'\''"
  else if Ascii.eqb c DQUOTE then String "'" (String DQUOTE "'")
  else
    let s := quote (string_of_byte c) in
    "'" ++ String.substring 1 (String.length s - 2) s ++ "'".

(** [s.error(c, context)] *)
Definition error_ (s : scanner) (c : ascii) (context : string) : scanner * opcode :=
  ({| step := stateError; endTop := endTop s; parseState := parseState s;
      err := Some {| msg := "invalid character " ++ quoteChar c ++ " " ++ context;
                     Offset := bytes s |};
      bytes := bytes s |}, scanError).

Definition pushParseState (s : scanner) (c : ascii) (newParseState : parse)
    (successState : opcode) : scanner * opcode :=
  let s := with_parseState s (newParseState :: parseState s) in
  if (Z.of_nat (List.length (parseState s)) <=? maxNestingDepth)%Z
  then (s, successState)
  else error_ s c "exceeded max depth".

Definition popParseState (s : scanner) : scanner :=
  let ps := List.tl (parseState s) in
  match ps with
  | [] => {| step := stateEndTop; endTop := true; parseState := ps;
             err := err s; bytes := bytes s |}
  | _ :: _ => {| step := stateEndValue; endTop := endTop s; parseState := ps;
                 err := err s; bytes := bytes s |}
  end.

Definition do_stateEndTop (s : scanner) (c : ascii) : scanner * opcode :=
  if negb (isSpace c)
  then (fst (error_ s c "after top-level value"), scanEnd)
  else (s, scanEnd).

Definition do_stateEndValue (s : scanner) (c : ascii) : scanner * opcode :=
  match parseState s with
  | [] =>
      do_stateEndTop
        {| step := stateEndTop; endTop := true; parseState := [];
           err := err s; bytes := bytes s |} c
  | ps :: below =>
      if isSpace c then (with_step s stateEndValue, scanSkipSpace)
      else
        match ps with
        | parseObjectKey =>
            if Ascii.eqb c ":" then
              (with_step (with_parseState s (parseObjectValue :: below))
                 stateBeginValue, scanObjectKey)
            else error_ s c "after object key"
        | parseObjectValue =>
            if Ascii.eqb c "," then
              (with_step (with_parseState s (parseObjectKey :: below))
                 stateBeginString, scanObjectValue)
            else if Ascii.eqb c "}" then (popParseState s, scanEndObject)
            else error_ s c "after object key:value pair"
        | parseArrayValue =>
            if Ascii.eqb c "," then (with_step s stateBeginValue, scanArrayValue)
            else if Ascii.eqb c "]" then (popParseState s, scanEndArray)
            else error_ s c "after array element"
        end
  end.

Definition do_stateBeginValue (s : scanner) (c : ascii) : scanner * opcode :=
  if isSpace c then (s, scanSkipSpace)
  else if Ascii.eqb c "{" then
    pushParseState (with_step s stateBeginStringOrEmpty) c parseObjectKey scanBeginObject
  else if Ascii.eqb c "[" then
    pushParseState (with_step s stateBeginValueOrEmpty) c parseArrayValue scanBeginArray
  else if Ascii.eqb c DQUOTE then (with_step s stateInString, scanBeginLiteral)
  else if Ascii.eqb c "-" then (with_step s stateNeg, scanBeginLiteral)
  else if Ascii.eqb c "0" then (with_step s state0, scanBeginLiteral)
  else if Ascii.eqb c "t" then (with_step s stateT, scanBeginLiteral)
  else if Ascii.eqb c "f" then (with_step s stateF, scanBeginLiteral)
  else if Ascii.eqb c "n" then (with_step s stateN, scanBeginLiteral)
  else if between "1" "9" c then (with_step s state1, scanBeginLiteral)
  else error_ s c "looking for beginning of value".

Definition do_stateBeginValueOrEmpty (s : scanner) (c : ascii) : scanner * opcode :=
  if isSpace c then (s, scanSkipSpace)
  else if Ascii.eqb c "]" then do_stateEndValue s c
  else do_stateBeginValue s c.

Definition do_stateBeginString (s : scanner) (c : ascii) : scanner * opcode :=
  if isSpace c then (s, scanSkipSpace)
  else if Ascii.eqb c DQUOTE then (with_step s stateInString, scanBeginLiteral)
  else error_ s c "looking for beginning of object key string".

Definition do_stateBeginStringOrEmpty (s : scanner) (c : ascii) : scanner * opcode :=
  if isSpace c then (s, scanSkipSpace)
  else if Ascii.eqb c "}" then
    do_stateEndValue (with_parseState s (parseObjectValue :: List.tl (parseState s))) c
  else do_stateBeginString s c.

Definition do_stateInString (s : scanner) (c : ascii) : scanner * opcode :=
  if Ascii.eqb c DQUOTE then (with_step s stateEndValue, scanContinue)
  else if Ascii.eqb c "\" then (with_step s stateInStringEsc, scanContinue)
  else if (byte_val c <? 0x20)%Z then error_ s c "in string literal"
  else (s, scanContinue).

Definition do_stateInStringEsc (s : scanner) (c : ascii) : scanner * opcode :=
  if Ascii.eqb c "b" || Ascii.eqb c "f" || Ascii.eqb c "n" || Ascii.eqb c "r"
     || Ascii.eqb c "t" || Ascii.eqb c "\" || Ascii.eqb c "/" || Ascii.eqb c DQUOTE
  then (with_step s stateInString, scanContinue)
  else if Ascii.eqb c "u" then (with_step s stateInStringEscU, scanContinue)
  else error_ s c "in string escape code".

(** The four states of a [\u] escape: a hexadecimal digit leads to [next]. *)
Definition hex_digit (next : state) (s : scanner) (c : ascii) : scanner * opcode :=
  if isHex c then (with_step s next, scanContinue)
  else error_ s c "in \u hexadecimal character escape".

(** A state that expects the one byte [want] and continues in [next]. *)
Definition expect (want : ascii) (next : state) (context : string)
    (s : scanner) (c : ascii) : scanner * opcode :=
  if Ascii.eqb c want then (with_step s next, scanContinue)
  else error_ s c context.

Definition do_stateNeg (s : scanner) (c : ascii) : scanner * opcode :=
  if Ascii.eqb c "0" then (with_step s state0, scanContinue)
  else if between "1" "9" c then (with_step s state1, scanContinue)
  else error_ s c "in numeric literal".

Definition do_state0 (s : scanner) (c : ascii) : scanner * opcode :=
  if Ascii.eqb c "." then (with_step s stateDot, scanContinue)
  else if Ascii.eqb c "e" || Ascii.eqb c "E" then (with_step s stateE, scanContinue)
  else do_stateEndValue s c.

Definition do_state1 (s : scanner) (c : ascii) : scanner * opcode :=
  if between "0" "9" c then (with_step s state1, scanContinue)
  else do_state0 s c.

Definition do_stateDot (s : scanner) (c : ascii) : scanner * opcode :=
  if between "0" "9" c then (with_step s stateDot0, scanContinue)
  else error_ s c "after decimal point in numeric literal".

Definition do_stateDot0 (s : scanner) (c : ascii) : scanner * opcode :=
  if between "0" "9" c then (s, scanContinue)
  else if Ascii.eqb c "e" || Ascii.eqb c "E" then (with_step s stateE, scanContinue)
  else do_stateEndValue s c.

Definition do_stateESign (s : scanner) (c : ascii) : scanner * opcode :=
  if between "0" "9" c then (with_step s stateE0, scanContinue)
  else error_ s c "in exponent of numeric literal".

Definition do_stateE (s : scanner) (c : ascii) : scanner * opcode :=
  if Ascii.eqb c "+" || Ascii.eqb c "-" then (with_step s stateESign, scanContinue)
  else do_stateESign s c.

Definition do_stateE0 (s : scanner) (c : ascii) : scanner * opcode :=
  if between "0" "9" c then (s, scanContinue)
  else do_stateEndValue s c.

(** [s.step(s, c)] *)
Definition do_step (s : scanner) (c : ascii) : scanner * opcode :=
  match step s with
  | stateBeginValueOrEmpty => do_stateBeginValueOrEmpty s c
  | stateBeginValue => do_stateBeginValue s c
  | stateBeginStringOrEmpty => do_stateBeginStringOrEmpty s c
  | stateBeginString => do_stateBeginString s c
  | stateEndValue => do_stateEndValue s c
  | stateEndTop => do_stateEndTop s c
  | stateInString => do_stateInString s c
  | stateInStringEsc => do_stateInStringEsc s c
  | stateInStringEscU => hex_digit stateInStringEscU1 s c
  | stateInStringEscU1 => hex_digit stateInStringEscU12 s c
  | stateInStringEscU12 => hex_digit stateInStringEscU123 s c
  | stateInStringEscU123 => hex_digit stateInString s c
  | stateNeg => do_stateNeg s c
  | state1 => do_state1 s c
  | state0 => do_state0 s c
  | stateDot => do_stateDot s c
  | stateDot0 => do_stateDot0 s c
  | stateE => do_stateE s c
  | stateESign => do_stateESign s c
  | stateE0 => do_stateE0 s c
  | stateT => expect "r" stateTr "in literal true (expecting 'r')" s c
  | stateTr => expect "u" stateTru "in literal true (expecting 'u')" s c
  | stateTru => expect "e" stateEndValue "in literal true (expecting 'e')" s c
  | stateF => expect "a" stateFa "in literal false (expecting 'a')" s c
  | stateFa => expect "l" stateFal "in literal false (expecting 'l')" s c
  | stateFal => expect "s" stateFals "in literal false (expecting 's')" s c
  | stateFals => expect "e" stateEndValue "in literal false (expecting 'e')" s c
  | stateN => expect "u" stateNu "in literal null (expecting 'u')" s c
  | stateNu => expect "l" stateNul "in literal null (expecting 'l')" s c
  | stateNul => expect "l" stateEndValue "in literal null (expecting 'l')" s c
  | stateError => (s, scanError)
  end.

(** [s.eof()] *)
Definition eof (s : scanner) : scanner * opcode :=
  match err s with
  | Some _ => (s, scanError)
  | None =>
      if endTop s then (s, scanEnd)
      else
        let s := fst (do_step s " ") in
        if endTop s then (s, scanEnd)
        else
          match err s with
          | Some _ => (s, scanError)
          | None =>
              ({| step := step s; endTop := endTop s; parseState := parseState s;
                  err := Some {| msg := "unexpected end of JSON input";
                                 Offset := bytes s |};
                  bytes := bytes s |}, scanError)
          end
  end.

(** The loop of [checkValid] over the bytes of [data]. *)
Fixpoint checkValid_loop (scan : scanner) (data : string) : option SyntaxError :=
  match data with
  | EmptyString => err (fst (eof scan))
  | String c rest =>
      let scan := {| step := step scan; endTop := endTop scan;
                     parseState := parseState scan; err := err scan;
                     bytes := bytes scan + 1 |} in
      let (scan, op) := do_step scan c in
      match op with
      | scanError => err scan
      | _ => checkValid_loop scan rest
      end
  end.

Definition checkValid (data : string) : option SyntaxError :=
  checkValid_loop reset data.

(** *** Storing the value

    After [checkValid] the decoder walks the input again with the same
    scanner ([scanWhile], [rescanLiteral], [skip]) and stores what it finds.
    The walk is one pass that collects the values at nesting depth [target]:
    depth 0 holds the top-level value, depth 1 the elements of a top-level
    array. *)
Inductive item : Type :=
| Literal (c : ascii) (rest : string)   (* its bytes, the first one apart *)
| Array
| Object.

Definition finish (cur : option (ascii * string)) (acc : list item) : list item :=
  match cur with
  | Some (c, rest) => Literal c rest :: acc
  | None => acc
  end.

Fixpoint items_loop (target : nat) (scan : scanner) (cur : option (ascii * string))
    (acc : list item) (data : string) : list item :=
  match data with
  | EmptyString => List.rev (finish cur acc)
  | String c rest =>
      let depth := List.length (parseState scan) in
      let (scan', op) := do_step scan c in
      match cur, op with
      | Some (c0, raw), scanContinue =>
          items_loop target scan' (Some (c0, raw ++ String c "")) acc rest
      | _, _ =>
          let acc := finish cur acc in
          if (depth =? target)%nat then
            match op with
            | scanBeginLiteral => items_loop target scan' (Some (c, "")) acc rest
            | scanBeginArray => items_loop target scan' None (Array :: acc) rest
            | scanBeginObject => items_loop target scan' None (Object :: acc) rest
            | _ => items_loop target scan' None acc rest
            end
          else items_loop target scan' None acc rest
      end
  end.

Definition items (target : nat) (data : string) : list item :=
  items_loop target reset None [] data.

Definition hexval (c : ascii) : option Z :=
  if between "0" "9" c then Some (byte_val c - byte_val "0")%Z
  else if between "a" "f" c then Some (byte_val c - byte_val "a" + 10)%Z
  else if between "A" "F" c then Some (byte_val c - byte_val "A" + 10)%Z
  else None.

(** [getu4(s)]: the rune of the [\uXXXX] that [s] starts with, or -1. *)
Definition getu4 (s : string) : Z :=
  match s with
  | String "\" (String "u" (String a (String b (String c (String d _))))) =>
      match hexval a, hexval b, hexval c, hexval d with
      | Some a, Some b, Some c, Some d => ((((0 * 16 + a) * 16 + b) * 16 + c) * 16 + d)%Z
      | _, _, _, _ => (-1)%Z
      end
  | _ => (-1)%Z
  end.

(** The loop of [unquoteBytes] over the text between the quotes; [None] is
    [ok == false].  Every round consumes a byte, so [fuel] of the length of
    [s] is enough. *)
Fixpoint unquote_loop (fuel : nat) (s : string) : option string :=
  match fuel, s with
  | _, EmptyString => Some ""
  | O, String _ _ => None
  | S fuel, String c rest =>
      if Ascii.eqb c "\" then
        match rest with
        | EmptyString => None
        | String e rest' =>
            let plain (b : ascii) := option_map (String b) (unquote_loop fuel rest') in
            if Ascii.eqb e DQUOTE || Ascii.eqb e "\" || Ascii.eqb e "/" || Ascii.eqb e "'"
            then plain e
            else if Ascii.eqb e "b" then plain (ascii_of_nat 8)
            else if Ascii.eqb e "f" then plain (ascii_of_nat 12)
            else if Ascii.eqb e "n" then plain (ascii_of_nat 10)
            else if Ascii.eqb e "r" then plain (ascii_of_nat 13)
            else if Ascii.eqb e "t" then plain (ascii_of_nat 9)
            else if Ascii.eqb e "u" then
              let rr := getu4 s in
              if (rr <? 0)%Z then None
              else
                let s6 := strings.slice_from 6 s in
                if utf16.IsSurrogate rr then
                  let dec := utf16.DecodeRune rr (getu4 s6) in
                  if negb (dec =? utf8.RuneError)%Z then
                    option_map (String.append (utf8.EncodeRune dec))
                      (unquote_loop fuel (strings.slice_from 6 s6))
                  else
                    option_map (String.append (utf8.EncodeRune utf8.RuneError))
                      (unquote_loop fuel s6)
                else
                  option_map (String.append (utf8.EncodeRune rr)) (unquote_loop fuel s6)
            else None
        end
      else if Ascii.eqb c DQUOTE || (byte_val c <? 0x20)%Z then None
      else if (byte_val c <? utf8.RuneSelf)%Z then
        option_map (String c) (unquote_loop fuel rest)
      else
        let (rr, size) := utf8.DecodeRune s in
        option_map (String.append (utf8.EncodeRune rr))
          (unquote_loop fuel (strings.slice_from size s))
  end.

(** [unquoteBytes(s)] of a literal [s] with its quotes. *)
Definition unquoteBytes (s : string) : option string :=
  let n := String.length s in
  if (n <? 2)%nat then None
  else
    match String.get 0 s, String.get (n - 1) s with
    | Some a, Some b =>
        if Ascii.eqb a DQUOTE && Ascii.eqb b DQUOTE then
          let body := String.substring 1 (n - 2) s in
          unquote_loop (String.length body) body
        else None
    | _, _ => None
    end.

(** What [d.value] stores into a [string] element of the slice, and the
    error it saves.  A string literal that does not unquote makes the decoder
    panic; the scanner has accepted the literal, so that case does not arise
    (theorem [stored_strings_unquote]). *)
Definition store_string (it : item) : string * option UnmarshalTypeError :=
  match it with
  | Array => ("", Some {| Value := "array"; Type_ := "string" |})
  | Object => ("", Some {| Value := "object"; Type_ := "string" |})
  | Literal c rest =>
      if Ascii.eqb c "n" then ("", None)
      else if Ascii.eqb c "t" || Ascii.eqb c "f" then
        ("", Some {| Value := "bool"; Type_ := "string" |})
      else if Ascii.eqb c DQUOTE then
        match unquoteBytes (String c rest) with
        | Some s => (s, None)
        | None => ("", None)
        end
      else ("", Some {| Value := "number"; Type_ := "string" |})
  end.

(** [d.saveError]: the first error is the one kept. *)
Fixpoint savedError (errs : list (option UnmarshalTypeError)) : option UnmarshalTypeError :=
  match errs with
  | [] => None
  | Some e :: _ => Some e
  | None :: rest => savedError rest
  end.

Definition UnmarshalTypeError_Error (e : UnmarshalTypeError) : error :=
  "json: cannot unmarshal " ++ Value e ++ " into Go value of type " ++ Type_ e.

(** [json.Unmarshal(data, &contacts)] for [var contacts []string]: the value
    of [contacts] afterwards and the error returned.  A top-level [null] sets
    the slice to nil; a top-level array stores its elements ([null] leaves an
    element empty, a value that is no string saves an error and leaves it
    empty); any other top-level value is an [UnmarshalTypeError]. *)
Definition Unmarshal (data : string) : list string * option error :=
  match checkValid data with
  | Some e => ([], Some (msg e))
  | None =>
      let into_slice (v : string) : list string * option error :=
        ([], Some (UnmarshalTypeError_Error {| Value := v; Type_ := "[]string" |})) in
      match items 0 data with
      | [Array] =>
          let stored := List.map store_string (items 1 data) in
          (List.map fst stored,
           option_map UnmarshalTypeError_Error (savedError (List.map snd stored)))
      | [Object] => into_slice "object"
      | [Literal c _] =>
          if Ascii.eqb c "n" then ([], None)
          else if Ascii.eqb c "t" || Ascii.eqb c "f" then into_slice "bool"
          else if Ascii.eqb c DQUOTE then into_slice "string"
          else into_slice "number"
      | _ => ([], None)
      end
  end.

End Scanner.
End json.

(** ** Instances of the two parameters, for examples

    [quote_ascii] is [strconv.Quote] on strings of printable ASCII, where it
    escapes only the double quote and the backslash; any other byte is
    written [\xNN].  [has_at] stands for a checker that accepts the addresses
    with an [@]. *)
Definition hex_digit_of (n : Z) : ascii :=
  if (n <? 10)%Z then byte_of (byte_val "0" + n) else byte_of (byte_val "a" + n - 10).

Fixpoint quote_ascii_body (s : string) : string :=
  match s with
  | EmptyString => String json.DQUOTE ""
  | String c rest =>
      if Ascii.eqb c json.DQUOTE || Ascii.eqb c "\" then
        String "\" (String c (quote_ascii_body rest))
      else if between " " "~" c then String c (quote_ascii_body rest)
      else
        String "\" (String "x"
          (String (hex_digit_of (Z.shiftr (byte_val c) 4))
             (String (hex_digit_of (Z.land (byte_val c) 15)) (quote_ascii_body rest))))
  end.

Definition quote_ascii (s : string) : string :=
  String json.DQUOTE (quote_ascii_body s).

Fixpoint has_at (s : string) : bool :=
  match s with
  | EmptyString => false
  | String c rest => Ascii.eqb c "@" || has_at rest
  end.

Definition check_at (address : string) : option error :=
  if has_at address then None else Some "not a valid e-mail address".

(** * The auditor *)

(** [type result struct], what the test channel carries. *)
Record result : Type := { id : Z; contacts : list string; createdAt : string }.

(** A row of the cursor: [rows.Scan(&id, &contact, &createdAt)] either fills
    the three variables or fails. *)
Inductive row : Type :=
| Row (id : Z) (contact : string) (createdAt : string)
| BadRow (err : error).

(** The cursor [*sql.Rows] as the auditor sees it: the rows for which
    [rows.Next()] is true, in order, and what [rows.Close()] returns after
    them.  [rows.Next()] is false at the end of the rows and when the
    iteration itself meets an error; the program does not tell the two apart
    (it never calls [rows.Err()]), and neither does the model. *)
Record Rows : Type := { pending : list row; close_err : option error }.

(** [*sql.DB]: the auditor runs one fixed query on it, so the handle is what
    [c.db.Query] returns for that query. *)
Definition DB : Type := (error + Rows)%type.

(** [*os.File], by its name. *)
Definition File : Type := string.

(** [chan *result]; a nil channel is [None].  Sends are taken not to block:
    the test that passes a channel gives it room for every row. *)
Inductive chan : Type := Chan.

(** [type contactAuditor struct]; the logger is the one of the process. *)
Record contactAuditor : Type := {
  db : DB;
  resultsFile : option File;
  writeToStdout : bool }.

Inductive level : Type := LevelInfo | LevelErr.

(** What the auditor does to the world, in the order it does it.  [Result] is
    a ghost event: it records a call of [writeResults], which is not visible
    from outside when no destination is configured. *)
Inductive event : Type :=
| Query (err : option error)
| Scan (err : option error)
| RowsClose (err : option error)
| Result (line : string)
| Stdout (s : string) (err : option error)
| FileWrite (f : File) (s : string) (err : option error)
| Log (l : level) (msg : string)
| Send (r : result)
| CloseChan.

Definition trace : Type := list event.

(** The operating system's side of a write: whether [fmt.Print] and
    [WriteString] on the results file fail, which may depend on all that happened
    before. *)
Record system : Type := {
  print_outcome : trace -> string -> option error;
  write_outcome : trace -> File -> string -> option error }.

(** A system whose writes all succeed. *)
Definition reliable : system :=
  {| print_outcome := fun _ _ => None; write_outcome := fun _ _ _ => None |}.

(** Effects: an action sees the history (the events so far) and returns a
    value and the events it adds to it. *)
Definition M (A : Type) : Type := trace -> A * trace.
Definition ret {A : Type} (a : A) : M A := fun _ => (a, []).
Definition bind {A B : Type} (m : M A) (k : A -> M B) : M B :=
  fun h =>
    let (a, t1) := m h in
    let (b, t2) := k a (h ++ t1)%list in
    (b, (t1 ++ t2)%list).
Definition emit (e : event) : M unit := fun _ => (tt, [e]).

Notation "x <- m ;; k" := (bind m (fun x => k))
  (at level 61, m at next level, right associativity).
Notation "m ;; k" := (bind m (fun _ => k))
  (at level 61, right associativity).

(** Observations of a trace. *)
Definition result_line (e : event) : list string :=
  match e with Result l => [l] | _ => [] end.
Definition sent_result (e : event) : list result :=
  match e with Send r => [r] | _ => [] end.
Definition printed (e : event) : list string :=
  match e with Stdout s None => [s] | _ => [] end.
Definition filed (e : event) : list string :=
  match e with FileWrite _ s None => [s] | _ => [] end.
Definition print_attempt (e : event) : list string :=
  match e with Stdout s _ => [s] | _ => [] end.
Definition write_attempt (e : event) : list string :=
  match e with FileWrite _ s _ => [s] | _ => [] end.

(** The lines handed to [writeResults]. *)
Definition results (t : trace) : list string := flat_map result_line t.
(** The records sent on the channel. *)
Definition sent (t : trace) : list result := flat_map sent_result t.
(** The bytes that reached stdout and the results file. *)
Definition stdout (t : trace) : string := String.concat "" (flat_map printed t).
Definition file (t : trace) : string := String.concat "" (flat_map filed t).
Definition print_attempts (t : trace) : list string := flat_map print_attempt t.
Definition write_attempts (t : trace) : list string := flat_map write_attempt t.

Definition is_query_failure (e : event) : bool :=
  match e with Query (Some _) => true | _ => false end.
Definition is_scan_failure (e : event) : bool :=
  match e with Scan (Some _) => true | _ => false end.
Definition is_close_failure (e : event) : bool :=
  match e with RowsClose (Some _) => true | _ => false end.
Definition is_closed (e : event) : bool :=
  match e with CloseChan => true | _ => false end.

(** ** Example data

    The contacts of the example of the specification, payloads, an auditor
    with both destinations, and a system whose prints all fail. *)
Definition example_contacts : list string :=
  ["mailto:a@example.com"; "tel:+123"; "mailto:not-an-email"].

(** [s] between double quotes. *)
Definition dq (s : string) : string :=
  String json.DQUOTE (s ++ String json.DQUOTE "").

Definition good_payload : string := "[" ++ dq "mailto:a@example.com" ++ "]".
Definition mixed_payload : string :=
  "[" ++ dq "mailto:a@example.com" ++ ", " ++ dq "tel:+123" ++ "]".
Definition bad_payload : string := "nope".

Definition example_auditor (d : DB) : contactAuditor :=
  {| db := d; resultsFile := Some "contact-audit.tsv"; writeToStdout := true |}.

Definition silent_auditor (d : DB) : contactAuditor :=
  {| db := d; resultsFile := None; writeToStdout := false |}.

Definition example_rows : Rows :=
  {| pending := [Row 1 mixed_payload "2024-01-01"; Row 2 bad_payload "2024-01-02";
                 Row 3 good_payload "2024-01-03"];
     close_err := None |}.

Definition broken_pipe : system :=
  {| print_outcome := fun _ _ => Some "broken pipe";
     write_outcome := fun _ _ _ => None |}.

(** ** The process around the auditor: [makeDBConnection] and [main]

    What [main] finds around it is a parameter: the file system, the
    decoding of the configuration, the MySQL driver, the clock. *)

(** [mysql.Config]: its map [Params], as the list of its entries, and its
    other fields. *)
Record Config (Fields : Type) : Type :=
  { Params : list (string * string); others : Fields }.
Arguments Params {Fields} _.
Arguments others {Fields} _.

(** [cmd.DBConfig] as [main] uses it: what its method [URL()] returns, and
    the four settings of the connection pool. *)
Record DBConfig : Type := {
  URL : error + string;
  MaxOpenConns : Z;
  MaxIdleConns : Z;
  ConnMaxLifetime : Z;
  ConnMaxIdleTime : Z }.

(** The flags [-config], [-to-stdout] and [-to-file]. *)
Record flags : Type := { configFile : string; toStdout : bool; toFile : bool }.

Record host : Type := {
  ConfigFields : Type;
  (** [ioutil.ReadFile] *)
  ReadFile : string -> error + string;
  (** [json.Unmarshal(configData, &cfg)]: the error, or [cfg.ContactAuditor.DB] *)
  Unmarshal_config : string -> error + DBConfig;
  (** [mysql.ParseDSN] and the method [FormatDSN] of the configuration *)
  ParseDSN : string -> error + Config ConfigFields;
  FormatDSN : Config ConfigFields -> string;
  (** [sql.Open(driverName, dataSourceName)] *)
  sql_Open : string -> string -> error + DB;
  (** [time.Now().Format("2006-01-02T15:04")] *)
  Now : string;
  (** [os.Create]: the file is known by its name *)
  Create : string -> option error }.

(** How [main] ends.  Modelled from the spec: [cmd.FailOnError] is not among
    the sources; with a non-nil error it ends the process with a non-zero
    status and a message, with nil it does nothing. *)
Inductive ending : Type :=
| Returned
| FailOnError (err : error) (msg : string).

(** What [main] does, in order: the settings of the pool, the creation and
    the closing of the results file, and the events of the logger and of the
    auditor. *)
Inductive step : Type :=
| SetMaxOpenConns (n : Z)
| SetMaxIdleConns (n : Z)
| SetConnMaxLifetime (d : Z)
| SetConnMaxIdleTime (d : Z)
| CreateFile (name : string) (err : option error)
| CloseFile (f : File)
| Audit (e : event).

Definition audit_event (s : step) : list event :=
  match s with Audit e => [e] | _ => [] end.
(** The events of the logger and of the auditor among the steps of [main]. *)
Definition audit_events (l : list step) : trace := flat_map audit_event l.

Definition is_file_step (s : step) : bool :=
  match s with
  | CreateFile _ _ | CloseFile _ | Audit (FileWrite _ _ _) => true
  | _ => false
  end.
Definition is_print_step (s : step) : bool :=
  match s with Audit (Stdout _ _) => true | _ => false end.
Definition is_channel_step (s : step) : bool :=
  match s with Audit (Send _) | Audit CloseChan => true | _ => false end.
Definition is_query_step (s : step) : bool :=
  match s with Audit (Query _) => true | _ => false end.

(** [makeDBConnection] *)
Definition makeDBConnection (w : host) (dsn : string) : error + DB :=
  match ParseDSN w dsn with
  | inl err => inl err
  | inr conf =>
      let conf := {| Params := [("tx_isolation", "'READ-UNCOMMITTED'")];
                     others := others conf |} in
      sql_Open w "mysql" (FormatDSN w conf)
  end.

(** A host for the examples: one configuration file, a driver that accepts
    every non-empty DSN and opens the example rows, a file system that
    creates every file. *)
Definition example_config : DBConfig :=
  {| URL := inr "user@tcp(db:3306)/boulder";
     MaxOpenConns := 10; MaxIdleConns := 2;
     ConnMaxLifetime := 0; ConnMaxIdleTime := 0 |}.

Definition example_host : host :=
  {| ConfigFields := string;
     ReadFile := fun name =>
       if String.eqb name "config.json" then inr "{}" else inl "no such file";
     Unmarshal_config := fun _ => inr example_config;
     ParseDSN := fun dsn =>
       if String.eqb dsn "" then inl "invalid DSN: missing the slash"
       else inr {| Params := [("readTimeout", "1s")]; others := dsn |};
     FormatDSN := fun conf =>
       others conf
       ++ String.concat "" (map (fun p => "&" ++ fst p ++ "=" ++ snd p) (Params conf));
     sql_Open := fun _ _ => inr (inr example_rows);
     Now := "2024-01-01T00:00";
     Create := fun _ => None |}.

Definition example_flags : flags :=
  {| configFile := "config.json"; toStdout := true; toFile := true |}.

(** ** Further observations

    The text of a nilable error (empty for nil), and more events told apart. *)
Definition error_text (e : option error) : string :=
  match e with Some text => text | None => "" end.

Definition is_query (e : event) : bool :=
  match e with Query _ => true | _ => false end.
Definition is_rows_close (e : event) : bool :=
  match e with RowsClose _ => true | _ => false end.
Definition is_scan (e : event) : bool :=
  match e with Scan _ => true | _ => false end.
Definition is_info_log (e : event) : bool :=
  match e with Log LevelInfo _ => true | _ => false end.
Definition is_error_log (e : event) : bool :=
  match e with Log LevelErr _ => true | _ => false end.
Definition is_failed_write (e : event) : bool :=
  match e with Stdout _ (Some _) | FileWrite _ _ (Some _) => true | _ => false end.
Definition is_write (e : event) : bool :=
  match e with Stdout _ _ | FileWrite _ _ _ => true | _ => false end.

(** The events that are not on the channel. *)
Definition not_channel (e : event) : bool :=
  match e with Send _ | CloseChan => false | _ => true end.

(** A system that does not look at the channel: the outcome of a write is the
    same with the events of the channel left out of the history. *)
Definition ignores_channel (os : system) : Prop :=
  (forall h s, print_outcome os h s = print_outcome os (filter not_channel h) s)
  /\ (forall h f s, write_outcome os h f s = write_outcome os (filter not_channel h) f s).

(** Two actions that differ on the channel only: from histories that agree
    off the channel they return the same value and add events that agree off
    the channel. *)
Definition related {A : Type} (m1 m2 : M A) : Prop :=
  forall h1 h2,
    filter not_channel h1 = filter not_channel h2 ->
    fst (m1 h1) = fst (m2 h2)
    /\ filter not_channel (snd (m1 h1)) = filter not_channel (snd (m2 h2)).

(** A trace with one entry in the error log for each write that failed. *)
Definition failures_logged (t : trace) : Prop :=
  List.length (filter is_error_log t) = List.length (filter is_failed_write t).

(** The events on the cursor and on the channel. *)
Definition is_control (e : event) : bool :=
  match e with
  | Query _ | Scan _ | RowsClose _ | Send _ | CloseChan => true
  | _ => false
  end.

Section ContactAuditor.

(** [strconv.Quote], the verb [%q]. *)
Variable quote : string -> string.
(** [policy.ValidEmail], the external email-syntax check: [None] is nil. *)
Variable ValidEmail : string -> option error.

Definition unmarshalContact (contact : string) : list string * option error :=
  let (contacts, err) := json.Unmarshal quote contact in
  match err with
  | Some err => ([], Some err)
  | None => (contacts, None)
  end.

(** The state of [validateContacts]: its buffer, and as ghost state the
    arguments of the calls of [policy.ValidEmail] so far. *)
Record validation : Type := { probsBuff : string; checked : list string }.

(** The helper [writeProb]: [fmt.Fprintf(&probsBuff, ...)] appends. *)
Definition writeProb (id : Z) (createdAt : string) (buff : string)
    (contact prob : string) : string :=
  buff ++ fmt.Sprintf quote (lit "%d\t%s\tvalidation\t%q\t%q\n")
            [fmt.Int64 id; fmt.Str createdAt; fmt.Str contact; fmt.Str prob].

(** The body of [for _, contact := range contacts]. *)
Definition validate_contact (id : Z) (createdAt : string) (v : validation)
    (contact : string) : validation :=
  if strings.HasPrefix contact "mailto:" then
    let address := strings.TrimPrefix contact "mailto:" in
    match ValidEmail address with
    | Some err =>
        {| probsBuff := writeProb id createdAt (probsBuff v) contact err;
           checked := (checked v ++ [address])%list |}
    | None => {| probsBuff := probsBuff v; checked := (checked v ++ [address])%list |}
    end
  else
    {| probsBuff := writeProb id createdAt (probsBuff v) contact
                      "missing 'mailto:' prefix";
       checked := checked v |}.

Definition validate_loop (id : Z) (createdAt : string) (contacts : list string)
    : validation :=
  fold_left (validate_contact id createdAt) contacts
    {| probsBuff := ""; checked := [] |}.

Definition validateContacts (id : Z) (createdAt : string) (contacts : list string)
    : option error :=
  let v := validate_loop id createdAt contacts in
  if negb (String.length (probsBuff v) =? 0)%nat then Some (probsBuff v) else None.

(** ** The report, in the words of the specification

    These definitions follow the specification (sections 4.3, 4.5 and 6), not
    the code; the theorems below compare the code with them. *)

(** The report line:
    [<id>\t<createdAt>\t<category>\t<quoted-contact-or-payload>\t<quoted-reason>\n]. *)
Definition report_line (id : Z) (createdAt category subject reason : string)
    : string :=
  fmt.fmt_d id ++ TAB ++ createdAt ++ TAB ++ category ++ TAB
  ++ quote subject ++ TAB ++ quote reason ++ NL.

(** A contact passes when it is [mailto:] followed by an address that the
    checker accepts. *)
Definition passes (contact : string) : Prop :=
  exists address, contact = "mailto:" ++ address /\ ValidEmail address = None.

(** The reason a contact fails, if it does. *)
Definition failure (contact : string) : option string :=
  if String.prefix "mailto:" contact
  then ValidEmail (String.substring 7 (String.length contact - 7) contact)
  else Some "missing 'mailto:' prefix".

Definition fails (contact : string) : bool :=
  match failure contact with Some _ => true | None => false end.

(** The failing contacts of a list with their reasons, in the order of the
    list. *)
Definition problems (contacts : list string) : list (string * string) :=
  flat_map (fun contact =>
              match failure contact with
              | Some reason => [(contact, reason)]
              | None => []
              end) contacts.

Definition validation_line (id : Z) (createdAt : string) (p : string * string)
    : string :=
  report_line id createdAt "validation" (fst p) (snd p).

(** The rows read before the first read that fails. *)
Fixpoint rows_read (rows : list row) : list (Z * string * string) :=
  match rows with
  | Row id contact createdAt :: rest => (id, contact, createdAt) :: rows_read rest
  | _ => []
  end.

Definition row_of (r : Z * string * string) : row :=
  let '(id, contact, createdAt) := r in Row id contact createdAt.

(** The error of the first read that fails. *)
Fixpoint first_bad (rows : list row) : option error :=
  match rows with
  | [] => None
  | BadRow err :: _ => Some err
  | Row _ _ _ :: rest => first_bad rest
  end.

(** The error a run over a store ends with: that of the query, else that of
    the first read that fails, else that of closing the cursor. *)
Definition run_error (d : DB) : option error :=
  match d with
  | inl err => Some err
  | inr rows =>
      match first_bad (pending rows) with
      | Some err => Some err
      | None => close_err rows
      end
  end.

(** What one record adds to the report: a line when its payload does not
    decode, and the aggregated lines of its failing contacts. *)
Definition record_results (r : Z * string * string) : list string :=
  let '(id, contact, createdAt) := r in
  let (contacts, err) := unmarshalContact contact in
  match err with
  | Some err => [report_line id createdAt "unmarshal" contact err]
  | None => []
  end
  ++ match validateContacts id createdAt contacts with
     | Some err => [err]
     | None => []
     end.

(** The report of a run over a store. *)
Definition audit_results (d : DB) : list string :=
  match d with
  | inl _ => []
  | inr rows => flat_map record_results (rows_read (pending rows))
  end.

(** What the channel is sent for a row: the record with the contacts that
    [unmarshalContact] returned for it. *)
Definition record_sent (r : Z * string * string) : result :=
  let '(id, contact, createdAt) := r in
  {| id := id; contacts := fst (unmarshalContact contact); createdAt := createdAt |}.

(** [c.beginAuditQuery()] *)
Definition beginAuditQuery (c : contactAuditor) : M (error + Rows) :=
  match db c with
  | inl err => emit (Query (Some err)) ;; ret (inl err)
  | inr rows => emit (Query None) ;; ret (inr rows)
  end.

(** ** Invariants of the JSON scanner

    The predicates of the proof that the decoder does not panic: the string
    literals that the scanner accepts are those that [unquoteBytes] unquotes. *)

(** The text between the quotes of a JSON string literal: bytes from 0x20 on
    other than the quote and the backslash, and the escapes of the scanner. *)
Definition simple_escape (e : ascii) : bool :=
  Ascii.eqb e "b" || Ascii.eqb e "f" || Ascii.eqb e "n" || Ascii.eqb e "r"
  || Ascii.eqb e "t" || Ascii.eqb e "\" || Ascii.eqb e "/" || Ascii.eqb e json.DQUOTE.

Definition plain_byte (c : ascii) : bool :=
  negb (Ascii.eqb c json.DQUOTE) && negb (Ascii.eqb c "\") && negb (byte_val c <? 0x20)%Z.

Fixpoint well_formed (s : string) : bool :=
  match s with
  | EmptyString => true
  | String c rest =>
      if Ascii.eqb c "\" then
        match rest with
        | String e rest' =>
            if simple_escape e then well_formed rest'
            else if Ascii.eqb e "u" then
              match rest' with
              | String h1 (String h2 (String h3 (String h4 rest''))) =>
                  json.isHex h1 && json.isHex h2 && json.isHex h3 && json.isHex h4
                  && well_formed rest''
              | _ => false
              end
            else false
        | EmptyString => false
        end
      else plain_byte c && well_formed rest
  end.

(** What the steps of the scanner depend on: not the count of bytes read
    nor the error. *)
Definition scanner_core (s : json.scanner) : json.state * bool * list json.parse :=
  (json.step s, json.endTop s, json.parseState s).

(** In the state [stateError] the error is set. *)
Definition scanner_sound (s : json.scanner) : Prop :=
  json.step s = json.stateError -> json.err s <> None.

(** Once the top-level value has ended the scanner is in [stateEndTop] or
    [stateError]. *)
Definition scanner_tidy (s : json.scanner) : Prop :=
  json.endTop s = true ->
  json.step s = json.stateEndTop \/ json.step s = json.stateError.

(** The scanner meets no error on [data] and the value has ended with it:
    what [checkValid] checks, on the opcodes alone. *)
Fixpoint scanner_accepts (s : json.scanner) (data : string) : Prop :=
  match data with
  | EmptyString =>
      json.endTop s = true \/ json.endTop (fst (json.do_step quote s " ")) = true
  | String c rest =>
      snd (json.do_step quote s c) <> json.scanError
      /\ scanner_accepts (fst (json.do_step quote s c)) rest
  end.

(** A string literal after its opening quote: a well-formed text and the
    closing quote. *)
Definition closed_literal (raw : string) : Prop :=
  exists b, raw = b ++ String json.DQUOTE "" /\ well_formed b = true.

(** What has been read of a string literal, after its opening quote, in each
    state of the scanner inside or just after the literal. *)
Definition in_string (st : json.state) (raw : string) : Prop :=
  match st with
  | json.stateInString => well_formed raw = true
  | json.stateInStringEsc => exists b, raw = b ++ "\" /\ well_formed b = true
  | json.stateInStringEscU => exists b, raw = b ++ "\u" /\ well_formed b = true
  | json.stateInStringEscU1 =>
      exists b h1, raw = b ++ String "\" (String "u" (String h1 ""))
                   /\ well_formed b = true /\ json.isHex h1 = true
  | json.stateInStringEscU12 =>
      exists b h1 h2, raw = b ++ String "\" (String "u" (String h1 (String h2 "")))
                      /\ well_formed b = true /\ json.isHex h1 = true /\ json.isHex h2 = true
  | json.stateInStringEscU123 =>
      exists b h1 h2 h3,
        raw = b ++ String "\" (String "u" (String h1 (String h2 (String h3 ""))))
        /\ well_formed b = true /\ json.isHex h1 = true /\ json.isHex h2 = true
        /\ json.isHex h3 = true
  | json.stateEndValue => closed_literal raw
  | _ => False
  end.

(** The string literals among the items found, and the one being read. *)
Definition item_ok (it : json.item) : Prop :=
  match it with
  | json.Literal c rest => c = json.DQUOTE -> closed_literal rest
  | _ => True
  end.

Definition cur_ok (s : json.scanner) (cur : option (ascii * string)) : Prop :=
  match cur with
  | Some (c0, raw) => c0 = json.DQUOTE -> in_string (json.step s) raw
  | None => True
  end.

(** ** Payloads that need no escape

    A byte that JSON writes as it is and that is a rune of its own: ASCII,
    no control byte, neither the double quote nor the backslash. *)
Definition plain_ascii (c : ascii) : bool :=
  plain_byte c && (byte_val c <? utf8.RuneSelf)%Z.

Fixpoint plain_text (s : string) : bool :=
  match s with
  | EmptyString => true
  | String c rest => plain_ascii c && plain_text rest
  end.

(** The JSON array of the strings [l], written without spaces. *)
Definition json_array (l : list string) : string :=
  "[" ++ String.concat "," (map dq l) ++ "]".

(** What follows an element of that array: the other elements and the
    closing bracket. *)
Fixpoint more_elements (l : list string) : string :=
  match l with
  | [] => "]"
  | s :: l =>
      String "," (String json.DQUOTE (s ++ String json.DQUOTE (more_elements l)))
  end.

(** The scanner inside a top-level array, in the state [st]. *)
Definition in_array (st : json.state) (n : Z) : json.scanner :=
  {| json.step := st; json.endTop := false;
     json.parseState := [json.parseArrayValue]; json.err := None;
     json.bytes := n |}.

Section Effects.
Variable os : system.

Definition fmt_Print (s : string) : M (option error) :=
  fun h => let err := print_outcome os h s in (err, [Stdout s err]).

Definition WriteString (f : File) (s : string) : M (option error) :=
  fun h => let err := write_outcome os h f s in (err, [FileWrite f s err]).

(** Modelled from the spec: boulder's [log] package is not among the
    sources; a call of the logger records its level and formatted message. *)
Definition logger_Errf (format : string) (a : list fmt.operand) : M unit :=
  emit (Log LevelErr (fmt.Sprintf quote format a)).
Definition logger_Infof (format : string) (a : list fmt.operand) : M unit :=
  emit (Log LevelInfo (fmt.Sprintf quote format a)).
Definition logger_Info (msg : string) : M unit := emit (Log LevelInfo msg).

Definition writeResults (c : contactAuditor) (result : string) : M unit :=
  emit (Result result) ;;
  (if writeToStdout c then
     err <- fmt_Print result ;;
     match err with
     | Some err =>
         logger_Errf "Error while writing result to stdout: %s" [fmt.Err err]
     | None => ret tt
     end
   else ret tt) ;;
  match resultsFile c with
  | Some f =>
      err <- WriteString f result ;;
      match err with
      | Some err =>
          logger_Errf "Error while writing result to file: %s" [fmt.Err err]
      | None => ret tt
      end
  | None => ret tt
  end.

(** The body of the loop for a row that was read. *)
Definition audit_row (c : contactAuditor) (resChan : option chan)
    (id : Z) (contact : string) (createdAt : string) : M unit :=
  let (contacts, err) := unmarshalContact contact in
  match err with
  | Some err =>
      writeResults c
        (fmt.Sprintf quote (lit "%d\t%s\tunmarshal\t%q\t%q\n")
           [fmt.Int64 id; fmt.Str createdAt; fmt.Bytes contact; fmt.Err err])
  | None => ret tt
  end ;;
  match validateContacts id createdAt contacts with
  | Some err => writeResults c err
  | None => ret tt
  end ;;
  match resChan with
  | Some _ => emit (Send {| id := id; contacts := contacts; createdAt := createdAt |})
  | None => ret tt
  end.

(** [for rows.Next() { ... }]: [Some err] when the body returned [err]. *)
Fixpoint audit_rows (c : contactAuditor) (resChan : option chan)
    (rows : list row) : M (option error) :=
  match rows with
  | [] => ret None
  | BadRow err :: _ => emit (Scan (Some err)) ;; ret (Some err)
  | Row id contact createdAt :: rest =>
      emit (Scan None) ;;
      audit_row c resChan id contact createdAt ;;
      audit_rows c resChan rest
  end.

Definition run (c : contactAuditor) (resChan : option chan) : M (option error) :=
  logger_Infof "Beginning database query" [] ;;
  q <- beginAuditQuery c ;;
  match q with
  | inl err => ret (Some err)
  | inr rows =>
      r <- audit_rows c resChan (pending rows) ;;
      match r with
      | Some err => ret (Some err)
      | None =>
          emit (RowsClose (close_err rows)) ;;
          match close_err rows with
          | Some err => ret (Some err)
          | None =>
              logger_Info "Query completed successfully" ;;
              match resChan with
              | Some _ => emit CloseChan
              | None => ret tt
              end ;;
              ret None
          end
      end
  end.


(** The name [main] gives the results file. *)
Definition results_file_name (w : host) : string :=
  fmt.Sprintf quote "contact-audit-%s.tsv" [fmt.Str (Now w)].

(** [main], after the flags are parsed.  Each [cmd.FailOnError] with a
    non-nil error ends it. *)
Definition main (w : host) (fl : flags) : ending * list step :=
  match ReadFile w (configFile fl) with
  | inl err =>
      (FailOnError err
         (fmt.Sprintf quote "Error reading config file: %q" [fmt.Str (configFile fl)]), [])
  | inr configData =>
  match Unmarshal_config w configData with
  | inl err => (FailOnError err "Couldn't unmarshal config", [])
  | inr cfg =>
  match URL cfg with
  | inl err => (FailOnError err "Couldn't load dbURL", [])
  | inr dbURL =>
  match makeDBConnection w dbURL with
  | inl err => (FailOnError err "Couldn't setup database client", [])
  | inr db =>
      let settings :=
        [SetMaxOpenConns (MaxOpenConns cfg); SetMaxIdleConns (MaxIdleConns cfg);
         SetConnMaxLifetime (ConnMaxLifetime cfg);
         SetConnMaxIdleTime (ConnMaxIdleTime cfg)] in
      let name := results_file_name w in
      let created := if toFile fl then Create w name else None in
      let creation := if toFile fl then [CreateFile name created] else [] in
      match created with
      | Some err =>
          (FailOnError err "Failed to create results file", settings ++ creation)%list
      | None =>
          let auditor :=
            {| db := db;
               resultsFile := if toFile fl then Some name else None;
               writeToStdout := toStdout fl |} in
          let h := [Log LevelInfo "Running contact-auditor"] in
          let (err, t) := run auditor None h in
          let steps := (settings ++ creation ++ map Audit (h ++ t))%list in
          match err with
          | Some err =>
              (FailOnError err "Audit was interrupted, results may be incomplete", steps)
          | None =>
              (Returned,
               (steps ++ Audit (Log LevelInfo "Audit finished successfully")
                :: if toFile fl then
                     [Audit (Log LevelInfo
                               (fmt.Sprintf quote "Audit results were written to: %s"
                                  [fmt.Str name]));
                      CloseFile name]
                   else [])%list)
          end
      end
  end end end end.

(** The settings of the pool, in the order in which [main] applies them. *)
Definition pool_settings (cfg : DBConfig) : list step :=
  [SetMaxOpenConns (MaxOpenConns cfg); SetMaxIdleConns (MaxIdleConns cfg);
   SetConnMaxLifetime (ConnMaxLifetime cfg);
   SetConnMaxIdleTime (ConnMaxIdleTime cfg)].

(** The auditor that [main] sets up on the database [db]. *)
Definition main_auditor (w : host) (fl : flags) (db : DB) : contactAuditor :=
  {| db := db;
     resultsFile := if toFile fl then Some (results_file_name w) else None;
     writeToStdout := toStdout fl |}.

(** Everything [main] does before the audit succeeds: the configuration is
    read and decoded to [cfg], its URL is loaded, the connection [db] is set
    up and, with [-to-file], the results file is created. *)
Definition started (w : host) (fl : flags) (cfg : DBConfig) (db : DB) : Prop :=
  exists configData dbURL,
    ReadFile w (configFile fl) = inr configData
    /\ Unmarshal_config w configData = inr cfg
    /\ URL cfg = inr dbURL
    /\ makeDBConnection w dbURL = inr db
    /\ (toFile fl = true -> Create w (results_file_name w) = None).

(** * Properties *)

(** ** Strings *)

Lemma slice_from_app (p s : string) :
  strings.slice_from (String.length p) (p ++ s) = s.
Proof. induction p as [|c p IH]; simpl; auto. Qed.

Lemma prefix_app (p s : string) : String.prefix p (p ++ s) = true.
Proof.
  induction p as [|c p IH]; simpl.
  - destruct s; reflexivity.
  - destruct (ascii_dec c c) as [_|n]; [exact IH | now destruct n].
Qed.

Lemma prefix_split (p s : string) :
  String.prefix p s = true -> s = p ++ strings.slice_from (String.length p) s.
Proof.
  revert s; induction p as [|c p IH]; intros s H; simpl.
  - reflexivity.
  - destruct s as [|d s]; simpl in H; [discriminate|].
    destruct (ascii_dec c d) as [->|_]; [|discriminate].
    f_equal. now apply IH.
Qed.

Lemma HasPrefix_iff (s p : string) :
  strings.HasPrefix s p = true <-> exists rest, s = p ++ rest.
Proof.
  unfold strings.HasPrefix; split.
  - intros H. eexists. now apply prefix_split.
  - intros [rest ->]. apply prefix_app.
Qed.

Lemma TrimPrefix_app (p s : string) : strings.TrimPrefix (p ++ s) p = s.
Proof.
  unfold strings.TrimPrefix, strings.HasPrefix.
  now rewrite prefix_app, slice_from_app.
Qed.

Lemma substring_from_app (p s : string) :
  String.substring (String.length p) (String.length (p ++ s) - String.length p) (p ++ s) = s.
Proof.
  induction p as [|c p IH]; simpl.
  - rewrite Nat.sub_0_r. induction s as [|d s IHs]; simpl; [reflexivity|].
    now rewrite IHs.
  - exact IH.
Qed.

Lemma append_assoc (a b c : string) : (a ++ b) ++ c = a ++ (b ++ c).
Proof. induction a as [|x a IH]; simpl; [reflexivity | now rewrite IH]. Qed.

Lemma append_nil_r (a : string) : a ++ "" = a.
Proof. induction a as [|x a IH]; simpl; [reflexivity | now rewrite IH]. Qed.

Lemma length_append (a b : string) :
  String.length (a ++ b) = (String.length a + String.length b)%nat.
Proof. induction a as [|x a IH]; simpl; [reflexivity | now rewrite IH]. Qed.

Lemma concat_app (l1 l2 : list string) :
  String.concat "" (l1 ++ l2) = String.concat "" l1 ++ String.concat "" l2.
Proof.
  induction l1 as [|x l1 IH]; simpl; [reflexivity|].
  destruct l1 as [|y l1]; simpl in *.
  - destruct l2; simpl; [now rewrite append_nil_r | reflexivity].
  - rewrite IH. now rewrite append_assoc.
Qed.

Lemma concat_cons (x : string) (l : list string) :
  String.concat "" (x :: l) = x ++ String.concat "" l.
Proof. change (x :: l) with ([x] ++ l)%list. now rewrite concat_app. Qed.

(** ** The formats of the program *)

Lemma Sprintf_validation (id : Z) (createdAt contact prob : string) :
  fmt.Sprintf quote (lit "%d\t%s\tvalidation\t%q\t%q\n")
    [fmt.Int64 id; fmt.Str createdAt; fmt.Str contact; fmt.Str prob]
  = report_line id createdAt "validation" contact prob.
Proof. reflexivity. Qed.


Lemma Sprintf_unmarshal (id : Z) (createdAt contact err : string) :
  fmt.Sprintf quote (lit "%d\t%s\tunmarshal\t%q\t%q\n")
    [fmt.Int64 id; fmt.Str createdAt; fmt.Bytes contact; fmt.Err err]
  = report_line id createdAt "unmarshal" contact err.
Proof. reflexivity. Qed.

Lemma Sprintf_beginning :
  fmt.Sprintf quote "Beginning database query" [] = "Beginning database query".
Proof. reflexivity. Qed.

Lemma Sprintf_write_error_stdout (err : string) :
  fmt.Sprintf quote "Error while writing result to stdout: %s" [fmt.Err err]
  = "Error while writing result to stdout: " ++ err.
Proof. unfold fmt.Sprintf; cbn. now rewrite append_nil_r. Qed.

Lemma Sprintf_write_error_file (err : string) :
  fmt.Sprintf quote "Error while writing result to file: %s" [fmt.Err err]
  = "Error while writing result to file: " ++ err.
Proof. unfold fmt.Sprintf; cbn. now rewrite append_nil_r. Qed.

Lemma report_line_not_empty (id : Z) (createdAt category subject reason : string) :
  String.length (report_line id createdAt category subject reason) <> 0%nat.
Proof.
  unfold report_line. rewrite !length_append. unfold NL; simpl. lia.
Qed.

(** ** The decoder *)

Lemma slice_from_length (n : nat) (s : string) :
  (String.length (strings.slice_from n s) <= String.length s)%nat.
Proof.
  revert s; induction n as [|n IH]; intros s; simpl; [lia|].
  destruct s as [|c s]; simpl; [lia|]. specialize (IH s). lia.
Qed.

Lemma DecodeRune_size (c : ascii) (rest : string) :
  (1 <= snd (utf8.DecodeRune (String c rest)))%nat.
Proof.
  unfold utf8.DecodeRune.
  destruct (utf8.first (byte_val c)) as [[[sz lo] hi]|]; [|simpl; lia].
  repeat match goal with
         | |- context [match ?x with _ => _ end] => destruct x; simpl; try lia
         end.
Qed.

(** Fuel of the length of the text is enough for [unquote_loop]: more fuel
    does not change its result. *)
Lemma unquote_loop_fuel (n : nat) :
  forall (s : string) (f1 f2 : nat),
    (String.length s <= n)%nat -> (String.length s <= f1)%nat ->
    (String.length s <= f2)%nat ->
    json.unquote_loop f1 s = json.unquote_loop f2 s.
Proof.
  induction n as [|n IH]; intros s f1 f2 Hn H1 H2.
  - destruct s; [now destruct f1, f2 | simpl in Hn; lia].
  - destruct s as [|c rest]; [now destruct f1, f2|].
    destruct f1 as [|f1]; [simpl in H1; lia|].
    destruct f2 as [|f2]; [simpl in H2; lia|].
    simpl in Hn, H1, H2.
    assert (R : forall (k : string -> string) s', (String.length s' <= String.length rest)%nat ->
              option_map k (json.unquote_loop f1 s')
              = option_map k (json.unquote_loop f2 s')).
    { intros k s' L. f_equal. apply IH; lia. }
    assert (S6 : (String.length (strings.slice_from 6 (String c rest))
                  <= String.length rest)%nat)
      by (change (strings.slice_from 6 (String c rest))
            with (strings.slice_from 5 rest); apply slice_from_length).
    cbn [json.unquote_loop].
    destruct (Ascii.eqb c "\").
    + destruct rest as [|e rest']; [reflexivity|].
      assert (L' : (String.length rest' <= String.length (String e rest'))%nat)
        by (simpl; lia).
      repeat match goal with
             | |- (if ?b then _ else _) = (if ?b then _ else _) => destruct b
             end; try reflexivity; try (apply R; assumption).
      apply R.
      pose proof (slice_from_length 6
                    (strings.slice_from 6 (String c (String e rest')))). lia.
    + destruct (Ascii.eqb c json.DQUOTE || (byte_val c <? 32)%Z); [reflexivity|].
      destruct (byte_val c <? utf8.RuneSelf)%Z; [apply R; lia|].
      pose proof (DecodeRune_size c rest) as D.
      destruct (utf8.DecodeRune (String c rest)) as [rr size]. simpl in D.
      apply R. destruct size as [|size]; [lia|].
      change (strings.slice_from (S size) (String c rest))
        with (strings.slice_from size rest).
      apply slice_from_length.
Qed.

(** *** The decoder does not panic *)

Lemma well_formed_app (n : nat) :
  forall a b, (String.length a <= n)%nat -> well_formed a = true -> well_formed (a ++ b) = well_formed b.
Proof.
  induction n as [|n IH]; intros a b L W.
  - destruct a; [reflexivity | simpl in L; lia].
  - destruct a as [|c a]; [reflexivity|].
    simpl in L. cbn [well_formed] in W. cbn [String.append well_formed].
    destruct (Ascii.eqb c "\").
    + destruct a as [|e a]; [discriminate|]. cbn [String.append].
      destruct (simple_escape e).
      * apply IH; [simpl in L; lia | exact W].
      * destruct (Ascii.eqb e "u"); [|discriminate].
        destruct a as [|h1 [|h2 [|h3 [|h4 a]]]]; try discriminate.
        cbn [String.append].
        apply andb_prop in W. destruct W as [W1 W2]. rewrite W1. simpl.
        apply IH; [simpl in L; lia | exact W2].
    + apply andb_prop in W. destruct W as [W1 W2]. rewrite W1. simpl.
      apply IH; [lia | exact W2].
Qed.

Lemma well_formed_snoc (a b : string) : well_formed a = true -> well_formed b = true -> well_formed (a ++ b) = true.
Proof. intros A B. now rewrite (well_formed_app (String.length a) a b (le_n _) A). Qed.

Lemma high_byte_plain (c : ascii) :
  (0x80 <= byte_val c)%Z -> Ascii.eqb c "\" = false /\ plain_byte c = true.
Proof.
  destruct c as [[] [] [] [] [] [] [] []]; vm_compute; intros H; split;
    try reflexivity; exfalso; apply H; reflexivity.
Qed.

Lemma well_formed_high (c : ascii) (rest : string) :
  (0x80 <= byte_val c)%Z -> well_formed (String c rest) = true -> well_formed rest = true.
Proof.
  intros H W. destruct (high_byte_plain c H) as [E P].
  cbn [well_formed] in W. rewrite E, P in W. exact W.
Qed.

Lemma first_ranges (p0 : Z) (sz : nat) (lo hi : Z) :
  utf8.first p0 = Some (sz, lo, hi) -> (0x80 <= lo)%Z.
Proof.
  unfold utf8.first.
  repeat match goal with
         | |- context [if ?b then _ else _] => destruct b
         end; intros H; try discriminate; injection H as <- <- <-; lia.
Qed.

Lemma cont_high (b : Z) : utf8.cont b = true -> (0x80 <= b)%Z.
Proof. unfold utf8.cont. intros H. apply andb_prop in H. lia. Qed.

(** The bytes that [DecodeRune] consumes after the first are no start of an
    escape. *)

Lemma well_formed_DecodeRune (c : ascii) (rest : string) :
  well_formed rest = true ->
  well_formed (strings.slice_from (snd (utf8.DecodeRune (String c rest))) (String c rest)) = true.
Proof.
  intros W. unfold utf8.DecodeRune.
  destruct (utf8.first (byte_val c)) as [[[sz lo] hi]|] eqn:F; [|exact W].
  apply first_ranges in F.
  destruct rest as [|c1 p2]; [exact W|].
  destruct ((byte_val c1 <? lo)%Z || (hi <? byte_val c1)%Z) eqn:R1; [exact W|].
  apply orb_false_iff in R1. destruct R1 as [R1 _]. apply Z.ltb_ge in R1.
  assert (W2 : well_formed p2 = true) by (apply (well_formed_high c1); [lia | exact W]).
  destruct (sz <=? 2)%nat; [exact W2|].
  destruct p2 as [|c2 p3]; [exact W|].
  destruct (utf8.cont (byte_val c2)) eqn:R2; [|exact W]. simpl negb. cbv iota.
  assert (W3 : well_formed p3 = true) by (apply (well_formed_high c2); [now apply cont_high | exact W2]).
  destruct (sz <=? 3)%nat; [exact W3|].
  destruct p3 as [|c3 p4]; [exact W|].
  destruct (utf8.cont (byte_val c3)) eqn:R3; [|exact W]. simpl negb. cbv iota.
  apply (well_formed_high c3); [now apply cont_high | exact W3].
Qed.

Lemma hexval_isHex (h : ascii) :
  json.isHex h = true -> exists v, json.hexval h = Some v /\ (0 <= v)%Z.
Proof.
  unfold json.isHex, json.hexval, between.
  destruct ((byte_val "0" <=? byte_val h)%Z && (byte_val h <=? byte_val "9")%Z) eqn:A.
  - intros _. eexists; split; [reflexivity|]. apply andb_prop in A. lia.
  - destruct ((byte_val "a" <=? byte_val h)%Z && (byte_val h <=? byte_val "f")%Z) eqn:B.
    + intros _. eexists; split; [reflexivity|]. apply andb_prop in B. lia.
    + destruct ((byte_val "A" <=? byte_val h)%Z && (byte_val h <=? byte_val "F")%Z) eqn:C.
      * intros _. eexists; split; [reflexivity|]. apply andb_prop in C. lia.
      * discriminate.
Qed.

Lemma getu4_hex (h1 h2 h3 h4 : ascii) (rest : string) :
  json.isHex h1 = true -> json.isHex h2 = true -> json.isHex h3 = true ->
  json.isHex h4 = true ->
  (0 <= json.getu4 (String "\" (String "u" (String h1 (String h2 (String h3 (String h4 rest)))))))%Z.
Proof.
  intros H1 H2 H3 H4. cbn [json.getu4].
  destruct (hexval_isHex h1 H1) as [v1 [-> ?]], (hexval_isHex h2 H2) as [v2 [-> ?]],
    (hexval_isHex h3 H3) as [v3 [-> ?]], (hexval_isHex h4 H4) as [v4 [-> ?]].
  lia.
Qed.

(** [getu4] is not negative only on a [\u] escape with four digits. *)

Lemma getu4_shape (s : string) :
  (0 <= json.getu4 s)%Z ->
  exists h1 h2 h3 h4 rest,
    s = String "\" (String "u" (String h1 (String h2 (String h3 (String h4 rest)))))
    /\ json.hexval h1 <> None /\ json.hexval h2 <> None
    /\ json.hexval h3 <> None /\ json.hexval h4 <> None.
Proof.
  intros H.
  destruct s as [|c0 [|c1 [|h1 [|h2 [|h3 [|h4 rest]]]]]];
    try (exfalso; revert H; unfold json.getu4;
         repeat match goal with
                | |- context [match ?x with _ => _ end] => destruct x
                end; lia).
  unfold json.getu4 in H.
  destruct (Ascii.eqb_spec c0 "\") as [->|N0].
  - destruct (Ascii.eqb_spec c1 "u") as [->|N1].
    + exists h1, h2, h3, h4, rest. split; [reflexivity|].
      destruct (json.hexval h1), (json.hexval h2), (json.hexval h3), (json.hexval h4);
        repeat split; try discriminate; lia.
    + exfalso. revert H.
      destruct c1 as [[] [] [] [] [] [] [] []]; try lia. now destruct N1.
  - exfalso. revert H.
    destruct c0 as [[] [] [] [] [] [] [] []]; try lia. now destruct N0.
Qed.

Lemma option_map_some {A B : Type} (k : A -> B) (x : option A) :
  x <> None -> option_map k x <> None.
Proof. destruct x; [discriminate | intros H; now destruct H]. Qed.

(** A well-formed body unquotes. *)

Lemma unquote_well_formed (n : nat) :
  forall (s : string) (fuel : nat),
    (String.length s <= n)%nat -> (String.length s <= fuel)%nat ->
    well_formed s = true -> json.unquote_loop fuel s <> None.
Proof.
  induction n as [|n IH]; intros s fuel Hn Hf W.
  - destruct s; [now destruct fuel | simpl in Hn; lia].
  - destruct s as [|c rest]; [now destruct fuel|].
    destruct fuel as [|fuel]; [simpl in Hf; lia|].
    simpl in Hn, Hf.
    assert (R : forall (k : string -> string) s',
              (String.length s' <= String.length rest)%nat -> well_formed s' = true ->
              option_map k (json.unquote_loop fuel s') <> None).
    { intros k s' L W'. apply option_map_some, IH; [lia | lia | exact W']. }
    cbn [json.unquote_loop]. cbn [well_formed] in W.
    destruct (Ascii.eqb c "\") eqn:Ec.
    + destruct rest as [|e rest']; [discriminate|].
      assert (L' : (String.length rest' <= String.length (String e rest'))%nat)
        by (simpl; lia).
      destruct (simple_escape e) eqn:E.
      * unfold simple_escape in E.
        destruct (Ascii.eqb e json.DQUOTE), (Ascii.eqb e "\"), (Ascii.eqb e "/"),
          (Ascii.eqb e "'"), (Ascii.eqb e "b"), (Ascii.eqb e "f"), (Ascii.eqb e "n"),
          (Ascii.eqb e "r"), (Ascii.eqb e "t");
          simpl in E |- *; try discriminate; now apply R.
      * destruct (Ascii.eqb_spec e "u") as [->|]; [|discriminate].
        destruct rest' as [|h1 [|h2 [|h3 [|h4 rest'']]]]; try discriminate.
        apply andb_prop in W. destruct W as [W W5].
        apply andb_prop in W. destruct W as [W W4].
        apply andb_prop in W. destruct W as [W W3].
        apply andb_prop in W. destruct W as [W1 W2].
        apply Ascii.eqb_eq in Ec. subst c.
        pose proof (getu4_hex h1 h2 h3 h4 rest'' W1 W2 W3 W4) as G.
        cbn [orb Ascii.eqb Bool.eqb andb].
        change (strings.slice_from 6
                  (String "\" (String "u" (String h1 (String h2 (String h3
                     (String h4 rest'')))))))
          with rest''.
        destruct (Z.ltb_spec
          (json.getu4 (String "\" (String "u" (String h1 (String h2 (String h3
                         (String h4 rest''))))))) 0) as [Neg|_]; [lia|].
        assert (L6 : (String.length rest'' <= String.length
                        (String "u" (String h1 (String h2 (String h3
                           (String h4 rest''))))))%nat) by (simpl; lia).
        destruct (utf16.IsSurrogate _); [|now apply R].
        match goal with
        | |- context [utf16.DecodeRune ?a ?b] =>
            destruct (Z.eqb_spec (utf16.DecodeRune a b) utf8.RuneError) as [_|D]
        end; simpl negb; cbv iota; [now apply R|].
        unfold utf16.DecodeRune in D.
        match type of D with
        | (if ?b then _ else _) <> _ => destruct b eqn:S; [|now destruct D]
        end.
        apply andb_prop in S. destruct S as [S _].
        apply andb_prop in S. destruct S as [_ S].
        assert (G2 : (0 <= json.getu4 rest'')%Z) by lia.
        apply getu4_shape in G2.
        destruct G2 as [g1 [g2 [g3 [g4 [rest3 [-> _]]]]]].
        change (strings.slice_from 6
                  (String "\" (String "u" (String g1 (String g2 (String g3
                     (String g4 rest3)))))))
          with rest3.
        apply R; [simpl; lia|].
        cbn [well_formed Ascii.eqb Bool.eqb andb] in W5.
        change (simple_escape "u") with false in W5. cbv iota in W5.
        apply andb_prop in W5. apply W5.
    + apply andb_prop in W. destruct W as [P W].
      unfold plain_byte in P.
      apply andb_prop in P. destruct P as [P P3].
      apply andb_prop in P. destruct P as [P1 _].
      apply negb_true_iff in P1, P3. rewrite P1, P3. cbn [orb].
      destruct (byte_val c <? utf8.RuneSelf)%Z; [apply R; [lia | exact W]|].
      pose proof (DecodeRune_size c rest) as D.
      pose proof (well_formed_DecodeRune c rest W) as WD.
      destruct (utf8.DecodeRune (String c rest)) as [rr size]. simpl in D, WD.
      apply R; [|exact WD].
      destruct size as [|size]; [lia|].
      change (strings.slice_from (S size) (String c rest))
        with (strings.slice_from size rest).
      apply slice_from_length.
Qed.


Ltac unfold_step :=
  unfold json.do_step; simpl;
  unfold json.do_stateBeginValueOrEmpty, json.do_stateBeginStringOrEmpty,
    json.do_stateBeginValue, json.do_stateBeginString, json.do_stateEndValue,
    json.do_stateEndTop, json.do_stateInString, json.do_stateInStringEsc,
    json.hex_digit, json.expect, json.do_stateNeg, json.do_state1, json.do_state0,
    json.do_stateDot, json.do_stateDot0, json.do_stateE, json.do_stateESign,
    json.do_stateE0, json.do_stateEndValue, json.do_stateEndTop,
    json.pushParseState, json.popParseState, json.error_, json.with_step,
    json.with_parseState; simpl.

Ltac split_ifs :=
  repeat match goal with
         | |- context [if ?b then _ else _] => destruct b eqn:?
         | |- context [match ?l with [] => _ | _ :: _ => _ end] => destruct l
         | |- context [match ?p with json.parseObjectKey => _ | _ => _ end] => destruct p
         end.

Lemma do_step_core (s1 s2 : json.scanner) (c : ascii) :
  scanner_core s1 = scanner_core s2 ->
  scanner_core (fst (json.do_step quote s1 c)) = scanner_core (fst (json.do_step quote s2 c))
  /\ snd (json.do_step quote s1 c) = snd (json.do_step quote s2 c).
Proof.
  destruct s1 as [st1 e1 ps1 er1 b1], s2 as [st2 e2 ps2 er2 b2].
  unfold scanner_core; simpl. intros H. injection H as -> -> ->.
  destruct st2; unfold_step; split_ifs; simpl; split; reflexivity.
Qed.

Lemma do_step_sound (s : json.scanner) (c : ascii) :
  scanner_sound s -> scanner_sound (fst (json.do_step quote s c)).
Proof.
  destruct s as [st e ps er b]. unfold scanner_sound; simpl. intros H.
  destruct st; unfold_step; split_ifs; simpl; intros E;
    try discriminate E; auto; discriminate.
Qed.

Lemma do_step_tidy (s : json.scanner) (c : ascii) :
  scanner_tidy s -> scanner_tidy (fst (json.do_step quote s c)).
Proof.
  destruct s as [st e ps er b]. unfold scanner_tidy; simpl. intros H.
  destruct st; unfold_step; split_ifs; simpl; intros E; auto;
    try (destruct (H E) as [D|D]; discriminate D).
Qed.

Lemma do_step_error (s : json.scanner) (c : ascii) :
  scanner_sound s -> snd (json.do_step quote s c) = json.scanError ->
  json.err (fst (json.do_step quote s c)) <> None.
Proof.
  destruct s as [st e ps er b]. unfold scanner_sound; simpl. intros H.
  destruct st; unfold_step; split_ifs; simpl; intros E;
    try discriminate E; auto; discriminate.
Qed.


Lemma accepted_core (data : string) :
  forall s1 s2, scanner_core s1 = scanner_core s2 -> scanner_accepts s1 data -> scanner_accepts s2 data.
Proof.
  induction data as [|c rest IH]; intros s1 s2 E; simpl.
  - destruct (do_step_core s1 s2 " " E) as [C _].
    unfold scanner_core in E, C. injection E as _ E _. injection C as _ C _.
    now rewrite E, C.
  - destruct (do_step_core s1 s2 c E) as [C O]. rewrite O.
    intros [H1 H2]. split; [exact H1|]. now apply (IH _ _ C).
Qed.

Lemma checkValid_loop_accepted (data : string) :
  forall s, scanner_sound s -> json.checkValid_loop quote s data = None -> scanner_accepts s data.
Proof.
  induction data as [|c rest IH]; intros s S; simpl.
  - unfold json.eof. intros H.
    destruct (json.err s) eqn:E1; [simpl in H; congruence|].
    destruct (json.endTop s); [now left|].
    destruct (json.endTop (fst (json.do_step quote s " "))); [now right|].
    destruct (json.err (fst (json.do_step quote s " "))) eqn:E2; simpl in H;
      [congruence | discriminate].
  - set (s' := {| json.step := json.step s; json.endTop := json.endTop s;
                  json.parseState := json.parseState s; json.err := json.err s;
                  json.bytes := (json.bytes s + 1)%Z |}).
    assert (E : scanner_core s' = scanner_core s) by reflexivity.
    assert (S' : scanner_sound s') by exact S.
    destruct (do_step_core s' s c E) as [C O].
    pose proof (do_step_error s' c S') as Er.
    pose proof (do_step_sound s' c S') as Sd.
    destruct (json.do_step quote s' c) as [s'' op]. simpl in *.
    rewrite <- O. intros H.
    assert (N : op <> json.scanError).
    { intros ->. now apply Er. }
    split; [exact N|].
    apply (accepted_core rest s'' _ C). apply IH; [exact Sd|].
    destruct op; try exact H. now destruct N.
Qed.

Lemma string_continue (s : json.scanner) (raw : string) (c : ascii) :
  in_string (json.step s) raw ->
  snd (json.do_step quote s c) = json.scanContinue ->
  in_string (json.step (fst (json.do_step quote s c))) (raw ++ String c "").
Proof.
  destruct s as [st e ps er b]. simpl.
  destruct st; simpl; try contradiction; intros I.
  - (* stateEndValue *)
    unfold_step. split_ifs; simpl; discriminate.
  - (* stateInString *)
    unfold_step.
    destruct (Ascii.eqb c json.DQUOTE) eqn:Q; simpl.
    { intros _. apply Ascii.eqb_eq in Q. subst c. now exists raw. }
    destruct (Ascii.eqb c "\") eqn:B; simpl.
    { intros _. apply Ascii.eqb_eq in B. subst c. now exists raw. }
    destruct (byte_val c <? 32)%Z eqn:L; simpl; [discriminate|].
    intros _. apply well_formed_snoc; [exact I|].
    cbn [well_formed]. rewrite B. unfold plain_byte. now rewrite Q, B, L.
  - (* stateInStringEsc *)
    destruct I as [b0 [-> W]]. unfold_step.
    match goal with
    | |- context [if ?x then _ else _] =>
        change x with (simple_escape c); destruct (simple_escape c) eqn:E
    end; simpl.
    { intros _. rewrite append_assoc. apply well_formed_snoc; [exact W|].
      cbn [String.append well_formed Ascii.eqb Bool.eqb andb]. now rewrite E. }
    destruct (Ascii.eqb c "u") eqn:U; simpl; [|discriminate].
    intros _. apply Ascii.eqb_eq in U. subst c. exists b0.
    now rewrite append_assoc.
  - (* stateInStringEscU *)
    destruct I as [b0 [-> W]]. unfold_step.
    destruct (json.isHex c) eqn:H; simpl; [|discriminate].
    intros _. exists b0, c. now rewrite append_assoc.
  - destruct I as [b0 [h1 [-> [W H1]]]]. unfold_step.
    destruct (json.isHex c) eqn:H; simpl; [|discriminate].
    intros _. exists b0, h1, c. now rewrite append_assoc.
  - destruct I as [b0 [h1 [h2 [-> [W [H1 H2]]]]]]. unfold_step.
    destruct (json.isHex c) eqn:H; simpl; [|discriminate].
    intros _. exists b0, h1, h2, c. now rewrite append_assoc.
  - destruct I as [b0 [h1 [h2 [h3 [-> [W [H1 [H2 H3]]]]]]]]. unfold_step.
    destruct (json.isHex c) eqn:H; simpl; [|discriminate].
    intros _. rewrite append_assoc. apply well_formed_snoc; [exact W|].
    cbn [String.append well_formed Ascii.eqb Bool.eqb andb].
    change (simple_escape "u") with false. cbv iota.
    now rewrite H1, H2, H3, H.
Qed.


(** Inside a string literal the scanner continues or fails; the literal ends
    only after its closing quote. *)

Lemma string_finish (s : json.scanner) (raw : string) (c : ascii) :
  in_string (json.step s) raw ->
  snd (json.do_step quote s c) <> json.scanContinue ->
  snd (json.do_step quote s c) <> json.scanError ->
  closed_literal raw.
Proof.
  destruct s as [st e ps er b]. simpl.
  destruct st; simpl; try contradiction; intros I; try (intros _ _; exact I);
    unfold_step; split_ifs; simpl; intros N1 N2;
    solve [now destruct N1 | now destruct N2].
Qed.

Lemma string_end (s : json.scanner) (raw : string) :
  scanner_tidy s -> in_string (json.step s) raw ->
  json.endTop s = true \/ json.endTop (fst (json.do_step quote s " ")) = true ->
  closed_literal raw.
Proof.
  destruct s as [st e ps er b]. unfold scanner_tidy; simpl. intros T.
  destruct st; simpl; try contradiction; intros I; try (intros _; exact I);
    unfold_step; intros [E|E];
    solve [ destruct (T E) as [D|D]; discriminate D
          | revert E; split_ifs; simpl; intros E;
            destruct (T E) as [D|D]; discriminate D ].
Qed.

Lemma begin_string (s : json.scanner) (c : ascii) :
  c = json.DQUOTE ->
  snd (json.do_step quote s c) = json.scanBeginLiteral ->
  json.step (fst (json.do_step quote s c)) = json.stateInString.
Proof.
  intros ->. destruct s as [st e ps er b].
  destruct st; unfold_step; split_ifs; simpl; intros E;
    try discriminate E; try reflexivity.
Qed.

Lemma items_loop_ok (target : nat) (data : string) :
  forall scan cur acc,
    scanner_tidy scan -> scanner_accepts scan data -> cur_ok scan cur -> Forall item_ok acc ->
    Forall item_ok (json.items_loop quote target scan cur acc data).
Proof.
  induction data as [|c rest IH]; intros scan cur acc T A C F; simpl.
  - apply Forall_rev. destruct cur as [[c0 raw]|]; simpl; [|exact F].
    constructor; [|exact F]. intros ->. simpl in A.
    exact (string_end scan raw T (C eq_refl) A).
  - simpl in A. destruct A as [N A].
    pose proof (do_step_tidy scan c T) as T'.
    pose proof (begin_string scan c) as B.
    pose proof (fun raw I => string_continue scan raw c I) as SC.
    pose proof (fun raw I => string_finish scan raw c I) as SF.
    destruct (json.do_step quote scan c) as [scan' op]. simpl in *.
    assert (Fin : op <> json.scanContinue -> Forall item_ok (json.finish cur acc)).
    { intros NC. destruct cur as [[c0 raw]|]; simpl; [|exact F].
      constructor; [|exact F]. intros ->. exact (SF raw (C eq_refl) NC N). }
    assert (Go : op <> json.scanContinue ->
                 Forall item_ok
                   (let acc := json.finish cur acc in
                    if (List.length (json.parseState scan) =? target)%nat then
                      match op with
                      | json.scanBeginLiteral =>
                          json.items_loop quote target scan' (Some (c, "")) acc rest
                      | json.scanBeginArray =>
                          json.items_loop quote target scan' None (json.Array :: acc) rest
                      | json.scanBeginObject =>
                          json.items_loop quote target scan' None (json.Object :: acc) rest
                      | _ => json.items_loop quote target scan' None acc rest
                      end
                    else json.items_loop quote target scan' None acc rest)).
    { intros NC. specialize (Fin NC). cbv zeta.
      destruct (List.length (json.parseState scan) =? target)%nat;
        [|now apply IH].
      destruct op; try (now apply IH);
        try (apply IH; try assumption; try exact I; now constructor).
      apply IH; try assumption. simpl. intros Q. rewrite (B Q eq_refl). reflexivity. }
    destruct cur as [[c0 raw]|].
    + destruct op; try (apply Go; discriminate).
      apply IH; try assumption. simpl. intros ->.
      exact (SC raw (C eq_refl) eq_refl).
    + destruct op; try (apply Go; discriminate).
      simpl. destruct (List.length (json.parseState scan) =? target)%nat;
        now apply IH.
Qed.

Lemma get_snoc (b : string) (d : ascii) :
  String.get (String.length b) (b ++ String d "") = Some d.
Proof. induction b as [|x b IH]; [reflexivity | exact IH]. Qed.

Lemma substring_snoc (b : string) (d : ascii) :
  String.substring 0 (String.length b) (b ++ String d "") = b.
Proof. induction b as [|x b IH]; [reflexivity | simpl; now rewrite IH]. Qed.

Lemma length_snoc (b : string) (d : ascii) :
  String.length (b ++ String d "") = S (String.length b).
Proof. induction b as [|x b IH]; simpl; [reflexivity | now rewrite IH]. Qed.

Lemma unquoteBytes_closed (b : string) :
  json.unquoteBytes (String json.DQUOTE (b ++ String json.DQUOTE ""))
  = json.unquote_loop (String.length b) b.
Proof.
  unfold json.unquoteBytes. cbn [String.length]. rewrite length_snoc.
  change (S (S (String.length b)) <? 2)%nat with false. cbv iota.
  replace (S (S (String.length b)) - 1)%nat with (S (String.length b)) by lia.
  replace (S (S (String.length b)) - 2)%nat with (String.length b) by lia.
  change (String.get 0 (String json.DQUOTE (b ++ String json.DQUOTE "")))
    with (Some json.DQUOTE).
  change (String.get (S (String.length b))
            (String json.DQUOTE (b ++ String json.DQUOTE "")))
    with (String.get (String.length b) (b ++ String json.DQUOTE "")).
  rewrite get_snoc.
  change (String.substring 1 (String.length b)
            (String json.DQUOTE (b ++ String json.DQUOTE "")))
    with (String.substring 0 (String.length b) (b ++ String json.DQUOTE "")).
  now rewrite substring_snoc.
Qed.

Lemma unquote_closed (rest : string) :
  closed_literal rest -> json.unquoteBytes (String json.DQUOTE rest) <> None.
Proof.
  intros [b [-> W]]. rewrite unquoteBytes_closed.
  now apply (unquote_well_formed (String.length b)).
Qed.

(** Every string literal that the decoder stores, of an input that
    [checkValid] accepts, unquotes: the decoder does not panic. *)

Theorem stored_strings_unquote (data : string) (target : nat) (c : ascii)
    (rest : string) :
  json.checkValid quote data = None ->
  In (json.Literal c rest) (json.items quote target data) ->
  c = json.DQUOTE ->
  json.unquoteBytes (String c rest) <> None.
Proof.
  intros V I ->. apply unquote_closed.
  assert (F : Forall item_ok (json.items quote target data)).
  { apply items_loop_ok.
    - intros E. discriminate E.
    - apply checkValid_loop_accepted; [|exact V]. intros E. discriminate E.
    - exact Logic.I.
    - constructor. }
  rewrite Forall_forall in F. exact (F _ I eq_refl).
Qed.

Example Unmarshal_contacts :
  json.Unmarshal quote mixed_payload = (["mailto:a@example.com"; "tel:+123"], None).
Proof. reflexivity. Qed.

Example Unmarshal_empty_array : json.Unmarshal quote "[]" = ([], None).
Proof. reflexivity. Qed.

Example Unmarshal_escapes :
  json.Unmarshal quote ("[" ++ dq "a\u0040b\n\ud83d\ude00" ++ "]")
  = (["a@b" ++ NL ++ utf8.EncodeRune 0x1F600], None).
Proof. reflexivity. Qed.

Example Unmarshal_empty_input :
  json.Unmarshal quote "" = ([], Some "unexpected end of JSON input").
Proof. reflexivity. Qed.

Example Unmarshal_object :
  json.Unmarshal quote ("{" ++ dq "contact" ++ ": []}")
  = ([], Some "json: cannot unmarshal object into Go value of type []string").
Proof. reflexivity. Qed.

Example Unmarshal_number_element :
  json.Unmarshal quote ("[" ++ dq "mailto:a@example.com" ++ ", 7, null]")
  = (["mailto:a@example.com"; ""; ""],
     Some "json: cannot unmarshal number into Go value of type string").
Proof. reflexivity. Qed.

(** ** The validator *)

Lemma failure_code (contact : string) :
  failure contact =
  if strings.HasPrefix contact "mailto:"
  then ValidEmail (strings.TrimPrefix contact "mailto:")
  else Some "missing 'mailto:' prefix".
Proof.
  unfold failure, strings.HasPrefix.
  destruct (String.prefix "mailto:" contact) eqn:E; [|reflexivity].
  apply prefix_split in E. rewrite E at 1 2 3.
  rewrite TrimPrefix_app.
  now rewrite (substring_from_app "mailto:").
Qed.

Lemma failure_mailto (address : string) :
  failure ("mailto:" ++ address) = ValidEmail address.
Proof.
  rewrite failure_code.
  replace (strings.HasPrefix ("mailto:" ++ address) "mailto:") with true
    by (symmetry; apply HasPrefix_iff; now exists address).
  now rewrite TrimPrefix_app.
Qed.

Lemma failure_no_prefix (contact : string) :
  (forall rest, contact <> "mailto:" ++ rest) ->
  failure contact = Some "missing 'mailto:' prefix".
Proof.
  intros H. rewrite failure_code.
  destruct (strings.HasPrefix contact "mailto:") eqn:E; [|reflexivity].
  apply HasPrefix_iff in E. destruct E as [rest E]. now destruct (H rest).
Qed.

Lemma passes_iff (contact : string) : passes contact <-> failure contact = None.
Proof.
  split.
  - intros [address [-> H]]. now rewrite failure_mailto.
  - intros H. rewrite failure_code in H.
    destruct (strings.HasPrefix contact "mailto:") eqn:E; [|discriminate].
    pose proof E as E'. apply HasPrefix_iff in E'. destruct E' as [rest ->].
    rewrite TrimPrefix_app in H. now exists rest.
Qed.

(** One round of the loop adds to the buffer and to the calls made; what it
    adds does not depend on what was there. *)
Lemma validate_contact_adds (id : Z) (createdAt : string) (v : validation)
    (contact : string) :
  validate_contact id createdAt v contact =
  let w := validate_contact id createdAt {| probsBuff := ""; checked := [] |} contact in
  {| probsBuff := probsBuff v ++ probsBuff w;
     checked := (checked v ++ checked w)%list |}.
Proof.
  unfold validate_contact, writeProb; cbv zeta.
  destruct (strings.HasPrefix contact "mailto:").
  - destruct (ValidEmail _); simpl; now rewrite ?append_nil_r, ?app_nil_r.
  - simpl. now rewrite app_nil_r.
Qed.

Lemma validate_fold_adds (id : Z) (createdAt : string) (contacts : list string)
    (v : validation) :
  fold_left (validate_contact id createdAt) contacts v =
  let w := validate_loop id createdAt contacts in
  {| probsBuff := probsBuff v ++ probsBuff w;
     checked := (checked v ++ checked w)%list |}.
Proof.
  revert v; induction contacts as [|c contacts IH]; intros v; cbv zeta.
  - simpl. rewrite append_nil_r, app_nil_r. now destruct v.
  - unfold validate_loop. simpl.
    rewrite (IH (validate_contact id createdAt v c)).
    rewrite (IH (validate_contact id createdAt _ c)).
    rewrite (validate_contact_adds id createdAt v c). cbv zeta. simpl.
    now rewrite append_assoc, app_assoc.
Qed.

Lemma validate_loop_app (id : Z) (createdAt : string) (l1 l2 : list string) :
  validate_loop id createdAt (l1 ++ l2) =
  {| probsBuff := probsBuff (validate_loop id createdAt l1)
                  ++ probsBuff (validate_loop id createdAt l2);
     checked := (checked (validate_loop id createdAt l1)
                 ++ checked (validate_loop id createdAt l2))%list |}.
Proof.
  unfold validate_loop at 1. rewrite fold_left_app.
  now rewrite validate_fold_adds.
Qed.

Lemma validate_loop_cons (id : Z) (createdAt : string) (c : string) (l : list string) :
  validate_loop id createdAt (c :: l) =
  {| probsBuff := probsBuff (validate_loop id createdAt [c])
                  ++ probsBuff (validate_loop id createdAt l);
     checked := (checked (validate_loop id createdAt [c])
                 ++ checked (validate_loop id createdAt l))%list |}.
Proof. exact (validate_loop_app id createdAt [c] l). Qed.

Lemma validate_loop_one (id : Z) (createdAt contact : string) :
  probsBuff (validate_loop id createdAt [contact]) =
  match failure contact with
  | Some reason => report_line id createdAt "validation" contact reason
  | None => ""
  end.
Proof.
  rewrite failure_code. unfold validate_loop, validate_contact, writeProb; simpl.
  destruct (strings.HasPrefix contact "mailto:").
  - destruct (ValidEmail _); simpl; [apply Sprintf_validation | reflexivity].
  - apply Sprintf_validation.
Qed.

(** The buffer holds the lines of the failing contacts, in order. *)
Lemma validate_loop_problems (id : Z) (createdAt : string) (contacts : list string) :
  probsBuff (validate_loop id createdAt contacts) =
  String.concat "" (map (validation_line id createdAt) (problems contacts)).
Proof.
  induction contacts as [|c contacts IH]; [reflexivity|].
  rewrite validate_loop_cons; simpl probsBuff.
  rewrite IH, validate_loop_one.
  change (problems (c :: contacts))
    with (match failure c with
          | Some reason => [(c, reason)]
          | None => []
          end ++ problems contacts)%list.
  rewrite map_app, concat_app.
  now destruct (failure c).
Qed.

Lemma concat_lines_empty (id : Z) (createdAt : string) (ps : list (string * string)) :
  String.length (String.concat "" (map (validation_line id createdAt) ps)) = 0%nat
  <-> ps = [].
Proof.
  destruct ps as [|p ps]; simpl map; [now split|].
  rewrite concat_cons, length_append. split; [|discriminate].
  pose proof (report_line_not_empty id createdAt "validation" (fst p) (snd p)).
  unfold validation_line. lia.
Qed.

Lemma validateContacts_problems (id : Z) (createdAt : string) (contacts : list string) :
  validateContacts id createdAt contacts =
  match problems contacts with
  | [] => None
  | ps => Some (String.concat "" (map (validation_line id createdAt) ps))
  end.
Proof.
  unfold validateContacts; cbv zeta. rewrite validate_loop_problems.
  destruct (problems contacts) as [|p ps] eqn:E; [reflexivity|].
  destruct (Nat.eqb_spec
    (String.length (String.concat "" (map (validation_line id createdAt) (p :: ps)))) 0)
    as [H|H]; [|reflexivity].
  apply concat_lines_empty in H. discriminate.
Qed.

Lemma problems_nil_iff (contacts : list string) :
  problems contacts = [] <-> forall c, In c contacts -> failure c = None.
Proof.
  induction contacts as [|c contacts IH]; simpl.
  - split; [intros _ ? [] | reflexivity].
  - unfold problems in *; simpl. split.
    + intros H. apply app_eq_nil in H. destruct H as [H1 H2].
      intros x [<-|Hx]; [|now apply IH].
      destruct (failure c); [discriminate | reflexivity].
    + intros H. rewrite (H c (or_introl eq_refl)). simpl.
      apply IH. intros x Hx. apply H. now right.
Qed.

Lemma problems_contacts (contacts : list string) :
  map fst (problems contacts) = filter fails contacts.
Proof.
  induction contacts as [|c contacts IH]; [reflexivity|].
  unfold problems, fails in *; simpl.
  destruct (failure c); simpl; now rewrite <- IH.
Qed.

Lemma problems_reasons (contacts : list string) (p : string * string) :
  In p (problems contacts) -> In (fst p) contacts /\ failure (fst p) = Some (snd p).
Proof.
  unfold problems. rewrite in_flat_map. intros [c [Hc Hp]].
  destruct (failure c) as [reason|] eqn:E; [|contradiction].
  destruct Hp as [<-|[]]. now split.
Qed.

(** C1: when [validateContacts] returns an error, its text is the
    concatenation, in the order of the contacts, of one line for each failing
    contact: the record id, a tab, createdAt, a tab, [validation], a tab, the
    contact as given (with its prefix) quoted by [%q], a tab, the reason
    quoted by [%q], and a newline.  There are as many lines as failing
    contacts, and the reason of a line is the reason its contact fails for. *)
Theorem validateContacts_error_text (id : Z) (createdAt : string)
    (contacts : list string) (text : string) :
  validateContacts id createdAt contacts = Some text ->
  let line (p : string * string) :=
    fmt.fmt_d id ++ TAB ++ createdAt ++ TAB ++ "validation" ++ TAB
    ++ quote (fst p) ++ TAB ++ quote (snd p) ++ NL in
  let lines := map line (problems contacts) in
  text = String.concat "" lines
  /\ map fst (problems contacts) = filter fails contacts
  /\ (forall p, In p (problems contacts) -> failure (fst p) = Some (snd p))
  /\ List.length lines = List.length (filter fails contacts).
Proof.
  intros H line lines. rewrite validateContacts_problems in H.
  repeat split.
  - destruct (problems contacts) as [|p ps] eqn:E; [discriminate|].
    injection H as <-. reflexivity.
  - apply problems_contacts.
  - intros p Hp. now apply problems_reasons in Hp.
  - unfold lines. now rewrite length_map, <- problems_contacts, length_map.
Qed.

(** C3: a contact that does not begin with [mailto:] adds exactly one line to
    the buffer, with the reason [missing 'mailto:' prefix], whatever the
    checker would say of it, and the checker is not called for it: the calls
    made are those for the contacts before and after it.  The error returned
    is then the buffer. *)
Theorem missing_prefix_problem (id : Z) (createdAt : string)
    (before : list string) (contact : string) (after : list string) :
  (forall rest, contact <> "mailto:" ++ rest) ->
  let v := validate_loop id createdAt (before ++ contact :: after) in
  probsBuff v =
    probsBuff (validate_loop id createdAt before)
    ++ report_line id createdAt "validation" contact "missing 'mailto:' prefix"
    ++ probsBuff (validate_loop id createdAt after)
  /\ checked v =
       (checked (validate_loop id createdAt before)
        ++ checked (validate_loop id createdAt after))%list
  /\ validateContacts id createdAt (before ++ contact :: after) = Some (probsBuff v).
Proof.
  intros H v.
  assert (E : strings.HasPrefix contact "mailto:" = false).
  { destruct (strings.HasPrefix contact "mailto:") eqn:E; [|reflexivity].
    apply HasPrefix_iff in E. destruct E as [rest E]. now destruct (H rest). }
  assert (B : probsBuff v =
    probsBuff (validate_loop id createdAt before)
    ++ report_line id createdAt "validation" contact "missing 'mailto:' prefix"
    ++ probsBuff (validate_loop id createdAt after)).
  { unfold v. rewrite validate_loop_app, validate_loop_cons; simpl probsBuff.
    now rewrite validate_loop_one, failure_no_prefix. }
  split; [exact B|]. split.
  - unfold v. rewrite validate_loop_app, validate_loop_cons; simpl checked.
    unfold validate_loop at 2; simpl. unfold validate_contact. now rewrite E.
  - unfold validateContacts; cbv zeta. fold v.
    destruct (Nat.eqb_spec (String.length (probsBuff v)) 0) as [Z0|]; [|reflexivity].
    rewrite B, !length_append in Z0.
    pose proof (report_line_not_empty id createdAt "validation" contact
                  "missing 'mailto:' prefix"). lia.
Qed.

(** C4: for a contact [mailto:] followed by [address], the loop strips
    exactly that prefix and calls the checker once, on [address]; when the
    checker returns an error the contact adds exactly one line whose reason is
    the checker's message and whose quoted contact is the string with its
    prefix, and when the checker accepts it adds nothing. *)
Theorem mailto_contact_checked (id : Z) (createdAt : string)
    (before : list string) (address : string) (after : list string) :
  let contact := "mailto:" ++ address in
  let v := validate_loop id createdAt (before ++ contact :: after) in
  strings.HasPrefix contact "mailto:" = true
  /\ strings.TrimPrefix contact "mailto:" = address
  /\ checked v =
       (checked (validate_loop id createdAt before)
        ++ address :: checked (validate_loop id createdAt after))%list
  /\ probsBuff v =
       probsBuff (validate_loop id createdAt before)
       ++ match ValidEmail address with
          | Some reason => report_line id createdAt "validation" contact reason
          | None => ""
          end
       ++ probsBuff (validate_loop id createdAt after).
Proof.
  intros contact v.
  assert (E : strings.HasPrefix contact "mailto:" = true)
    by (apply HasPrefix_iff; now exists address).
  assert (T : strings.TrimPrefix contact "mailto:" = address)
    by apply TrimPrefix_app.
  repeat split; try assumption.
  - unfold v. rewrite validate_loop_app, validate_loop_cons; simpl checked.
    unfold validate_loop at 2; simpl fold_left. unfold validate_contact.
    rewrite E, T. now destruct (ValidEmail address).
  - unfold v. rewrite validate_loop_app, validate_loop_cons; simpl probsBuff.
    rewrite validate_loop_one. unfold contact. now rewrite failure_mailto.
Qed.

(** ** Actions and their events *)

Lemma fst_bind {A B : Type} (m : M A) (k : A -> M B) (h : trace) :
  fst (bind m k h) = fst (k (fst (m h)) (h ++ snd (m h))%list).
Proof. unfold bind. destruct (m h) as [a t1]; simpl. now destruct (k a _). Qed.

Lemma snd_bind {A B : Type} (m : M A) (k : A -> M B) (h : trace) :
  snd (bind m k h) = (snd (m h) ++ snd (k (fst (m h)) (h ++ snd (m h))%list))%list.
Proof. unfold bind. destruct (m h) as [a t1]; simpl. now destruct (k a _). Qed.

Lemma bind_ext {A B : Type} (m : M A) (k1 k2 : A -> M B) (h : trace) :
  (forall a h', k1 a h' = k2 a h') -> bind m k1 h = bind m k2 h.
Proof. intros H. unfold bind. destruct (m h) as [a t1]. now rewrite H. Qed.

Lemma results_app (t1 t2 : trace) : results (t1 ++ t2)%list = (results t1 ++ results t2)%list.
Proof. apply flat_map_app. Qed.

Lemma sent_app (t1 t2 : trace) : sent (t1 ++ t2)%list = (sent t1 ++ sent t2)%list.
Proof. apply flat_map_app. Qed.

Lemma print_attempts_app (t1 t2 : trace) :
  print_attempts (t1 ++ t2)%list = (print_attempts t1 ++ print_attempts t2)%list.
Proof. apply flat_map_app. Qed.

Lemma write_attempts_app (t1 t2 : trace) :
  write_attempts (t1 ++ t2)%list = (write_attempts t1 ++ write_attempts t2)%list.
Proof. apply flat_map_app. Qed.

(** The events of [writeResults], spelled out. *)
Lemma writeResults_events (c : contactAuditor) (line : string) (h : trace) :
  snd (writeResults c line h) =
  (Result line
   :: (if writeToStdout c then
         let err := print_outcome os (h ++ [Result line])%list line in
         Stdout line err
         :: match err with
            | Some err => [Log LevelErr ("Error while writing result to stdout: " ++ err)]
            | None => []
            end
       else [])
   ++ match resultsFile c with
      | Some f =>
          let h' := (h ++ Result line
                       :: (if writeToStdout c then
                             let err := print_outcome os (h ++ [Result line])%list line in
                             Stdout line err
                             :: match err with
                                | Some err =>
                                    [Log LevelErr
                                       ("Error while writing result to stdout: " ++ err)]
                                | None => []
                                end
                           else []))%list in
          let err := write_outcome os h' f line in
          FileWrite f line err
          :: match err with
             | Some err => [Log LevelErr ("Error while writing result to file: " ++ err)]
             | None => []
             end
      | None => []
      end)%list.
Proof.
  unfold writeResults, fmt_Print, WriteString, logger_Errf.
  unfold bind, ret, emit; cbv zeta.
  destruct (writeToStdout c); simpl.
  - destruct (print_outcome os (h ++ [Result line])%list line) as [e1|]; simpl.
    + rewrite Sprintf_write_error_stdout.
      destruct (resultsFile c) as [f|]; simpl; [|reflexivity].
      rewrite <- !app_assoc; simpl.
      destruct (write_outcome os _ f line) as [e2|]; simpl;
        now rewrite ?Sprintf_write_error_file.
    + destruct (resultsFile c) as [f|]; simpl; [|reflexivity].
      rewrite <- !app_assoc; simpl.
      destruct (write_outcome os _ f line) as [e2|]; simpl;
        now rewrite ?Sprintf_write_error_file.
  - destruct (resultsFile c) as [f|]; simpl; [|reflexivity].
    rewrite ?app_nil_r.
    destruct (write_outcome os _ f line) as [e2|]; simpl;
      now rewrite ?Sprintf_write_error_file.
Qed.

Ltac writeResults_cases c :=
  rewrite writeResults_events; cbv zeta;
  destruct (writeToStdout c); [destruct (print_outcome os _ _)|];
  (destruct (resultsFile c); [destruct (write_outcome os _ _ _)|]);
  reflexivity.

Lemma writeResults_results (c : contactAuditor) (line : string) (h : trace) :
  results (snd (writeResults c line h)) = [line].
Proof. writeResults_cases c. Qed.

Lemma writeResults_sent (c : contactAuditor) (line : string) (h : trace) :
  sent (snd (writeResults c line h)) = [].
Proof. writeResults_cases c. Qed.

Lemma writeResults_print_attempts (c : contactAuditor) (line : string) (h : trace) :
  print_attempts (snd (writeResults c line h)) =
  if writeToStdout c then [line] else [].
Proof. writeResults_cases c. Qed.

Lemma writeResults_write_attempts (c : contactAuditor) (line : string) (h : trace) :
  write_attempts (snd (writeResults c line h)) =
  match resultsFile c with Some _ => [line] | None => [] end.
Proof. writeResults_cases c. Qed.

(** [writeResults] touches neither the cursor nor the channel. *)
Lemma writeResults_no_control (c : contactAuditor) (line : string) (h : trace) :
  existsb is_control (snd (writeResults c line h)) = false.
Proof. writeResults_cases c. Qed.

(** ** One row *)

Lemma audit_row_results (c : contactAuditor) (resChan : option chan)
    (id : Z) (contact createdAt : string) (h : trace) :
  results (snd (audit_row c resChan id contact createdAt h)) =
  record_results (id, contact, createdAt).
Proof.
  unfold audit_row, record_results.
  destruct (unmarshalContact contact) as [contacts err].
  destruct err as [err|], (validateContacts id createdAt contacts) as [text|], resChan;
    rewrite !snd_bind, !results_app, ?writeResults_results, ?Sprintf_unmarshal;
    reflexivity.
Qed.

Lemma audit_row_sent (c : contactAuditor) (resChan : option chan)
    (id : Z) (contact createdAt : string) (h : trace) :
  sent (snd (audit_row c resChan id contact createdAt h)) =
  match resChan with
  | Some _ => [record_sent (id, contact, createdAt)]
  | None => []
  end.
Proof.
  unfold audit_row, record_sent.
  destruct (unmarshalContact contact) as [contacts err].
  destruct err as [err|], (validateContacts id createdAt contacts) as [text|], resChan;
    rewrite !snd_bind, !sent_app, ?writeResults_sent; reflexivity.
Qed.

Lemma existsb_app_false {A : Type} (p : A -> bool) (l1 l2 : list A) :
  existsb p l1 = false -> existsb p l2 = false -> existsb p (l1 ++ l2) = false.
Proof. intros H1 H2. now rewrite existsb_app, H1, H2. Qed.

(** Auditing a row touches the cursor not at all, and the channel only by
    its send. *)
Lemma audit_row_no_failure (p : event -> bool) (c : contactAuditor)
    (resChan : option chan) (id : Z) (contact createdAt : string) (h : trace) :
  (forall e, p e = true -> is_control e = true) ->
  (forall r, p (Send r) = false) ->
  existsb p (snd (audit_row c resChan id contact createdAt h)) = false.
Proof.
  intros Hp Hsend.
  assert (W : forall line h', existsb p (snd (writeResults c line h')) = false).
  { intros line h'. pose proof (writeResults_no_control c line h') as N.
    induction (snd (writeResults c line h')) as [|e t IH]; [reflexivity|].
    simpl in *. apply orb_false_iff in N. destruct N as [N1 N2].
    rewrite (IH N2), orb_false_r.
    destruct (p e) eqn:E; [|reflexivity]. apply Hp in E. congruence. }
  unfold audit_row.
  destruct (unmarshalContact contact) as [contacts err].
  destruct err as [err|], (validateContacts id createdAt contacts) as [text|], resChan;
    rewrite !snd_bind; repeat apply existsb_app_false;
    try apply W; simpl; now rewrite ?Hsend.
Qed.

(** ** The loop over the rows *)

Lemma audit_rows_error (c : contactAuditor) (resChan : option chan)
    (rows : list row) (h : trace) :
  fst (audit_rows c resChan rows h) = first_bad rows.
Proof.
  revert h; induction rows as [|[id contact createdAt|err] rows IH]; intros h; simpl.
  - reflexivity.
  - rewrite !fst_bind. apply IH.
  - reflexivity.
Qed.

Lemma audit_rows_results (c : contactAuditor) (resChan : option chan)
    (rows : list row) (h : trace) :
  results (snd (audit_rows c resChan rows h)) = flat_map record_results (rows_read rows).
Proof.
  revert h; induction rows as [|[id contact createdAt|err] rows IH]; intros h; simpl.
  - reflexivity.
  - rewrite !snd_bind, !results_app, audit_row_results, IH. reflexivity.
  - reflexivity.
Qed.

Lemma audit_rows_sent (c : contactAuditor) (resChan : option chan)
    (rows : list row) (h : trace) :
  sent (snd (audit_rows c resChan rows h)) =
  match resChan with
  | Some _ => map record_sent (rows_read rows)
  | None => []
  end.
Proof.
  revert h; induction rows as [|[id contact createdAt|err] rows IH]; intros h; simpl.
  - now destruct resChan.
  - rewrite !snd_bind, !sent_app, audit_row_sent, IH. now destruct resChan.
  - now destruct resChan.
Qed.

Lemma audit_rows_scan_failure (c : contactAuditor) (resChan : option chan)
    (rows : list row) (h : trace) :
  existsb is_scan_failure (snd (audit_rows c resChan rows h)) =
  match first_bad rows with Some _ => true | None => false end.
Proof.
  revert h; induction rows as [|[id contact createdAt|err] rows IH]; intros h; simpl.
  - reflexivity.
  - rewrite !snd_bind, !existsb_app, IH.
    rewrite audit_row_no_failure; [reflexivity | now intros [] | reflexivity].
  - reflexivity.
Qed.

Lemma audit_rows_no_failure (p : event -> bool) (c : contactAuditor)
    (resChan : option chan) (rows : list row) (h : trace) :
  (forall e, p e = true -> is_control e = true) ->
  (forall r, p (Send r) = false) ->
  (forall err, p (Scan err) = false) ->
  existsb p (snd (audit_rows c resChan rows h)) = false.
Proof.
  intros Hp Hsend Hscan.
  revert h; induction rows as [|[id contact createdAt|err] rows IH]; intros h; simpl.
  - reflexivity.
  - rewrite !snd_bind. repeat apply existsb_app_false.
    + simpl. now rewrite Hscan.
    + now apply audit_row_no_failure.
    + apply IH.
  - now rewrite Hscan.
Qed.

(** A read that fails ends the loop: the rows after it, and nothing else of
    them, are of no effect, and the failed read is the last event. *)
Lemma audit_rows_stop (c : contactAuditor) (resChan : option chan)
    (before : list (Z * string * string)) (err : error) (after : list row)
    (h : trace) :
  audit_rows c resChan (map row_of before ++ BadRow err :: after) h =
  audit_rows c resChan (map row_of before ++ [BadRow err]) h
  /\ exists t, snd (audit_rows c resChan (map row_of before ++ BadRow err :: after) h)
               = (t ++ [Scan (Some err)])%list
               /\ results t = flat_map record_results before.
Proof.
  revert h; induction before as [|[[id contact] createdAt] before IH]; intros h.
  - split; [reflexivity|]. exists []. now split.
  - simpl map. simpl app. cbn [audit_rows]. split.
    + apply bind_ext; intros _ h1. apply bind_ext; intros _ h2.
      apply (proj1 (IH h2)).
    + rewrite !snd_bind.
      match goal with
      | |- context [snd (audit_rows _ _ _ ?h')] =>
          destruct (proj2 (IH h')) as [t [Et Rt]]; rewrite Et
      end.
      match goal with
      | |- exists _, (?a ++ ?b ++ _ ++ _)%list = _ /\ _ => exists (a ++ b ++ t)%list
      end.
      split.
      * now rewrite <- !app_assoc.
      * rewrite !results_app, audit_row_results, Rt. reflexivity.
Qed.

(** ** The run *)

Lemma bind_ret {A B : Type} (a : A) (k : A -> M B) (h : trace) :
  bind (ret a) k h = k a h.
Proof. unfold bind, ret. rewrite app_nil_r. now destruct (k a h). Qed.

Lemma bind_assoc {A B C : Type} (m : M A) (k1 : A -> M B) (k2 : B -> M C) (h : trace) :
  bind (bind m k1) k2 h = bind m (fun a => bind (k1 a) k2) h.
Proof.
  unfold bind. destruct (m h) as [a t1]. destruct (k1 a _) as [b t2].
  rewrite app_assoc. destruct (k2 b _) as [x t3]. now rewrite app_assoc.
Qed.

Lemma fst_bind_emit {B : Type} (e : event) (k : unit -> M B) (h : trace) :
  fst (bind (emit e) k h) = fst (k tt (h ++ [e])%list).
Proof. now rewrite fst_bind. Qed.

Lemma snd_bind_emit {B : Type} (e : event) (k : unit -> M B) (h : trace) :
  snd (bind (emit e) k h) = e :: snd (k tt (h ++ [e])%list).
Proof. now rewrite snd_bind. Qed.

Ltac monad_steps :=
  repeat (progress (rewrite ?bind_assoc, ?snd_bind_emit, ?fst_bind_emit, ?bind_ret;
                    cbv beta iota)).

(** The events of a run, spelled out around those of the loop. *)
Lemma run_events (c : contactAuditor) (resChan : option chan) (h : trace) :
  snd (run c resChan h) =
  (Log LevelInfo "Beginning database query"
   :: match db c with
      | inl err => [Query (Some err)]
      | inr rows =>
          Query None
          :: snd (audit_rows c resChan (pending rows)
                    (h ++ [Log LevelInfo "Beginning database query"; Query None]))
          ++ match first_bad (pending rows) with
             | Some _ => []
             | None =>
                 RowsClose (close_err rows)
                 :: match close_err rows with
                    | Some _ => []
                    | None =>
                        Log LevelInfo "Query completed successfully"
                        :: match resChan with
                           | Some _ => [CloseChan]
                           | None => []
                           end
                    end
             end
      end)%list.
Proof.
  unfold run, beginAuditQuery, logger_Infof, logger_Info.
  rewrite Sprintf_beginning.
  destruct (db c) as [err|rows]; monad_steps.
  - reflexivity.
  - rewrite <- app_assoc. simpl app at 2. 
    rewrite snd_bind, audit_rows_error. do 3 f_equal.
    destruct (first_bad (pending rows)); [reflexivity|]. monad_steps.
    destruct (close_err rows); [reflexivity|]. monad_steps. 
    destruct resChan; monad_steps; reflexivity.
Qed.

Lemma run_returns (c : contactAuditor) (resChan : option chan) (h : trace) :
  fst (run c resChan h) = run_error (db c).
Proof.
  unfold run, beginAuditQuery, run_error, logger_Infof, logger_Info.
  destruct (db c) as [err|rows]; monad_steps.
  - reflexivity.
  - rewrite fst_bind, audit_rows_error.
    destruct (first_bad (pending rows)); [reflexivity|]. monad_steps.
    destruct (close_err rows); [reflexivity|]. monad_steps.
    destruct resChan; monad_steps; reflexivity.
Qed.

Lemma run_results (c : contactAuditor) (resChan : option chan) (h : trace) :
  results (snd (run c resChan h)) = audit_results (db c).
Proof.
  rewrite run_events. unfold audit_results.
  destruct (db c) as [err|rows]; [reflexivity|].
  change (results (?a :: ?b :: ?t)) with (results t).
  rewrite results_app, audit_rows_results.
  destruct (first_bad (pending rows)), (close_err rows), resChan;
    simpl; now rewrite app_nil_r.
Qed.

Lemma run_sent (c : contactAuditor) (resChan : option chan) (h : trace) :
  sent (snd (run c resChan h)) =
  match resChan, db c with
  | Some _, inr rows => map record_sent (rows_read (pending rows))
  | _, _ => []
  end.
Proof.
  rewrite run_events.
  destruct (db c) as [err|rows]; [now destruct resChan|].
  change (sent (?a :: ?b :: ?t)) with (sent t).
  rewrite sent_app, audit_rows_sent.
  destruct (first_bad (pending rows)), (close_err rows), resChan;
    simpl; now rewrite ?app_nil_r.
Qed.

Lemma run_query_failure (c : contactAuditor) (resChan : option chan) (h : trace) :
  existsb is_query_failure (snd (run c resChan h)) =
  match db c with inl _ => true | inr _ => false end.
Proof.
  rewrite run_events.
  destruct (db c) as [err|rows]; [reflexivity|].
  cbn [existsb is_query_failure orb]. rewrite existsb_app.
  rewrite audit_rows_no_failure; [| now intros [[]| | | | | | | |] | reflexivity..].
  destruct (first_bad (pending rows)), (close_err rows), resChan; reflexivity.
Qed.

Lemma run_scan_failure (c : contactAuditor) (resChan : option chan) (h : trace) :
  existsb is_scan_failure (snd (run c resChan h)) =
  match db c with
  | inl _ => false
  | inr rows => match first_bad (pending rows) with Some _ => true | None => false end
  end.
Proof.
  rewrite run_events.
  destruct (db c) as [err|rows]; [reflexivity|].
  cbn [existsb is_scan_failure orb]. rewrite existsb_app, audit_rows_scan_failure.
  destruct (first_bad (pending rows)), (close_err rows), resChan; reflexivity.
Qed.

Lemma run_close_failure (c : contactAuditor) (resChan : option chan) (h : trace) :
  existsb is_close_failure (snd (run c resChan h)) =
  match db c with
  | inl _ => false
  | inr rows =>
      match first_bad (pending rows), close_err rows with
      | None, Some _ => true
      | _, _ => false
      end
  end.
Proof.
  rewrite run_events.
  destruct (db c) as [err|rows]; [reflexivity|].
  cbn [existsb is_close_failure orb]. rewrite existsb_app.
  rewrite audit_rows_no_failure; [| now intros [| |[]| | | | | |] | reflexivity..].
  destruct (first_bad (pending rows)), (close_err rows), resChan; reflexivity.
Qed.

Lemma run_closed (c : contactAuditor) (resChan : option chan) (h : trace) :
  existsb is_closed (snd (run c resChan h)) =
  match resChan, run_error (db c) with
  | Some _, None => true
  | _, _ => false
  end.
Proof.
  rewrite run_events. unfold run_error.
  destruct (db c) as [err|rows]; [now destruct resChan|].
  cbn [existsb is_closed orb]. rewrite existsb_app.
  rewrite audit_rows_no_failure; [| now intros [] | reflexivity..].
  destruct (first_bad (pending rows)), (close_err rows), resChan; reflexivity.
Qed.

(** ** The claims on the decoder and the orchestrator *)

Lemma unmarshalContact_error (contact : string) (err : error) :
  snd (json.Unmarshal quote contact) = Some err ->
  unmarshalContact contact = ([], Some err).
Proof.
  unfold unmarshalContact. destruct (json.Unmarshal quote contact) as [l e]; simpl.
  now intros ->.
Qed.

Lemma validateContacts_nil (id : Z) (createdAt : string) :
  validateContacts id createdAt [] = None.
Proof. reflexivity. Qed.

(** C2: for a record whose payload does not decode, [unmarshalContact]
    returns no contacts, validating them gives nothing, the record hands
    [writeResults] exactly one line, the [unmarshal] line of the record, and
    the loop goes on with the next row: its events are the read, those of the
    record, then those of the loop over the rest, and its outcome is that of
    the loop over the rest. *)
Theorem undecodable_record (c : contactAuditor) (resChan : option chan)
    (id : Z) (contact createdAt : string) (err : error) (rest : list row)
    (h : trace) :
  snd (json.Unmarshal quote contact) = Some err ->
  unmarshalContact contact = ([], Some err)
  /\ validateContacts id createdAt (fst (unmarshalContact contact)) = None
  /\ results (snd (audit_row c resChan id contact createdAt h))
     = [fmt.fmt_d id ++ TAB ++ createdAt ++ TAB ++ "unmarshal" ++ TAB
        ++ quote contact ++ TAB ++ quote err ++ NL]
  /\ (let t := (Scan None
                :: snd (audit_row c resChan id contact createdAt (h ++ [Scan None])))%list in
      snd (audit_rows c resChan (Row id contact createdAt :: rest) h)
      = (t ++ snd (audit_rows c resChan rest (h ++ t)))%list
      /\ fst (audit_rows c resChan (Row id contact createdAt :: rest) h)
         = fst (audit_rows c resChan rest (h ++ t)%list)).
Proof.
  intros H. pose proof (unmarshalContact_error contact err H) as U.
  split; [exact U|]. split; [now rewrite U|]. split.
  - rewrite audit_row_results. unfold record_results. rewrite U. reflexivity.
  - cbv zeta. cbn [audit_rows]. split.
    + rewrite snd_bind_emit, snd_bind. now rewrite <- app_assoc.
    + rewrite fst_bind_emit, fst_bind. now rewrite <- app_assoc.
Qed.

Lemma problems_not_nil_iff (contacts : list string) :
  problems contacts <> [] <-> exists x, In x contacts /\ ~ passes x.
Proof.
  split.
  - intros H.
    destruct (problems contacts) as [|p ps] eqn:E; [now destruct H|].
    assert (Hp : In p (problems contacts)) by (rewrite E; now left).
    apply problems_reasons in Hp. destruct Hp as [Hin Hf].
    exists (fst p). split; [exact Hin|].
    rewrite passes_iff, Hf. discriminate.
  - intros [x [Hin Hx]] E.
    rewrite problems_nil_iff in E. apply Hx, passes_iff. now apply E.
Qed.

(** C6: for a record whose payload decodes, [validateContacts] returns nil
    exactly when every contact is [mailto:] followed by an address that the
    checker accepts, and an error exactly when some contact is not; in the
    first case the record hands no line to [writeResults]. *)
Theorem valid_contacts_no_problem (c : contactAuditor) (resChan : option chan)
    (id : Z) (contact createdAt : string) (contacts : list string) (h : trace) :
  unmarshalContact contact = (contacts, None) ->
  (validateContacts id createdAt contacts = None
   <-> forall x, In x contacts -> passes x)
  /\ (validateContacts id createdAt contacts <> None
      <-> exists x, In x contacts /\ ~ passes x)
  /\ ((forall x, In x contacts -> passes x) ->
      results (snd (audit_row c resChan id contact createdAt h)) = []).
Proof.
  intros U.
  assert (N : validateContacts id createdAt contacts = None
              <-> forall x, In x contacts -> passes x).
  { rewrite validateContacts_problems. split.
    - intros H x Hx. apply passes_iff.
      destruct (problems contacts) eqn:E; [|discriminate].
      now apply (proj1 (problems_nil_iff contacts) E).
    - intros H.
      replace (problems contacts) with (@nil (string * string)); [reflexivity|].
      symmetry. apply problems_nil_iff. intros x Hx. now apply passes_iff, H. }
  split; [exact N|]. split.
  - rewrite <- problems_not_nil_iff, validateContacts_problems.
    destruct (problems contacts); split; intros H; try discriminate;
      try (now destruct H).
  - intros H. rewrite audit_row_results. unfold record_results. rewrite U.
    now rewrite (proj2 N H).
Qed.

(** C10: the payload [null] decodes without error to no contacts, so its
    record hands [writeResults] nothing, neither an [unmarshal] line nor a
    line for a contact. *)
Theorem null_payload (c : contactAuditor) (resChan : option chan)
    (id : Z) (createdAt : string) (h : trace) :
  json.Unmarshal quote "null" = ([], None)
  /\ unmarshalContact "null" = ([], None)
  /\ validateContacts id createdAt (fst (unmarshalContact "null")) = None
  /\ results (snd (audit_row c resChan id "null" createdAt h)) = [].
Proof.
  assert (J : json.Unmarshal quote "null" = ([], None)) by reflexivity.
  assert (U : unmarshalContact "null" = ([], None))
    by (unfold unmarshalContact; now rewrite J).
  split; [exact J|]. split; [exact U|]. split.
  - now rewrite U.
  - rewrite audit_row_results. unfold record_results. now rewrite U.
Qed.

Lemma first_bad_all_read (rs : list (Z * string * string)) :
  first_bad (map row_of rs) = None.
Proof. induction rs as [|[[id contact] createdAt] rs IH]; [reflexivity | exact IH]. Qed.

Lemma first_bad_stop (before : list (Z * string * string)) (err : error)
    (after : list row) :
  first_bad (map row_of before ++ BadRow err :: after) = Some err.
Proof. induction before as [|[[id contact] createdAt] rs IH]; [reflexivity | exact IH]. Qed.

Lemma rows_read_all (rs : list (Z * string * string)) : rows_read (map row_of rs) = rs.
Proof.
  induction rs as [|[[id contact] createdAt] rs IH]; [reflexivity|].
  simpl. now rewrite IH.
Qed.

Lemma rows_read_stop (before : list (Z * string * string)) (err : error)
    (after : list row) :
  rows_read (map row_of before ++ BadRow err :: after) = before.
Proof.
  induction before as [|[[id contact] createdAt] rs IH]; [reflexivity|].
  simpl. now rewrite IH.
Qed.

(** C5, amended: [run] returns an error exactly when the query fails to
    open, a read of a row fails, or closing the cursor fails.  When every row
    is read, [run] returns what closing the cursor returns, whatever the
    payloads of the rows: an error of the close ends the run in failure, and
    no decode error or validation problem does.  A read that fails ends the
    run with its error at once: it is the last event, the rows before it have
    been audited, and no row after it is. *)
Theorem run_fails_iff (c : contactAuditor) (resChan : option chan) (h : trace) :
  let r := fst (run c resChan h) in
  let t := snd (run c resChan h) in
  (r <> None <->
   existsb is_query_failure t = true \/ existsb is_scan_failure t = true
   \/ existsb is_close_failure t = true)
  /\ (forall rs ce,
        db c = inr {| pending := map row_of rs; close_err := ce |} -> r = ce)
  /\ (forall before err after ce,
        db c = inr {| pending := map row_of before ++ BadRow err :: after;
                      close_err := ce |} ->
        r = Some err
        /\ exists t0,
             t = (Log LevelInfo "Beginning database query" :: Query None
                  :: t0 ++ [Scan (Some err)])%list
             /\ results t0 = flat_map record_results before).
Proof.
  cbv zeta. split; [|split].
  - rewrite run_returns, run_query_failure, run_scan_failure, run_close_failure.
    unfold run_error. destruct (db c) as [err|rows].
    + split; [now left | discriminate].
    + destruct (first_bad (pending rows)) as [err|].
      * split; [intros _; right; now left | discriminate].
      * destruct (close_err rows) as [err|].
        -- split; [intros _; right; now right | discriminate].
        -- split; [now intros [] | intros [H|[H|H]]; discriminate].
  - intros rs ce E. rewrite run_returns, E. unfold run_error; simpl.
    now rewrite first_bad_all_read.
  - intros before err after ce E. split.
    + rewrite run_returns, E. unfold run_error; simpl. now rewrite first_bad_stop.
    + rewrite run_events, E. cbn [pending close_err]. rewrite first_bad_stop.
      destruct (proj2 (audit_rows_stop c resChan before err after
                  (h ++ [Log LevelInfo "Beginning database query"; Query None])%list))
        as [t0 [Et Rt]].
      exists t0. split; [|exact Rt]. rewrite Et. now rewrite app_nil_r.
Qed.

(** C9, amended: when the channel is present it is sent one record for
    every row that was read, in order, whether or not the payload of the row
    decoded: the record carries the id, the contacts that [unmarshalContact]
    returned (none for a payload that did not decode) and createdAt.  The
    channel is closed exactly when it is present and the run ends without
    error, and closing it is then the last event.  With no channel nothing is
    sent or closed. *)
Theorem channel_receives_every_row (c : contactAuditor) (resChan : option chan)
    (h : trace) :
  let r := fst (run c resChan h) in
  let t := snd (run c resChan h) in
  sent t = match resChan, db c with
           | Some _, inr rows => map record_sent (rows_read (pending rows))
           | _, _ => []
           end
  /\ (forall id contact createdAt err,
        snd (json.Unmarshal quote contact) = Some err ->
        record_sent (id, contact, createdAt)
        = {| id := id; contacts := []; createdAt := createdAt |})
  /\ (existsb is_closed t = true <-> resChan <> None /\ r = None)
  /\ (resChan <> None -> r = None ->
      exists t0, t = (t0 ++ [CloseChan])%list /\ existsb is_closed t0 = false).
Proof.
  cbv zeta. split; [apply run_sent|]. split; [|split].
  - intros id0 contact createdAt0 err H. unfold record_sent.
    now rewrite (unmarshalContact_error contact err H).
  - rewrite run_closed, run_returns.
    destruct resChan, (run_error (db c)); split; try discriminate;
      try (intros [H1 H2]; congruence); try (now split).
  - intros Hc Hr. rewrite run_returns in Hr. rewrite run_events.
    unfold run_error in Hr. destruct (db c) as [err|rows]; [discriminate|].
    destruct (first_bad (pending rows)) eqn:F; [discriminate|].
    rewrite Hr. destruct resChan as [ch|]; [|now destruct Hc].
    exists (Log LevelInfo "Beginning database query" :: Query None
            :: snd (audit_rows c (Some ch) (pending rows)
                      (h ++ [Log LevelInfo "Beginning database query"; Query None]))
            ++ [RowsClose None; Log LevelInfo "Query completed successfully"])%list.
    split.
    + simpl. do 2 f_equal. now rewrite <- app_assoc.
    + cbn [existsb is_closed orb]. rewrite existsb_app.
      rewrite audit_rows_no_failure; [reflexivity | now intros [] | reflexivity..].
Qed.

(** ** What reaches the destinations

    An observation [f] of the events that sees nothing of the cursor, the
    channel and the log, and sees [g line] of a call of [writeResults],
    sees of a run [g] of every line of its report. *)
Section Observed.
Variable c : contactAuditor.
Variable f : event -> list string.
Variable g : string -> list string.
Hypothesis f_writeResults :
  forall line h, flat_map f (snd (writeResults c line h)) = g line.
Hypothesis f_control : forall e, is_control e = true -> f e = [].
Hypothesis f_log : forall l m, f (Log l m) = [].

Lemma audit_row_observed (resChan : option chan) (id : Z)
    (contact createdAt : string) (h : trace) :
  flat_map f (snd (audit_row c resChan id contact createdAt h))
  = flat_map g (record_results (id, contact, createdAt)).
Proof.
  unfold audit_row, record_results.
  destruct (unmarshalContact contact) as [contacts err].
  destruct err as [err|], (validateContacts id createdAt contacts) as [text|], resChan;
    rewrite !snd_bind, !flat_map_app, ?f_writeResults, ?Sprintf_unmarshal;
    simpl; rewrite ?f_control, ?app_nil_r; reflexivity.
Qed.

Lemma audit_rows_observed (resChan : option chan) (rows : list row) (h : trace) :
  flat_map f (snd (audit_rows c resChan rows h))
  = flat_map g (flat_map record_results (rows_read rows)).
Proof.
  revert h; induction rows as [|[id contact createdAt|err] rows IH]; intros h; simpl.
  - reflexivity.
  - rewrite !snd_bind, !flat_map_app, audit_row_observed, IH.
    simpl. now rewrite f_control.
  - now rewrite f_control.
Qed.

Lemma run_observed (resChan : option chan) (h : trace) :
  flat_map f (snd (run c resChan h)) = flat_map g (audit_results (db c)).
Proof.
  rewrite run_events. unfold audit_results. simpl. rewrite f_log. simpl.
  destruct (db c) as [err|rows]; simpl; [now rewrite f_control|].
  rewrite (f_control (Query None)) by reflexivity. simpl.
  rewrite flat_map_app, audit_rows_observed.
  destruct (first_bad (pending rows)), (close_err rows), resChan; simpl;
    rewrite ?f_log, ?f_control, ?app_nil_r; reflexivity.
Qed.

End Observed.

Lemma flat_map_singleton {A : Type} (l : list A) : flat_map (fun x => [x]) l = l.
Proof. induction l as [|x l IH]; [reflexivity | simpl; now rewrite IH]. Qed.

Lemma flat_map_nil {A B : Type} (l : list A) : flat_map (fun _ => @nil B) l = [].
Proof. induction l as [|x l IH]; [reflexivity | exact IH]. Qed.

(** Every line of the report is tried on each configured destination. *)
Lemma run_print_attempts (c : contactAuditor) (resChan : option chan) (h : trace) :
  print_attempts (snd (run c resChan h))
  = if writeToStdout c then audit_results (db c) else [].
Proof.
  unfold print_attempts.
  rewrite (run_observed c print_attempt
             (fun line => if writeToStdout c then [line] else [])).
  - destruct (writeToStdout c); [apply flat_map_singleton | apply flat_map_nil].
  - apply writeResults_print_attempts.
  - now intros [].
  - reflexivity.
Qed.

Lemma run_write_attempts (c : contactAuditor) (resChan : option chan) (h : trace) :
  write_attempts (snd (run c resChan h))
  = match resultsFile c with Some _ => audit_results (db c) | None => [] end.
Proof.
  unfold write_attempts.
  rewrite (run_observed c write_attempt
             (fun line => match resultsFile c with Some _ => [line] | None => [] end)).
  - destruct (resultsFile c); [apply flat_map_singleton | apply flat_map_nil].
  - apply writeResults_write_attempts.
  - now intros [].
  - reflexivity.
Qed.

(** On a system where no write fails, every line reaches the destinations. *)
Lemma run_printed (c : contactAuditor) (resChan : option chan) (h : trace) :
  (forall h' s, print_outcome os h' s = None) ->
  flat_map printed (snd (run c resChan h))
  = if writeToStdout c then audit_results (db c) else [].
Proof.
  intros R.
  rewrite (run_observed c printed
             (fun line => if writeToStdout c then [line] else [])).
  - destruct (writeToStdout c); [apply flat_map_singleton | apply flat_map_nil].
  - intros line h'. rewrite writeResults_events; cbv zeta. rewrite !R.
    destruct (writeToStdout c), (resultsFile c); simpl;
      try destruct (write_outcome os _ _ _); reflexivity.
  - now intros [].
  - reflexivity.
Qed.

Lemma run_filed (c : contactAuditor) (resChan : option chan) (h : trace) :
  (forall h' f s, write_outcome os h' f s = None) ->
  flat_map filed (snd (run c resChan h))
  = match resultsFile c with Some _ => audit_results (db c) | None => [] end.
Proof.
  intros R.
  rewrite (run_observed c filed
             (fun line => match resultsFile c with Some _ => [line] | None => [] end)).
  - destruct (resultsFile c); [apply flat_map_singleton | apply flat_map_nil].
  - intros line h'. rewrite writeResults_events; cbv zeta. rewrite ?R.
    destruct (writeToStdout c), (resultsFile c); simpl; rewrite ?R;
      try destruct (print_outcome os _ _); reflexivity.
  - now intros [].
  - reflexivity.
Qed.

(** A failed write is followed by its entry in the log. *)
Lemma writeResults_logs_failure (c : contactAuditor) (line : string) (h : trace) :
  let t := snd (writeResults c line h) in
  (forall err, In (Stdout line (Some err)) t ->
     In (Log LevelErr ("Error while writing result to stdout: " ++ err)) t)
  /\ (forall f err, In (FileWrite f line (Some err)) t ->
        In (Log LevelErr ("Error while writing result to file: " ++ err)) t).
Proof.
  cbv zeta. rewrite writeResults_events; cbv zeta.
  destruct (writeToStdout c); [destruct (print_outcome os _ _)|];
  (destruct (resultsFile c); [destruct (write_outcome os _ _ _)|]);
  split; intros; simpl in *;
  repeat match goal with
         | H : _ \/ _ |- _ => destruct H
         | H : False |- _ => destruct H
         | H : _ = _ |- _ => first [discriminate H | injection H as ?; subst]
         end; auto 10.
Qed.

(** * Further properties of the validator, the sink and the run *)

Lemma length_zero_empty (s : string) : String.length s = 0%nat -> s = "".
Proof. destruct s; [reflexivity | discriminate]. Qed.

Lemma error_text_validateContacts (id : Z) (createdAt : string)
    (contacts : list string) :
  error_text (validateContacts id createdAt contacts)
  = probsBuff (validate_loop id createdAt contacts).
Proof.
  unfold validateContacts; cbv zeta.
  destruct (Nat.eqb_spec (String.length (probsBuff (validate_loop id createdAt contacts))) 0)
    as [E|E]; simpl; [|reflexivity].
  symmetry. now apply length_zero_empty.
Qed.

Lemma validateContacts_None_iff (id : Z) (createdAt : string) (contacts : list string) :
  validateContacts id createdAt contacts = None <-> problems contacts = [].
Proof.
  rewrite validateContacts_problems.
  destruct (problems contacts); split; intros H; try reflexivity; discriminate.
Qed.

Lemma problems_app (l1 l2 : list string) :
  problems (l1 ++ l2) = (problems l1 ++ problems l2)%list.
Proof. apply flat_map_app. Qed.

(** X1: validating a list of contacts in two parts and joining the texts of
    the two errors gives the text of the error of the whole list (the text of
    nil being empty), and the whole list validates exactly when both parts
    do. *)
Theorem validateContacts_concat (id : Z) (createdAt : string)
    (l1 l2 : list string) :
  error_text (validateContacts id createdAt (l1 ++ l2))
  = error_text (validateContacts id createdAt l1)
    ++ error_text (validateContacts id createdAt l2)
  /\ (validateContacts id createdAt (l1 ++ l2) = None
      <-> validateContacts id createdAt l1 = None
          /\ validateContacts id createdAt l2 = None).
Proof.
  split.
  - rewrite !error_text_validateContacts. now rewrite validate_loop_app.
  - rewrite !validateContacts_None_iff, problems_app. split.
    + intros H. now apply app_eq_nil in H.
    + intros [-> ->]. reflexivity.
Qed.

(** X2: [policy.ValidEmail] is called exactly once for each contact that
    begins with [mailto:], in the order of the contacts, on the contact
    without that prefix, and for no other contact; a check that fails does
    not stop the later ones, and the calls depend neither on the id nor on
    createdAt. *)
Theorem validateContacts_checks (id : Z) (createdAt : string)
    (contacts : list string) :
  checked (validate_loop id createdAt contacts)
  = map (fun contact => strings.TrimPrefix contact "mailto:")
      (filter (fun contact => strings.HasPrefix contact "mailto:") contacts).
Proof.
  induction contacts as [|c contacts IH]; [reflexivity|].
  rewrite validate_loop_cons; simpl checked. rewrite IH.
  unfold validate_loop at 1; simpl fold_left. unfold validate_contact.
  simpl filter.
  destruct (strings.HasPrefix c "mailto:"); [|reflexivity].
  now destruct (ValidEmail _).
Qed.

Lemma concat_lines_newline (id : Z) (createdAt : string) (p : string * string)
    (ps : list (string * string)) :
  exists body,
    String.concat "" (map (validation_line id createdAt) (p :: ps)) = body ++ NL.
Proof.
  revert p; induction ps as [|q ps IH]; intros p.
  - simpl. unfold validation_line, report_line.
    eexists. rewrite <- !append_assoc. reflexivity.
  - destruct (IH q) as [body E].
    change (map (validation_line id createdAt) (p :: q :: ps))
      with (validation_line id createdAt p
            :: map (validation_line id createdAt) (q :: ps)).
    rewrite concat_cons, E.
    exists (validation_line id createdAt p ++ body). now rewrite append_assoc.
Qed.

(** X3: the text of an error of [validateContacts] is not empty and ends
    with a newline, so the texts of several records written one after the
    other keep their lines apart. *)
Theorem validateContacts_newline_terminated (id : Z) (createdAt : string)
    (contacts : list string) (text : string) :
  validateContacts id createdAt contacts = Some text ->
  text <> "" /\ exists body, text = body ++ NL.
Proof.
  rewrite validateContacts_problems.
  destruct (problems contacts) as [|p ps]; [discriminate|].
  intros H.
  destruct (concat_lines_newline id createdAt p ps) as [body E].
  assert (T : text = body ++ NL) by congruence.
  split; [|now exists body].
  rewrite T. destruct body; discriminate.
Qed.

(** X4: whether [validateContacts] returns an error depends on the contacts
    and the checker only, not on the id or createdAt of the record; the two
    only appear in the text. *)
Theorem validateContacts_outcome_of_contacts (id1 id2 : Z)
    (createdAt1 createdAt2 : string) (contacts : list string) :
  validateContacts id1 createdAt1 contacts = None
  <-> validateContacts id2 createdAt2 contacts = None.
Proof. now rewrite !validateContacts_None_iff. Qed.

Lemma unmarshalContact_no_contacts (contact : string) :
  snd (unmarshalContact contact) <> None -> fst (unmarshalContact contact) = [].
Proof.
  unfold unmarshalContact. destruct (json.Unmarshal quote contact) as [l [e|]]; simpl.
  - reflexivity.
  - intros H. now destruct H.
Qed.

Lemma record_results_cases (id : Z) (contact createdAt : string) :
  record_results (id, contact, createdAt) =
  match snd (unmarshalContact contact) with
  | Some err => [report_line id createdAt "unmarshal" contact err]
  | None =>
      match validateContacts id createdAt (fst (unmarshalContact contact)) with
      | Some text => [text]
      | None => []
      end
  end.
Proof.
  unfold record_results.
  pose proof (unmarshalContact_no_contacts contact) as N.
  destruct (unmarshalContact contact) as [contacts [err|]]; simpl in *.
  - rewrite N by discriminate. reflexivity.
  - reflexivity.
Qed.

Lemma record_results_length (r : Z * string * string) :
  (List.length (record_results r) <= 1)%nat.
Proof.
  destruct r as [[id contact] createdAt]. rewrite record_results_cases.
  destruct (snd (unmarshalContact contact)); [simpl; lia|].
  destruct (validateContacts _ _ _); simpl; lia.
Qed.

(** X5: a row leads to at most one call of [writeResults]: with the
    [unmarshal] line when its payload does not decode, else with the text of
    [validateContacts] when that returns an error, else to none; never to
    both an [unmarshal] line and a validation text. *)
Theorem row_hands_at_most_one (c : contactAuditor) (resChan : option chan)
    (id : Z) (contact createdAt : string) (h : trace) :
  let lines := results (snd (audit_row c resChan id contact createdAt h)) in
  (List.length lines <= 1)%nat
  /\ lines = match snd (unmarshalContact contact) with
             | Some err =>
                 [fmt.fmt_d id ++ TAB ++ createdAt ++ TAB ++ "unmarshal" ++ TAB
                  ++ quote contact ++ TAB ++ quote err ++ NL]
             | None =>
                 match validateContacts id createdAt (fst (unmarshalContact contact)) with
                 | Some text => [text]
                 | None => []
                 end
             end.
Proof.
  cbv zeta. rewrite audit_row_results. split.
  - apply record_results_length.
  - apply record_results_cases.
Qed.

Lemma flat_map_length_le {A B : Type} (f : A -> list B) (l : list A) :
  (forall a, (List.length (f a) <= 1)%nat) ->
  (List.length (flat_map f l) <= List.length l)%nat.
Proof.
  intros H. induction l as [|a l IH]; simpl; [lia|].
  rewrite length_app. specialize (H a). lia.
Qed.

Lemma rows_read_length (rows : list row) :
  (List.length (rows_read rows) <= List.length rows)%nat.
Proof.
  induction rows as [|[id contact createdAt|err] rows IH]; simpl; lia.
Qed.

(** X6: a run calls [writeResults] at most once for each row it read, so
    at most as many times as the cursor has rows; when the query does not
    open it never calls it. *)
Theorem run_results_bounded (c : contactAuditor) (resChan : option chan) (h : trace) :
  let n := List.length (results (snd (run c resChan h))) in
  match db c with
  | inl _ => n = 0%nat
  | inr rows =>
      (n <= List.length (rows_read (pending rows)))%nat
      /\ (n <= List.length (pending rows))%nat
  end.
Proof.
  cbv zeta. rewrite run_results. unfold audit_results.
  destruct (db c) as [err|rows]; [reflexivity|].
  pose proof (flat_map_length_le record_results (rows_read (pending rows))
                record_results_length).
  pose proof (rows_read_length (pending rows)). lia.
Qed.

Lemma filter_none {A : Type} (p : A -> bool) (l : list A) :
  existsb p l = false -> filter p l = [].
Proof.
  induction l as [|a l IH]; simpl; [reflexivity|].
  intros H. apply orb_false_iff in H. destruct H as [H1 H2].
  rewrite H1. now apply IH.
Qed.

Lemma audit_rows_scans (c : contactAuditor) (resChan : option chan)
    (rows : list row) (h : trace) :
  List.length (filter is_scan (snd (audit_rows c resChan rows h)))
  = (List.length (rows_read rows)
     + match first_bad rows with Some _ => 1 | None => 0 end)%nat.
Proof.
  revert h; induction rows as [|[id contact createdAt|err] rows IH]; intros h; simpl.
  - reflexivity.
  - rewrite !snd_bind, !filter_app, !length_app, IH.
    rewrite (filter_none is_scan (snd (audit_row _ _ _ _ _ _))).
    + reflexivity.
    + apply audit_row_no_failure; [now intros [] | reflexivity].
  - reflexivity.
Qed.

(** X7: a run issues the query exactly once.  When the query opens it reads
    the rows up to and with the first read that fails, and no row after it;
    it closes the cursor exactly once when every row was read, and not at
    all after a read that failed or when the query did not open. *)
Theorem run_cursor_use (c : contactAuditor) (resChan : option chan) (h : trace) :
  let t := snd (run c resChan h) in
  List.length (filter is_query t) = 1%nat
  /\ List.length (filter is_scan t)
     = match db c with
       | inl _ => 0%nat
       | inr rows =>
           (List.length (rows_read (pending rows))
            + match first_bad (pending rows) with Some _ => 1 | None => 0 end)%nat
       end
  /\ List.length (filter is_rows_close t)
     = match db c with
       | inl _ => 0%nat
       | inr rows => match first_bad (pending rows) with Some _ => 0 | None => 1 end
       end.
Proof.
  cbv zeta. rewrite run_events.
  destruct (db c) as [err|rows]; [repeat split|].
  cbn [filter is_query is_scan is_rows_close List.length].
  rewrite !filter_app, !length_app.
  rewrite audit_rows_scans.
  rewrite (filter_none is_query (snd (audit_rows _ _ _ _)))
    by (apply audit_rows_no_failure; [now intros [] | reflexivity..]).
  rewrite (filter_none is_rows_close (snd (audit_rows _ _ _ _)))
    by (apply audit_rows_no_failure; [now intros [] | reflexivity..]).
  destruct (first_bad (pending rows)), (close_err rows), resChan; simpl;
    repeat split; lia.
Qed.

Lemma writeResults_no_info (c : contactAuditor) (line : string) (h : trace) :
  existsb is_info_log (snd (writeResults c line h)) = false.
Proof. writeResults_cases c. Qed.

Lemma audit_rows_no_info (c : contactAuditor) (resChan : option chan)
    (rows : list row) (h : trace) :
  existsb is_info_log (snd (audit_rows c resChan rows h)) = false.
Proof.
  revert h; induction rows as [|[id contact createdAt|err] rows IH]; intros h; simpl.
  - reflexivity.
  - rewrite !snd_bind. repeat apply existsb_app_false; [reflexivity| |apply IH].
    unfold audit_row. destruct (unmarshalContact contact) as [contacts e].
    destruct e, (validateContacts id createdAt contacts), resChan;
      rewrite !snd_bind; repeat apply existsb_app_false;
      try apply writeResults_no_info; reflexivity.
  - reflexivity.
Qed.

Lemma existsb_false_not_In {A : Type} (p : A -> bool) (l : list A) (a : A) :
  existsb p l = false -> p a = true -> ~ In a l.
Proof.
  intros E P I.
  assert (X : existsb p l = true) by (apply existsb_exists; now exists a).
  congruence.
Qed.

Lemma run_info_logs (c : contactAuditor) (resChan : option chan) (h : trace) :
  filter is_info_log (snd (run c resChan h))
  = Log LevelInfo "Beginning database query"
    :: match run_error (db c) with
       | None => [Log LevelInfo "Query completed successfully"]
       | Some _ => []
       end.
Proof.
  rewrite run_events. unfold run_error.
  destruct (db c) as [err|rows]; [reflexivity|].
  cbn [filter is_info_log]. rewrite filter_app.
  rewrite (filter_none _ _ (audit_rows_no_info c resChan (pending rows) _)).
  destruct (first_bad (pending rows)), (close_err rows), resChan; reflexivity.
Qed.

(** Every event of a run has a property that the events of [writeResults],
    the events on the cursor, the events on the channel when there is one, and
    the entries of the log at the level of information have. *)
Ltac control_event HC :=
  apply HC; [reflexivity | first [intros N; discriminate N | intros _; discriminate]].

Lemma run_Forall (P : event -> Prop) (c : contactAuditor) (resChan : option chan)
    (h : trace) :
  (forall line h', Forall P (snd (writeResults c line h'))) ->
  (forall e, is_control e = true -> (not_channel e = false -> resChan <> None) -> P e) ->
  (forall m, P (Log LevelInfo m)) ->
  Forall P (snd (run c resChan h)).
Proof.
  intros HW HC HL.
  assert (Row : forall id contact createdAt h',
            Forall P (snd (audit_row c resChan id contact createdAt h'))).
  { intros id0 contact createdAt0 h'. unfold audit_row.
    destruct (unmarshalContact contact) as [contacts e].
    destruct e, (validateContacts id0 createdAt0 contacts), resChan;
      rewrite !snd_bind, !Forall_app; repeat split;
      try apply HW; try apply Forall_nil;
      (apply Forall_cons; [control_event HC | apply Forall_nil]). }
  assert (Rows : forall rows h', Forall P (snd (audit_rows c resChan rows h'))).
  { induction rows as [|[id0 contact createdAt0|err] rows IH]; intros h'; simpl.
    - apply Forall_nil.
    - rewrite !snd_bind, !Forall_app. repeat split;
        [apply Forall_cons; [control_event HC | apply Forall_nil] | apply Row | apply IH].
    - apply Forall_cons; [control_event HC | apply Forall_nil]. }
  rewrite run_events. apply Forall_cons; [apply HL|].
  destruct (db c) as [err|rows].
  - apply Forall_cons; [control_event HC | apply Forall_nil].
  - apply Forall_cons; [control_event HC|]. apply Forall_app. split; [apply Rows|].
    destruct (first_bad (pending rows)), (close_err rows), resChan;
      repeat (apply Forall_cons; [first [apply HL | control_event HC]|]); apply Forall_nil.
Qed.

(** X8: the first thing a run does is log [Beginning database query]; it
    logs [Query completed successfully] exactly when it returns nil, and
    logs nothing else at that level. *)
Theorem run_completion_logged (c : contactAuditor) (resChan : option chan)
    (h : trace) :
  let r := fst (run c resChan h) in
  let t := snd (run c resChan h) in
  hd_error t = Some (Log LevelInfo "Beginning database query")
  /\ (In (Log LevelInfo "Query completed successfully") t <-> r = None)
  /\ filter is_info_log t
     = Log LevelInfo "Beginning database query"
       :: match r with
          | None => [Log LevelInfo "Query completed successfully"]
          | Some _ => []
          end.
Proof.
  cbv zeta. rewrite run_returns, run_events. unfold run_error.
  split; [reflexivity|].
  destruct (db c) as [err|rows].
  - split; [|reflexivity]. split; [|discriminate].
    intros [E|[E|[]]]; discriminate E.
  - pose proof (audit_rows_no_info c resChan (pending rows)
                  (h ++ [Log LevelInfo "Beginning database query"; Query None])%list)
      as N.
    pose proof (existsb_false_not_In is_info_log _
                  (Log LevelInfo "Query completed successfully") N eq_refl) as NI.
    split.
    + split.
      * intros [E|[E|I]]; try discriminate E.
        apply in_app_iff in I. destruct I as [I|I]; [now destruct NI|].
        destruct (first_bad (pending rows)); [destruct I|].
        destruct (close_err rows); [|reflexivity].
        destruct I as [E|[]]. discriminate E.
      * intros E. right. right. apply in_app_iff. right.
        destruct (first_bad (pending rows)); [discriminate|].
        rewrite E. right. now left.
    + cbn [filter is_info_log]. rewrite filter_app, (filter_none _ _ N).
      destruct (first_bad (pending rows)), (close_err rows), resChan; reflexivity.
Qed.

Lemma failures_logged_app (t1 t2 : trace) :
  failures_logged t1 -> failures_logged t2 -> failures_logged (t1 ++ t2)%list.
Proof.
  unfold failures_logged. intros H1 H2. rewrite !filter_app, !length_app. lia.
Qed.

Lemma writeResults_failures_logged (c : contactAuditor) (line : string) (h : trace) :
  failures_logged (snd (writeResults c line h)).
Proof. unfold failures_logged. writeResults_cases c. Qed.

Lemma audit_rows_failures_logged (c : contactAuditor) (resChan : option chan)
    (rows : list row) (h : trace) :
  failures_logged (snd (audit_rows c resChan rows h)).
Proof.
  revert h; induction rows as [|[id contact createdAt|err] rows IH]; intros h; simpl.
  - reflexivity.
  - rewrite !snd_bind. repeat apply failures_logged_app; [reflexivity| |apply IH].
    unfold audit_row. destruct (unmarshalContact contact) as [contacts e].
    destruct e, (validateContacts id createdAt contacts), resChan;
      rewrite !snd_bind; repeat apply failures_logged_app;
      try apply writeResults_failures_logged; reflexivity.
  - reflexivity.
Qed.

(** X9: the error log of a run has exactly one entry for each write that
    failed, and a call of [writeResults] logs at most two; an auditor with
    no destination writes nothing and logs no error. *)
Theorem run_logs_each_failed_write (c : contactAuditor) (resChan : option chan)
    (h : trace) :
  let t := snd (run c resChan h) in
  List.length (filter is_error_log t) = List.length (filter is_failed_write t)
  /\ (forall line h',
        (List.length (filter is_error_log (snd (writeResults c line h'))) <= 2)%nat)
  /\ (writeToStdout c = false -> resultsFile c = None ->
      filter is_write t = [] /\ filter is_error_log t = []).
Proof.
  cbv zeta. split; [|split].
  - fold (failures_logged (snd (run c resChan h))). rewrite run_events.
    change (?a :: ?b) with ([a] ++ b)%list at 1.
    apply failures_logged_app; [reflexivity|].
    destruct (db c) as [err|rows]; [reflexivity|].
    change (Query None :: ?b) with ([Query None] ++ b)%list.
    repeat apply failures_logged_app; [reflexivity | apply audit_rows_failures_logged |].
    destruct (first_bad (pending rows)), (close_err rows), resChan; reflexivity.
  - intros line h'. rewrite writeResults_events; cbv zeta.
    destruct (writeToStdout c); [destruct (print_outcome os _ _)|];
      (destruct (resultsFile c); [destruct (write_outcome os _ _ _)|]); simpl; lia.
  - intros W F.
    assert (A : forall p : event -> bool,
              (forall e, p e = true -> is_write e = true \/ is_error_log e = true) ->
              filter p (snd (run c resChan h)) = []).
    { intros p Hp. apply filter_none.
      assert (Wr : forall line h', existsb p (snd (writeResults c line h')) = false).
      { intros line h'. rewrite writeResults_events, W, F. simpl.
        destruct (p (Result line)) eqn:E; [|reflexivity].
        destruct (Hp _ E); discriminate. }
      assert (One : forall e, is_write e = false -> is_error_log e = false ->
                              p e = false).
      { intros e E1 E2. destruct (p e) eqn:E; [|reflexivity].
        destruct (Hp _ E); congruence. }
      assert (Rows : forall rows h', existsb p (snd (audit_rows c resChan rows h')) = false).
      { induction rows as [|[id contact createdAt|err] rows IH]; intros h'; simpl.
        - reflexivity.
        - rewrite !snd_bind. repeat apply existsb_app_false;
            [simpl; now rewrite One | | apply IH].
          unfold audit_row. destruct (unmarshalContact contact) as [contacts e].
          destruct e, (validateContacts id createdAt contacts), resChan;
            rewrite !snd_bind; repeat apply existsb_app_false;
            try apply Wr; simpl; rewrite ?One; reflexivity.
        - rewrite One; reflexivity. }
      rewrite run_events. simpl. rewrite One by reflexivity. simpl.
      destruct (db c) as [err|rows]; simpl; [now rewrite One|].
      rewrite One by reflexivity. simpl. apply existsb_app_false; [apply Rows|].
      destruct (first_bad (pending rows)), (close_err rows), resChan; simpl;
        rewrite ?One; reflexivity. }
    split; apply A; intros e E; [now left | now right].
Qed.

(** X10: when both destinations are configured and no write fails, the
    results file holds the same bytes as were printed on stdout. *)
Theorem destinations_agree (c : contactAuditor) (resChan : option chan) (h : trace) :
  writeToStdout c = true -> resultsFile c <> None ->
  (forall h' s, print_outcome os h' s = None) ->
  (forall h' f s, write_outcome os h' f s = None) ->
  stdout (snd (run c resChan h)) = file (snd (run c resChan h)).
Proof.
  intros W F P Wr. unfold stdout, file.
  rewrite (run_printed c resChan h P), (run_filed c resChan h Wr), W.
  destruct (resultsFile c); [reflexivity | now destruct F].
Qed.

(** ** The channel is an observation tap *)

Lemma related_ret {A : Type} (a : A) : related (ret a) (ret a).
Proof. intros h1 h2 _. now split. Qed.

Lemma related_emit (e : event) : related (emit e) (emit e).
Proof. intros h1 h2 _. now split. Qed.

Lemma related_send (e : event) :
  not_channel e = false -> related (emit e) (ret tt).
Proof. intros N h1 h2 _. simpl. now rewrite N. Qed.

Lemma related_bind {A B : Type} (m1 m2 : M A) (k1 k2 : A -> M B) :
  related m1 m2 -> (forall a, related (k1 a) (k2 a)) ->
  related (bind m1 k1) (bind m2 k2).
Proof.
  intros Hm Hk h1 h2 E.
  destruct (Hm h1 h2 E) as [Ea Et].
  rewrite !fst_bind, !snd_bind, !filter_app, Ea.
  assert (E' : filter not_channel (h1 ++ snd (m1 h1))
               = filter not_channel (h2 ++ snd (m2 h2)))
    by (rewrite !filter_app; congruence).
  destruct (Hk (fst (m2 h2)) _ _ E') as [Eb Et'].
  split; congruence.
Qed.

Section Tap.
Hypothesis os_ignores_channel : ignores_channel os.

Lemma related_Print (s : string) : related (fmt_Print s) (fmt_Print s).
Proof.
  intros h1 h2 E. unfold fmt_Print; simpl.
  rewrite (proj1 os_ignores_channel h1), (proj1 os_ignores_channel h2), E.
  now split.
Qed.

Lemma related_WriteString (f : File) (s : string) :
  related (WriteString f s) (WriteString f s).
Proof.
  intros h1 h2 E. unfold WriteString; simpl.
  rewrite (proj2 os_ignores_channel h1), (proj2 os_ignores_channel h2), E.
  now split.
Qed.

Lemma related_writeResults (c : contactAuditor) (line : string) :
  related (writeResults c line) (writeResults c line).
Proof.
  unfold writeResults, logger_Errf.
  apply related_bind; [apply related_emit | intros _].
  apply related_bind; [|intros _].
  - destruct (writeToStdout c); [|apply related_ret].
    apply related_bind; [apply related_Print | intros [e|]];
      [apply related_emit | apply related_ret].
  - destruct (resultsFile c) as [f|]; [|apply related_ret].
    apply related_bind; [apply related_WriteString | intros [e|]];
      [apply related_emit | apply related_ret].
Qed.

Lemma related_audit_row (c : contactAuditor) (ch1 ch2 : option chan)
    (id : Z) (contact createdAt : string) :
  related (audit_row c ch1 id contact createdAt) (audit_row c ch2 id contact createdAt).
Proof.
  unfold audit_row. destruct (unmarshalContact contact) as [contacts e].
  apply related_bind; [|intros _].
  - destruct e; [apply related_writeResults | apply related_ret].
  - apply related_bind; [|intros _].
    + destruct (validateContacts id createdAt contacts);
        [apply related_writeResults | apply related_ret].
    + destruct ch1, ch2; try apply related_ret; try apply related_emit;
        try (now apply related_send);
        intros h1 h2 E; now split.
Qed.

Lemma related_audit_rows (c : contactAuditor) (ch1 ch2 : option chan)
    (rows : list row) :
  related (audit_rows c ch1 rows) (audit_rows c ch2 rows).
Proof.
  induction rows as [|[id contact createdAt|err] rows IH]; simpl.
  - apply related_ret.
  - apply related_bind; [apply related_emit | intros _].
    apply related_bind; [apply related_audit_row | intros _]. exact IH.
  - apply related_bind; [apply related_emit | intros _]. apply related_ret.
Qed.

Lemma related_run (c : contactAuditor) (ch1 ch2 : option chan) :
  related (run c ch1) (run c ch2).
Proof.
  unfold run, beginAuditQuery, logger_Infof, logger_Info.
  apply related_bind; [apply related_emit | intros _].
  apply related_bind.
  - destruct (db c); (apply related_bind; [apply related_emit | intros _]);
      apply related_ret.
  - intros [err|rows]; [apply related_ret|].
    apply related_bind; [apply related_audit_rows | intros [err|]];
      [apply related_ret|].
    apply related_bind; [apply related_emit | intros _].
    destruct (close_err rows); [apply related_ret|].
    apply related_bind; [apply related_emit | intros _].
    apply related_bind; [|intros _; apply related_ret].
    destruct ch1, ch2; try apply related_ret; try apply related_emit;
      try (now apply related_send);
      intros h1 h2 E; now split.
Qed.

End Tap.

Lemma filter_not_channel_id (t : trace) :
  sent t = [] -> existsb is_closed t = false -> filter not_channel t = t.
Proof.
  induction t as [|e t IH]; [reflexivity|].
  unfold sent. simpl. intros S C.
  apply app_eq_nil in S. destruct S as [S1 S2].
  apply orb_false_iff in C. destruct C as [C1 C2].
  rewrite (IH S2 C2). destruct e; try reflexivity; discriminate.
Qed.

(** ** [main] and [makeDBConnection] *)

Lemma existsb_map {A B : Type} (f : A -> B) (p : B -> bool) (l : list A) :
  existsb p (map f l) = existsb (fun x => p (f x)) l.
Proof. induction l as [|a l IH]; [reflexivity|]. simpl. now rewrite IH. Qed.

Lemma Forall_existsb_false {A : Type} (p : A -> bool) (l : list A) :
  Forall (fun x => p x = false) l -> existsb p l = false.
Proof. induction 1 as [|a l E _ IH]; [reflexivity|]. simpl. now rewrite E, IH. Qed.

Lemma audit_events_app (l1 l2 : list step) :
  audit_events (l1 ++ l2) = (audit_events l1 ++ audit_events l2)%list.
Proof. apply flat_map_app. Qed.

Lemma audit_events_Audit (t : trace) : audit_events (map Audit t) = t.
Proof. induction t as [|e t IH]; [reflexivity|]. simpl. now rewrite IH. Qed.

(** A predicate on the events that holds of no event of [writeResults], of
    no event on the cursor and of no entry of the log at the level of
    information holds of no event of a run without a channel. *)
Lemma run_existsb (p : event -> bool) (c : contactAuditor) (h : trace) :
  (forall line h', existsb p (snd (writeResults c line h')) = false) ->
  (forall e, is_control e = true -> not_channel e = true -> p e = false) ->
  (forall m, p (Log LevelInfo m) = false) ->
  existsb p (snd (run c None h)) = false.
Proof.
  intros HW HC HL. apply Forall_existsb_false. apply run_Forall.
  - intros line h'. specialize (HW line h').
    induction (snd (writeResults c line h')) as [|e t IH]; [constructor|].
    simpl in HW. apply orb_false_iff in HW. destruct HW as [E1 E2].
    constructor; [exact E1 | exact (IH E2)].
  - intros e C N. apply HC; [exact C|].
    destruct (not_channel e); [reflexivity|]. now destruct (N eq_refl).
  - exact HL.
Qed.

(** [main] when everything before the audit succeeds. *)
Lemma main_started (w : host) (fl : flags) (cfg : DBConfig) (d : DB) :
  started w fl cfg d ->
  main w fl =
  let h := [Log LevelInfo "Running contact-auditor"] in
  let steps :=
    (pool_settings cfg
     ++ (if toFile fl then [CreateFile (results_file_name w) None] else [])
     ++ map Audit (h ++ snd (run (main_auditor w fl d) None h)))%list in
  match run_error d with
  | Some err =>
      (FailOnError err "Audit was interrupted, results may be incomplete", steps)
  | None =>
      (Returned,
       (steps ++ Audit (Log LevelInfo "Audit finished successfully")
        :: if toFile fl then
             [Audit (Log LevelInfo
                       (fmt.Sprintf quote "Audit results were written to: %s"
                          [fmt.Str (results_file_name w)]));
              CloseFile (results_file_name w)]
           else [])%list)
  end.
Proof.
  intros (configData & dbURL & E1 & E2 & E3 & E4 & E5).
  pose proof (run_returns (main_auditor w fl d) None
                [Log LevelInfo "Running contact-auditor"]) as R.
  change (db (main_auditor w fl d)) with d in R.
  unfold main. rewrite E1, E2, E3, E4. cbv zeta.
  unfold main_auditor, pool_settings in *.
  destruct (toFile fl).
  - rewrite (E5 eq_refl).
    destruct (run _ None _) as [err t]. simpl in R. subst err.
    destruct (run_error d); reflexivity.
  - destruct (run _ None _) as [err t]. simpl in R. subst err.
    destruct (run_error d); reflexivity.
Qed.

(** [main] otherwise: it ends in [cmd.FailOnError], either before it has
    done anything, or after the settings of the pool and the failed creation
    of the results file. *)
Lemma main_cases (w : host) (fl : flags) :
  (exists cfg d, started w fl cfg d)
  \/ (exists err msg, main w fl = (FailOnError err msg, []))
  \/ (exists cfg err,
        toFile fl = true
        /\ main w fl
           = (FailOnError err "Failed to create results file",
              (pool_settings cfg
               ++ [CreateFile (results_file_name w) (Some err)])%list)).
Proof.
  unfold main.
  destruct (ReadFile w (configFile fl)) as [err|configData] eqn:E1;
    [right; left; eauto|].
  destruct (Unmarshal_config w configData) as [err|cfg] eqn:E2;
    [right; left; eauto|].
  destruct (URL cfg) as [err|dbURL] eqn:E3; [right; left; eauto|].
  destruct (makeDBConnection w dbURL) as [err|d] eqn:E4; [right; left; eauto|].
  cbv zeta.
  destruct (toFile fl) eqn:F.
  - destruct (Create w (results_file_name w)) as [err|] eqn:E5.
    + right; right. exists cfg, err. split; reflexivity.
    + left. exists cfg, d, configData, dbURL. repeat split; auto.
  - left. exists cfg, d, configData, dbURL. repeat split; try assumption.
    intros T. rewrite F in T. discriminate T.
Qed.

(** The events of the logger and of the auditor in a [main] that started. *)
Lemma main_audit_events (w : host) (fl : flags) (cfg : DBConfig) (d : DB) :
  started w fl cfg d ->
  audit_events (snd (main w fl))
  = (Log LevelInfo "Running contact-auditor"
     :: snd (run (main_auditor w fl d) None [Log LevelInfo "Running contact-auditor"])
     ++ match run_error d with
        | Some _ => []
        | None =>
            Log LevelInfo "Audit finished successfully"
            :: if toFile fl then
                 [Log LevelInfo
                    (fmt.Sprintf quote "Audit results were written to: %s"
                       [fmt.Str (results_file_name w)])]
               else []
        end)%list.
Proof.
  intros S. rewrite (main_started w fl cfg d S). cbv zeta.
  destruct (run_error d); cbn [snd]; rewrite !audit_events_app, audit_events_Audit.
  - destruct (toFile fl); simpl; now rewrite app_nil_r.
  - destruct (toFile fl); reflexivity.
Qed.

(** X12: [main] returns, rather than ending in [cmd.FailOnError], exactly
    when everything before the audit succeeds and the run returns nil; the
    problems that the audit finds play no part. *)
Theorem main_returns_iff (w : host) (fl : flags) :
  fst (main w fl) = Returned
  <-> exists cfg d, started w fl cfg d /\ run_error d = None.
Proof.
  split.
  - intros R.
    destruct (main_cases w fl) as [(cfg & d & S)|[(err & msg & E)|(cfg & err & _ & E)]].
    + exists cfg, d. split; [exact S|].
      rewrite (main_started w fl cfg d S) in R. cbv zeta in R.
      destruct (run_error d); [discriminate R | reflexivity].
    + rewrite E in R. discriminate R.
    + rewrite E in R. discriminate R.
  - intros (cfg & d & S & N). rewrite (main_started w fl cfg d S). cbv zeta.
    now rewrite N.
Qed.

(** X13: when everything before the audit succeeds, the flags decide where
    the report goes: its lines are those of the audit of the database that
    was opened, each is printed once with [-to-stdout] and written once with
    [-to-file], and with neither flag the audit runs and its report goes
    nowhere.  [main] then ends as the run does. *)
Theorem main_report (w : host) (fl : flags) (cfg : DBConfig) (d : DB) :
  started w fl cfg d ->
  let t := audit_events (snd (main w fl)) in
  results t = audit_results d
  /\ print_attempts t = (if toStdout fl then audit_results d else [])
  /\ write_attempts t = (if toFile fl then audit_results d else [])
  /\ fst (main w fl)
     = match run_error d with
       | None => Returned
       | Some err => FailOnError err "Audit was interrupted, results may be incomplete"
       end.
Proof.
  intros S. cbv zeta. rewrite (main_audit_events w fl cfg d S).
  set (c := main_auditor w fl d).
  set (r := snd (run c None [Log LevelInfo "Running contact-auditor"])).
  assert (L : forall f : event -> list string,
            (forall l m, f (Log l m) = []) ->
            flat_map f
              (Log LevelInfo "Running contact-auditor"
               :: r ++ match run_error d with
                       | Some _ => []
                       | None =>
                           Log LevelInfo "Audit finished successfully"
                           :: if toFile fl then
                                [Log LevelInfo
                                   (fmt.Sprintf quote "Audit results were written to: %s"
                                      [fmt.Str (results_file_name w)])]
                              else []
                       end)%list
            = flat_map f r).
  { intros f Hf. cbn [flat_map]. rewrite Hf, flat_map_app. simpl.
    destruct (run_error d); [apply app_nil_r|].
    destruct (toFile fl); simpl; rewrite !Hf; apply app_nil_r. }
  unfold results, print_attempts, write_attempts.
  rewrite !L by reflexivity. subst r.
  fold (results (snd (run c None [Log LevelInfo "Running contact-auditor"]))).
  fold (print_attempts (snd (run c None [Log LevelInfo "Running contact-auditor"]))).
  fold (write_attempts (snd (run c None [Log LevelInfo "Running contact-auditor"]))).
  rewrite run_results, run_print_attempts, run_write_attempts.
  split; [reflexivity|]. split; [reflexivity|]. split.
  - subst c. unfold main_auditor. cbn [resultsFile db]. now destruct (toFile fl).
  - rewrite (main_started w fl cfg d S). cbv zeta. now destruct (run_error d).
Qed.

(** The steps of a [main] that started. *)
Lemma main_steps (w : host) (fl : flags) (cfg : DBConfig) (d : DB) :
  started w fl cfg d ->
  snd (main w fl)
  = (pool_settings cfg
     ++ (if toFile fl then [CreateFile (results_file_name w) None] else [])
     ++ map Audit (audit_events (snd (main w fl)))
     ++ match run_error d with
        | Some _ => []
        | None => if toFile fl then [CloseFile (results_file_name w)] else []
        end)%list.
Proof.
  intros S. rewrite (main_audit_events w fl cfg d S).
  rewrite (main_started w fl cfg d S). cbv zeta.
  destruct (run_error d); cbn [snd].
  - now rewrite !app_nil_r.
  - rewrite <- !app_assoc. do 2 f_equal. cbn [app map]. f_equal.
    rewrite map_app, <- app_assoc. f_equal. now destruct (toFile fl).
Qed.

(** What the run of a [main] that started does not do. *)
Lemma main_run_existsb (p : event -> bool) (w : host) (fl : flags) (d : DB)
    (h : trace) :
  (forall s err, toStdout fl = true -> p (Stdout s err) = false) ->
  (forall s err, toFile fl = true -> p (FileWrite (results_file_name w) s err) = false) ->
  (forall e, match e with Stdout _ _ | FileWrite _ _ _ => False | _ => True end ->
             not_channel e = true -> p e = false) ->
  existsb p (snd (run (main_auditor w fl d) None h)) = false.
Proof.
  intros HP HF HO. apply run_existsb.
  - intros line h'. rewrite writeResults_events. cbv zeta.
    unfold main_auditor; cbn [writeToStdout resultsFile].
    destruct (toStdout fl); [destruct (print_outcome os _ _)|];
      (destruct (toFile fl); [destruct (write_outcome os _ _ _)|]);
      cbn [app existsb]; rewrite ?HP, ?HF, ?HO by (reflexivity || exact I);
      reflexivity.
  - intros e C N. apply HO; [|exact N]. now destruct e.
  - intros m. now apply HO.
Qed.

(** X14: what [main] never does.  It passes no channel to the run, so that
    nothing is sent and no channel is closed; without [-to-stdout] it prints
    nothing; without [-to-file] it creates, writes and closes no file; and
    every write goes to the file named after the time of the start, which it
    has created. *)
Theorem main_never (w : host) (fl : flags) :
  let t := snd (main w fl) in
  existsb is_channel_step t = false
  /\ (toStdout fl = false -> existsb is_print_step t = false)
  /\ (toFile fl = false -> existsb is_file_step t = false)
  /\ (forall f s err, In (Audit (FileWrite f s err)) t ->
        f = results_file_name w /\ In (CreateFile f None) t).
Proof.
  cbv zeta.
  destruct (main_cases w fl) as [(cfg & d & S)|[(err & msg & E)|(cfg & err & F & E)]].
  - pose proof (main_steps w fl cfg d S) as T.
    pose proof (main_audit_events w fl cfg d S) as A.
    set (r := snd (run (main_auditor w fl d) None
                     [Log LevelInfo "Running contact-auditor"])) in A.
    assert (R : forall p : event -> bool,
              (forall s err, toStdout fl = true -> p (Stdout s err) = false) ->
              (forall s err, toFile fl = true ->
                             p (FileWrite (results_file_name w) s err) = false) ->
              (forall e, match e with Stdout _ _ | FileWrite _ _ _ => False | _ => True end ->
                         not_channel e = true -> p e = false) ->
              existsb p (audit_events (snd (main w fl))) = false).
    { intros p HP HF HO. rewrite A. cbn [existsb]. rewrite existsb_app.
      unfold r. rewrite (main_run_existsb p w fl d _ HP HF HO).
      rewrite HO by (reflexivity || exact I).
      destruct (run_error d); [reflexivity|]. cbn [existsb orb].
      rewrite HO by (reflexivity || exact I).
      destruct (toFile fl); [|reflexivity]. cbn [existsb orb].
      now rewrite HO by (reflexivity || exact I). }
    assert (Q : forall q : step -> bool,
              (forall n, q (SetMaxOpenConns n) = false) ->
              (forall n, q (SetMaxIdleConns n) = false) ->
              (forall n, q (SetConnMaxLifetime n) = false) ->
              (forall n, q (SetConnMaxIdleTime n) = false) ->
              (toFile fl = true -> forall f x, q (CreateFile f x) = false) ->
              (toFile fl = true -> forall f, q (CloseFile f) = false) ->
              existsb (fun e => q (Audit e)) (audit_events (snd (main w fl))) = false ->
              existsb q (snd (main w fl)) = false).
    { intros q Q1 Q2 Q3 Q4 Q5 Q6 Q7. rewrite T, !existsb_app, existsb_map, Q7.
      unfold pool_settings. cbn [existsb]. rewrite Q1, Q2, Q3, Q4.
      destruct (toFile fl); [|now destruct (run_error d)].
      cbn [existsb]. rewrite (Q5 eq_refl).
      destruct (run_error d); [reflexivity|]. cbn [existsb].
      now rewrite (Q6 eq_refl). }
    split; [|split; [|split]].
    + apply Q; try reflexivity.
      apply R; try reflexivity. intros [] _ N; try reflexivity; discriminate N.
    + intros NP. apply Q; try reflexivity.
      apply R; try reflexivity.
      * intros s e P. rewrite NP in P. discriminate P.
      * intros e0 X _; destruct e0; try reflexivity; destruct X.
    + intros NF. apply Q; try reflexivity.
      * intros F. rewrite NF in F. discriminate F.
      * intros F. rewrite NF in F. discriminate F.
      * apply R; try reflexivity.
        -- intros s e F. rewrite NF in F. discriminate F.
        -- intros e0 X _; destruct e0; try reflexivity; destruct X.
    + intros f s e I.
      assert (I' : In (FileWrite f s e) (audit_events (snd (main w fl)))).
      { rewrite T in I. rewrite !in_app_iff in I.
        destruct I as [I|[I|[I|I]]].
        - unfold pool_settings in I. simpl in I.
          destruct I as [I|[I|[I|[I|[]]]]]; discriminate I.
        - destruct (toFile fl); [destruct I as [I|[]]; discriminate I | destruct I].
        - apply in_map_iff in I. destruct I as (e' & E' & I). now injection E' as ->.
        - destruct (run_error d), (toFile fl); try destruct I as [I|[]];
            try discriminate I; destruct I. }
      assert (N : f = results_file_name w /\ toFile fl = true).
      { pose (p := fun e : event =>
                     match e with
                     | FileWrite f' _ _ =>
                         negb (String.eqb f' (results_file_name w) && toFile fl)
                     | _ => false
                     end).
        assert (P : existsb p (audit_events (snd (main w fl))) = false).
        { apply R.
          - reflexivity.
          - intros s' e' F. unfold p. now rewrite String.eqb_refl, F.
          - intros e0 X _; destruct e0; try reflexivity; destruct X. }
        pose proof (existsb_false_not_In p _ (FileWrite f s e) P) as NI.
        unfold p in NI. cbn beta iota in NI.
        destruct (String.eqb f (results_file_name w)) eqn:Ef.
        - apply String.eqb_eq in Ef. destruct (toFile fl); [now split|].
          now destruct (NI eq_refl).
        - now destruct (NI eq_refl). }
      destruct N as [-> F]. split; [reflexivity|].
      rewrite T, F. rewrite !in_app_iff. right; left. now left.
  - rewrite E. cbn [snd]. split; [reflexivity|]. split; [reflexivity|].
    split; [reflexivity|]. intros f s e [].
  - rewrite E. cbn [snd]. unfold pool_settings. split; [reflexivity|].
    split; [reflexivity|]. split.
    + intros NF. rewrite NF in F. discriminate F.
    + intros f s e I. simpl in I.
      destruct I as [I|[I|[I|[I|[I|[]]]]]]; discriminate I.
Qed.

(** X15: how [main] finishes.  It logs [Audit finished successfully] exactly
    when it returns; it closes a file exactly when it returns and was given
    [-to-file], the file is the results file, and the closing is its last
    step.  A [main] that ends in [cmd.FailOnError] leaves the file open. *)
Theorem main_finish (w : host) (fl : flags) :
  let t := snd (main w fl) in
  (In (Audit (Log LevelInfo "Audit finished successfully")) t
   <-> fst (main w fl) = Returned)
  /\ (forall f, In (CloseFile f) t
        <-> fst (main w fl) = Returned /\ toFile fl = true /\ f = results_file_name w)
  /\ (forall f, In (CloseFile f) t -> exists before, t = (before ++ [CloseFile f])%list).
Proof.
  cbv zeta.
  destruct (main_cases w fl) as [(cfg & d & S)|[(err & msg & E)|(cfg & err & F & E)]].
  - pose proof (main_steps w fl cfg d S) as T.
    pose proof (main_audit_events w fl cfg d S) as A.
    assert (E : fst (main w fl)
                = match run_error d with
                  | None => Returned
                  | Some err =>
                      FailOnError err "Audit was interrupted, results may be incomplete"
                  end).
    { rewrite (main_started w fl cfg d S). cbv zeta. now destruct (run_error d). }
    assert (C : forall f, In (CloseFile f) (snd (main w fl))
                <-> run_error d = None /\ toFile fl = true /\ f = results_file_name w).
    { intros f. rewrite T at 1. rewrite !in_app_iff. split.
      - intros [I|[I|[I|I]]].
        + unfold pool_settings in I. simpl in I.
          destruct I as [I|[I|[I|[I|[]]]]]; discriminate I.
        + destruct (toFile fl); [destruct I as [I|[]]; discriminate I | destruct I].
        + apply in_map_iff in I. destruct I as (e' & E' & _). discriminate E'.
        + destruct (run_error d); [destruct I|].
          destruct (toFile fl); [|destruct I].
          destruct I as [I|[]]. injection I as <-. now repeat split.
      - intros (N & F & ->). rewrite N, F. right; right; right. now left. }
    split; [|split].
    + rewrite E, T, !in_app_iff, A. split.
      * intros [I|[I|[I|I]]].
        -- unfold pool_settings in I. simpl in I.
           destruct I as [I|[I|[I|[I|[]]]]]; discriminate I.
        -- destruct (toFile fl); [destruct I as [I|[]]; discriminate I | destruct I].
        -- apply in_map_iff in I. destruct I as (e' & E' & I). injection E' as ->.
           destruct I as [I|I]; [discriminate I|].
           apply in_app_iff in I. destruct I as [I|I].
           ++ assert (I' : In (Log LevelInfo "Audit finished successfully")
                             (filter is_info_log
                                (snd (run (main_auditor w fl d) None
                                        [Log LevelInfo "Running contact-auditor"]))))
                by (apply filter_In; now split).
              rewrite run_info_logs in I'. destruct I' as [I'|I']; [discriminate I'|].
              destruct (run_error _); [destruct I'|].
              destruct I' as [I'|[]]; discriminate I'.
           ++ destruct (run_error d); [destruct I | reflexivity].
        -- destruct (run_error d); [destruct I | reflexivity].
      * intros R. destruct (run_error d); [discriminate R|].
        right; right; left. apply in_map. right. apply in_app_iff. right. now left.
    + intros f. rewrite C, E. destruct (run_error d); [|tauto].
      split; intros [X _]; discriminate X.
    + intros f I. apply C in I. destruct I as (N & F & ->).
      eexists. etransitivity; [exact T|]. rewrite N, F, !app_assoc. reflexivity.
  - rewrite E. cbn [fst snd]. split; [|split].
    + split; [intros []|discriminate].
    + intros f. split; [intros [] | intros [X _]; discriminate X].
    + intros f [].
  - rewrite E. cbn [fst snd]. unfold pool_settings. split; [|split].
    + split; [|discriminate]. simpl.
      intros [I|[I|[I|[I|[I|[]]]]]]; discriminate I.
    + intros f. split; [|intros [X _]; discriminate X]. simpl.
      intros [I|[I|[I|[I|[I|[]]]]]]; discriminate I.
    + intros f I. simpl in I.
      destruct I as [I|[I|[I|[I|[I|[]]]]]]; discriminate I.
Qed.

(** X16: the database is queried exactly when everything before the audit
    succeeds.  A [main] that fails before it, on the configuration, the URL,
    the connection or the creation of the results file, has logged nothing,
    written nothing and queried nothing when it ends in [cmd.FailOnError]. *)
Theorem main_queries_iff (w : host) (fl : flags) :
  let t := snd (main w fl) in
  (existsb is_query_step t = true <-> exists cfg d, started w fl cfg d)
  /\ (existsb is_query_step t = false ->
        audit_events t = []
        /\ exists err msg, fst (main w fl) = FailOnError err msg).
Proof.
  cbv zeta.
  assert (Q : forall cfg d, started w fl cfg d ->
              existsb is_query_step (snd (main w fl)) = true).
  { intros cfg d S. rewrite (main_steps w fl cfg d S), (main_audit_events w fl cfg d S).
    rewrite !existsb_app, existsb_map. rewrite run_events.
    cbn [existsb is_query_step app beginAuditQuery]. 
    destruct (db (main_auditor w fl d)); cbn [existsb is_query_step app];
      now rewrite ?orb_true_r. }
  destruct (main_cases w fl) as [(cfg & d & S)|[(err & msg & E)|(cfg & err & F & E)]].
  - rewrite (Q cfg d S). split; [|discriminate].
    split; [intros _; now exists cfg, d | reflexivity].
  - assert (N : existsb is_query_step (snd (main w fl)) = false) by now rewrite E.
    split.
    + split; [rewrite N; discriminate|]. intros (cfg & d & S).
      rewrite (Q cfg d S) in N. discriminate N.
    + intros _. rewrite E. split; [reflexivity|]. now exists err, msg.
  - assert (N : existsb is_query_step (snd (main w fl)) = false) by now rewrite E.
    split.
    + split; [rewrite N; discriminate|]. intros (cfg' & d & S).
      rewrite (Q cfg' d S) in N. discriminate N.
    + intros _. rewrite E. split; [reflexivity|].
      now exists err, "Failed to create results file".
Qed.


(** ** Decoding an array of plain strings *)

Lemma json_array_cons (s : string) (l : list string) :
  json_array (s :: l)
  = String "[" (String json.DQUOTE (s ++ String json.DQUOTE (more_elements l))).
Proof.
  unfold json_array. cbn [append]. f_equal.
  revert s. induction l as [|y l IH]; intros s.
  - cbn [map String.concat more_elements]. unfold dq. cbn [append].
    now rewrite append_assoc.
  - change (String.concat "," (map dq (s :: y :: l)))
      with (dq s ++ "," ++ String.concat "," (map dq (y :: l))).
    rewrite !append_assoc, IH. unfold dq. cbn [append more_elements].
    now rewrite append_assoc.
Qed.

Lemma plain_ascii_inv (c : ascii) :
  plain_ascii c = true ->
  Ascii.eqb c json.DQUOTE = false /\ Ascii.eqb c "\" = false
  /\ (byte_val c <? 0x20)%Z = false /\ (byte_val c <? utf8.RuneSelf)%Z = true.
Proof.
  unfold plain_ascii, plain_byte. intros H.
  apply andb_prop in H. destruct H as [H H4].
  apply andb_prop in H. destruct H as [H H3].
  apply andb_prop in H. destruct H as [H1 H2].
  apply negb_true_iff in H1, H2, H3. now repeat split.
Qed.

Lemma plain_step (c : ascii) (n : Z) :
  plain_ascii c = true ->
  json.do_step quote (in_array json.stateInString n) c
  = (in_array json.stateInString n, json.scanContinue).
Proof.
  intros P. destruct (plain_ascii_inv c P) as (E1 & E2 & E3 & _).
  unfold json.do_step, in_array. cbn [json.step]. unfold json.do_stateInString.
  cbn [json.bytes]. now rewrite E1, E2, E3.
Qed.

Lemma checkValid_string (s rest : string) :
  plain_text s = true ->
  forall n, exists n',
    json.checkValid_loop quote (in_array json.stateInString n)
      (s ++ String json.DQUOTE rest)
    = json.checkValid_loop quote (in_array json.stateEndValue n') rest.
Proof.
  induction s as [|c s IH]; intros P n.
  - exists (n + 1)%Z. reflexivity.
  - simpl in P. apply andb_prop in P. destruct P as [Pc Ps].
    destruct (IH Ps (n + 1)%Z) as [n' E]. exists n'. rewrite <- E.
    cbn [append json.checkValid_loop].
    change {| json.step := json.step (in_array json.stateInString n);
              json.endTop := json.endTop (in_array json.stateInString n);
              json.parseState := json.parseState (in_array json.stateInString n);
              json.err := json.err (in_array json.stateInString n);
              json.bytes := json.bytes (in_array json.stateInString n) + 1 |}
      with (in_array json.stateInString (n + 1)).
    now rewrite (plain_step c _ Pc).
Qed.

Lemma checkValid_more (l : list string) :
  forallb plain_text l = true ->
  forall n, json.checkValid_loop quote (in_array json.stateEndValue n)
              (more_elements l) = None.
Proof.
  induction l as [|s l IH]; intros P n.
  - reflexivity.
  - simpl in P. apply andb_prop in P. destruct P as [Ps Pl].
    destruct (checkValid_string s (more_elements l) Ps (n + 1 + 1)%Z) as [n' E].
    rewrite <- (IH Pl n'), <- E. reflexivity.
Qed.

Lemma checkValid_array (l : list string) :
  forallb plain_text l = true -> json.checkValid quote (json_array l) = None.
Proof.
  destruct l as [|s l]; intros P; [reflexivity|].
  simpl in P. apply andb_prop in P. destruct P as [Ps Pl].
  destruct (checkValid_string s (more_elements l) Ps (0 + 1 + 1)%Z) as [n' E].
  rewrite json_array_cons, <- (checkValid_more l Pl n'), <- E. reflexivity.
Qed.

(** The walk over a string literal that is being collected, and over one
    that is not. *)
Lemma items_string (target : nat) (s rest raw : string) (acc : list json.item) :
  plain_text s = true ->
  json.items_loop quote target (in_array json.stateInString 0)
    (Some (json.DQUOTE, raw)) acc (s ++ String json.DQUOTE rest)
  = json.items_loop quote target (in_array json.stateEndValue 0)
      (Some (json.DQUOTE, raw ++ s ++ String json.DQUOTE "")) acc rest.
Proof.
  revert raw. induction s as [|c s IH]; intros raw P.
  - reflexivity.
  - simpl in P. apply andb_prop in P. destruct P as [Pc Ps].
    cbn [append json.items_loop]. rewrite (plain_step c _ Pc).
    rewrite (IH _ Ps). now rewrite append_assoc.
Qed.

Lemma items_string_skipped (s rest : string) (acc : list json.item) :
  plain_text s = true ->
  json.items_loop quote 0 (in_array json.stateInString 0) None acc
    (s ++ String json.DQUOTE rest)
  = json.items_loop quote 0 (in_array json.stateEndValue 0) None acc rest.
Proof.
  induction s as [|c s IH]; intros P.
  - reflexivity.
  - simpl in P. apply andb_prop in P. destruct P as [Pc Ps].
    cbn [append json.items_loop]. rewrite (plain_step c _ Pc).
    exact (IH Ps).
Qed.

Lemma items_more_elements (l : list string) :
  forallb plain_text l = true ->
  forall (raw : string) (acc : list json.item),
    json.items_loop quote 1 (in_array json.stateEndValue 0)
      (Some (json.DQUOTE, raw)) acc (more_elements l)
    = (List.rev (json.Literal json.DQUOTE raw :: acc)
       ++ map (fun s => json.Literal json.DQUOTE (s ++ String json.DQUOTE "")) l)%list.
Proof.
  induction l as [|s l IH]; intros P raw acc.
  - simpl. now rewrite app_nil_r.
  - simpl in P. apply andb_prop in P. destruct P as [Ps Pl].
    transitivity
      (json.items_loop quote 1 (in_array json.stateInString 0)
         (Some (json.DQUOTE, "")) (json.Literal json.DQUOTE raw :: acc)
         (s ++ String json.DQUOTE (more_elements l))).
    { reflexivity. }
    rewrite (items_string 1 s _ "" _ Ps), (IH Pl).
    cbn [List.rev map append]. now rewrite <- !app_assoc.
Qed.

Lemma items_more_skipped (l : list string) :
  forallb plain_text l = true ->
  forall acc : list json.item,
    json.items_loop quote 0 (in_array json.stateEndValue 0) None acc
      (more_elements l)
    = List.rev acc.
Proof.
  induction l as [|s l IH]; intros P acc.
  - reflexivity.
  - simpl in P. apply andb_prop in P. destruct P as [Ps Pl].
    transitivity
      (json.items_loop quote 0 (in_array json.stateInString 0) None acc
         (s ++ String json.DQUOTE (more_elements l))).
    { reflexivity. }
    now rewrite (items_string_skipped s _ _ Ps), (IH Pl).
Qed.

Lemma unquote_plain (s : string) :
  plain_text s = true -> json.unquote_loop (String.length s) s = Some s.
Proof.
  induction s as [|c s IH]; intros P; [reflexivity|].
  simpl in P. apply andb_prop in P. destruct P as [Pc Ps].
  destruct (plain_ascii_inv c Pc) as (E1 & E2 & E3 & E4).
  cbn [String.length json.unquote_loop]. rewrite E2, E1, E3, E4. cbn [orb].
  now rewrite (IH Ps).
Qed.

Lemma Unmarshal_array (l : list string) :
  forallb plain_text l = true -> json.Unmarshal quote (json_array l) = (l, None).
Proof.
  intros P. unfold json.Unmarshal. rewrite (checkValid_array l P).
  destruct l as [|s l]; [reflexivity|].
  simpl in P. apply andb_prop in P. destruct P as [Ps Pl].
  rewrite json_array_cons.
  assert (I0 : json.items quote 0
                 (String "[" (String json.DQUOTE (s ++ String json.DQUOTE (more_elements l)))) = [json.Array]).
  { transitivity
      (json.items_loop quote 0 (in_array json.stateInString 0) None [json.Array]
         (s ++ String json.DQUOTE (more_elements l))).
    { reflexivity. }
    now rewrite (items_string_skipped s _ _ Ps), (items_more_skipped l Pl). }
  assert (I1 : json.items quote 1
                 (String "[" (String json.DQUOTE (s ++ String json.DQUOTE (more_elements l))))
               = map (fun s => json.Literal json.DQUOTE (s ++ String json.DQUOTE ""))
                   (s :: l)).
  { transitivity
      (json.items_loop quote 1 (in_array json.stateInString 0)
         (Some (json.DQUOTE, "")) []
         (s ++ String json.DQUOTE (more_elements l))).
    { reflexivity. }
    now rewrite (items_string 1 s _ "" _ Ps), (items_more_elements l Pl). }
  rewrite I0, I1. clear I0 I1.
  assert (P : forallb plain_text (s :: l) = true) by (simpl; now rewrite Ps, Pl).
  clear Ps Pl. induction (s :: l) as [|x xs IH]; [reflexivity|].
  simpl in P. apply andb_prop in P. destruct P as [Px Pxs].
  specialize (IH Pxs). cbn [map]. cbn [map] in IH.
  assert (X : json.store_string
                (json.Literal json.DQUOTE (x ++ String json.DQUOTE "")) = (x, None)).
  { unfold json.store_string. cbn [Ascii.eqb orb]. 
    change (Ascii.eqb json.DQUOTE "n") with false.
    change (Ascii.eqb json.DQUOTE "t" || Ascii.eqb json.DQUOTE "f") with false.
    change (Ascii.eqb json.DQUOTE json.DQUOTE) with true. cbv iota.
    now rewrite unquoteBytes_closed, (unquote_plain x Px). }
  rewrite X. cbn [fst snd json.savedError].
  injection IH as IH1 IH2. now rewrite IH1, IH2.
Qed.

(** X18: a payload that is the JSON array of strings that need no escape
    decodes to those strings, without error; auditing a row with such a
    payload hands over the problems of these contacts and nothing else. *)
Theorem unmarshalContact_json_array (c : contactAuditor) (resChan : option chan)
    (id : Z) (createdAt : string) (contacts : list string) (h : trace) :
  forallb plain_text contacts = true ->
  unmarshalContact (json_array contacts) = (contacts, None)
  /\ results (snd (audit_row c resChan id (json_array contacts) createdAt h))
     = match validateContacts id createdAt contacts with
       | Some text => [text]
       | None => []
       end.
Proof.
  intros P.
  assert (U : unmarshalContact (json_array contacts) = (contacts, None)).
  { unfold unmarshalContact. now rewrite (Unmarshal_array contacts P). }
  split; [exact U|].
  rewrite audit_row_results. unfold record_results. now rewrite U.
Qed.

End Effects.


(** ** The sink and the run, over any two systems *)

(** C7: [writeResults] returns nothing, whatever the writes do: it tries
    the line once on stdout when that is configured and once on the results
    file when there is one, the one whether or not the other failed, and a
    write that fails is followed by its entry in the error log.  Over a run,
    each configured destination is tried with every line of the report, and
    what the writes do changes neither what [run] returns, nor the lines of
    the report, nor what the channel is sent. *)
Theorem writeResults_never_fails (os : system) (c : contactAuditor)
    (line : string) (h : trace) :
  let t := snd (writeResults os c line h) in
  fst (writeResults os c line h) = tt
  /\ print_attempts t = (if writeToStdout c then [line] else [])
  /\ write_attempts t = match resultsFile c with Some _ => [line] | None => [] end
  /\ (forall err, In (Stdout line (Some err)) t ->
        In (Log LevelErr ("Error while writing result to stdout: " ++ err)) t)
  /\ (forall f err, In (FileWrite f line (Some err)) t ->
        In (Log LevelErr ("Error while writing result to file: " ++ err)) t)
  /\ (forall resChan,
        print_attempts (snd (run os c resChan h))
        = (if writeToStdout c then audit_results (db c) else [])
        /\ write_attempts (snd (run os c resChan h))
           = match resultsFile c with Some _ => audit_results (db c) | None => [] end)
  /\ (forall os' resChan h',
        fst (run os c resChan h) = fst (run os' c resChan h')
        /\ results (snd (run os c resChan h)) = results (snd (run os' c resChan h'))
        /\ sent (snd (run os c resChan h)) = sent (snd (run os' c resChan h'))).
Proof.
  cbv zeta.
  split; [now destruct (fst (writeResults os c line h))|].
  split; [apply writeResults_print_attempts|].
  split; [apply writeResults_write_attempts|].
  split; [apply (writeResults_logs_failure os c line h)|].
  split; [apply (writeResults_logs_failure os c line h)|].
  split.
  - intros resChan. split; [apply run_print_attempts | apply run_write_attempts].
  - intros os' resChan h'.
    now rewrite !run_returns, !run_results, !run_sent.
Qed.

(** C8: two runs over the same rows, with the same checker, produce the
    same report, whatever else differs (the system and its failing writes,
    the destinations and the name of the results file, the channel, what
    happened before): the lines handed to [writeResults] are the same, in the
    same order, and they are the report of the rows.  When both runs print to
    stdout and no print fails, the bytes on stdout are the same, those of the
    report; likewise for the results files. *)
Theorem audit_deterministic (os1 os2 : system) (c1 c2 : contactAuditor)
    (resChan1 resChan2 : option chan) (h1 h2 : trace) :
  db c1 = db c2 ->
  let t1 := snd (run os1 c1 resChan1 h1) in
  let t2 := snd (run os2 c2 resChan2 h2) in
  results t1 = results t2
  /\ results t1 = audit_results (db c1)
  /\ (writeToStdout c1 = true -> writeToStdout c2 = true ->
      (forall h s, print_outcome os1 h s = None) ->
      (forall h s, print_outcome os2 h s = None) ->
      stdout t1 = stdout t2 /\ stdout t1 = String.concat "" (results t1))
  /\ (resultsFile c1 <> None -> resultsFile c2 <> None ->
      (forall h f s, write_outcome os1 h f s = None) ->
      (forall h f s, write_outcome os2 h f s = None) ->
      file t1 = file t2 /\ file t1 = String.concat "" (results t1)).
Proof.
  intros E. cbv zeta. rewrite !run_results, <- E.
  split; [reflexivity|]. split; [reflexivity|]. split.
  - intros W1 W2 R1 R2. unfold stdout.
    rewrite (run_printed os1 c1 resChan1 h1 R1), (run_printed os2 c2 resChan2 h2 R2).
    now rewrite W1, W2, <- E.
  - intros F1 F2 R1 R2. unfold file.
    rewrite (run_filed os1 c1 resChan1 h1 R1), (run_filed os2 c2 resChan2 h2 R2).
    rewrite <- E.
    destruct (resultsFile c1); [|now destruct F1].
    destruct (resultsFile c2); [|now destruct F2]. now split.
Qed.
End ContactAuditor.

(** * Instances

    The theorems above at the example data, with [quote_ascii] for [%q] and
    [check_at] for the checker. *)

Lemma validateContacts_error_text_witness :
  let id := 7%Z in
  let createdAt := "2024-01-01T00:00:00Z" in
  let text :=
    "7" ++ TAB ++ createdAt ++ TAB ++ "validation" ++ TAB ++ dq "tel:+123" ++ TAB
    ++ dq "missing 'mailto:' prefix" ++ NL
    ++ "7" ++ TAB ++ createdAt ++ TAB ++ "validation" ++ TAB
    ++ dq "mailto:not-an-email" ++ TAB ++ dq "not a valid e-mail address" ++ NL in
  validateContacts quote_ascii check_at id createdAt example_contacts = Some text
  /\ (let line (p : string * string) :=
        fmt.fmt_d id ++ TAB ++ createdAt ++ TAB ++ "validation" ++ TAB
        ++ quote_ascii (fst p) ++ TAB ++ quote_ascii (snd p) ++ NL in
      let lines := map line (problems check_at example_contacts) in
      text = String.concat "" lines
      /\ map fst (problems check_at example_contacts)
         = filter (fails check_at) example_contacts
      /\ (forall p, In p (problems check_at example_contacts) ->
            failure check_at (fst p) = Some (snd p))
      /\ List.length lines = List.length (filter (fails check_at) example_contacts)).
Proof.
  cbv zeta. split; [reflexivity|].
  apply (validateContacts_error_text quote_ascii check_at 7
           "2024-01-01T00:00:00Z" example_contacts).
  reflexivity.
Defined.

Lemma undecodable_record_witness :
  let c := example_auditor (inr example_rows) in
  let err := "invalid character 'o' in literal null (expecting 'u')" in
  let rest := [Row 3 good_payload "2024-01-03"] in
  snd (json.Unmarshal quote_ascii bad_payload) = Some err
  /\ unmarshalContact quote_ascii bad_payload = ([], Some err)
  /\ validateContacts quote_ascii check_at 2 "2024-01-02"
       (fst (unmarshalContact quote_ascii bad_payload)) = None
  /\ results (snd (audit_row quote_ascii check_at reliable c None 2 bad_payload
                     "2024-01-02" []))
     = [fmt.fmt_d 2 ++ TAB ++ "2024-01-02" ++ TAB ++ "unmarshal" ++ TAB
        ++ quote_ascii bad_payload ++ TAB ++ quote_ascii err ++ NL]
  /\ (let t := (Scan None
                :: snd (audit_row quote_ascii check_at reliable c None 2 bad_payload
                          "2024-01-02" ([] ++ [Scan None])))%list in
      snd (audit_rows quote_ascii check_at reliable c None
             (Row 2 bad_payload "2024-01-02" :: rest) [])
      = (t ++ snd (audit_rows quote_ascii check_at reliable c None rest ([] ++ t)))%list
      /\ fst (audit_rows quote_ascii check_at reliable c None
                (Row 2 bad_payload "2024-01-02" :: rest) [])
         = fst (audit_rows quote_ascii check_at reliable c None rest ([] ++ t)%list)).
Proof.
  cbv zeta. split; [reflexivity|].
  apply (undecodable_record quote_ascii check_at reliable
           (example_auditor (inr example_rows)) None 2 bad_payload "2024-01-02").
  reflexivity.
Defined.

Lemma missing_prefix_problem_witness :
  let v := validate_loop quote_ascii check_at 7 "2024-01-01T00:00:00Z"
             (["mailto:a@example.com"] ++ "tel:+123" :: ["mailto:not-an-email"]) in
  (forall rest, "tel:+123" <> "mailto:" ++ rest)
  /\ probsBuff v =
       probsBuff (validate_loop quote_ascii check_at 7 "2024-01-01T00:00:00Z"
                    ["mailto:a@example.com"])
       ++ report_line quote_ascii 7 "2024-01-01T00:00:00Z" "validation" "tel:+123"
            "missing 'mailto:' prefix"
       ++ probsBuff (validate_loop quote_ascii check_at 7 "2024-01-01T00:00:00Z"
                       ["mailto:not-an-email"])
  /\ checked v =
       (checked (validate_loop quote_ascii check_at 7 "2024-01-01T00:00:00Z"
                   ["mailto:a@example.com"])
        ++ checked (validate_loop quote_ascii check_at 7 "2024-01-01T00:00:00Z"
                      ["mailto:not-an-email"]))%list
  /\ validateContacts quote_ascii check_at 7 "2024-01-01T00:00:00Z"
       (["mailto:a@example.com"] ++ "tel:+123" :: ["mailto:not-an-email"])
     = Some (probsBuff v).
Proof.
  cbv zeta.
  assert (H : forall rest, "tel:+123" <> "mailto:" ++ rest)
    by (intros rest E; discriminate E).
  split; [exact H|].
  exact (missing_prefix_problem quote_ascii check_at 7 "2024-01-01T00:00:00Z"
           ["mailto:a@example.com"] "tel:+123" ["mailto:not-an-email"] H).
Defined.

Lemma valid_contacts_no_problem_witness :
  let c := example_auditor (inr example_rows) in
  let contacts := ["mailto:a@example.com"] in
  unmarshalContact quote_ascii good_payload = (contacts, None)
  /\ (forall x, In x contacts -> passes check_at x)
  /\ validateContacts quote_ascii check_at 3 "2024-01-03" contacts = None
  /\ results (snd (audit_row quote_ascii check_at reliable c None 3 good_payload
                     "2024-01-03" [])) = [].
Proof.
  cbv zeta.
  assert (U : unmarshalContact quote_ascii good_payload
              = (["mailto:a@example.com"], None)) by reflexivity.
  assert (P : forall x, In x ["mailto:a@example.com"] -> passes check_at x).
  { intros x [<-|[]]. exists "a@example.com". split; reflexivity. }
  pose proof (valid_contacts_no_problem quote_ascii check_at reliable
                (example_auditor (inr example_rows)) None 3 good_payload "2024-01-03"
                ["mailto:a@example.com"] [] U) as X.
  destruct X as [N [_ R]].
  split; [exact U|]. split; [exact P|]. split; [exact (proj2 N P) | exact (R P)].
Defined.

Lemma audit_deterministic_witness :
  let c1 := example_auditor (inr example_rows) in
  let c2 := {| db := inr example_rows; resultsFile := Some "contact-audit-2.tsv";
               writeToStdout := true |} in
  let t1 := snd (run quote_ascii check_at reliable c1 None []) in
  let t2 := snd (run quote_ascii check_at reliable c2 (Some Chan)
                   [Log LevelInfo "Running contact-auditor"]) in
  db c1 = db c2
  /\ results t1 = results t2
  /\ results t1 = audit_results quote_ascii check_at (db c1)
  /\ stdout t1 = stdout t2
  /\ stdout t1 = String.concat "" (results t1)
  /\ file t1 = file t2
  /\ file t1 = String.concat "" (results t1).
Proof.
  cbv zeta.
  pose proof (audit_deterministic quote_ascii check_at reliable reliable
                (example_auditor (inr example_rows))
                {| db := inr example_rows; resultsFile := Some "contact-audit-2.tsv";
                   writeToStdout := true |}
                None (Some Chan) [] [Log LevelInfo "Running contact-auditor"] eq_refl)
    as X.
  destruct X as [R1 [R2 [S F]]].
  split; [reflexivity|]. split; [exact R1|]. split; [exact R2|].
  pose proof (S eq_refl eq_refl (fun _ _ => eq_refl) (fun _ _ => eq_refl)) as Y.
  destruct Y as [S1 S2].
  split; [exact S1|]. split; [exact S2|].
  assert (N1 : Some "contact-audit.tsv" <> @None File) by discriminate.
  assert (N2 : Some "contact-audit-2.tsv" <> @None File) by discriminate.
  exact (F N1 N2 (fun _ _ _ => eq_refl) (fun _ _ _ => eq_refl)).
Defined.

Lemma validateContacts_newline_terminated_witness :
  let text :=
    "7" ++ TAB ++ "2024-01-01" ++ TAB ++ "validation" ++ TAB ++ dq "tel:+123" ++ TAB
    ++ dq "missing 'mailto:' prefix" ++ NL in
  validateContacts quote_ascii check_at 7 "2024-01-01" ["tel:+123"] = Some text
  /\ text <> "" /\ exists body, text = body ++ NL.
Proof.
  cbv zeta.
  pose proof (validateContacts_newline_terminated quote_ascii check_at 7 "2024-01-01"
                ["tel:+123"] _ eq_refl) as X.
  split; [reflexivity | exact X].
Defined.

Lemma destinations_agree_witness :
  let c := example_auditor (inr example_rows) in
  writeToStdout c = true
  /\ resultsFile c <> None
  /\ stdout (snd (run quote_ascii check_at reliable c None []))
     = file (snd (run quote_ascii check_at reliable c None [])).
Proof.
  cbv zeta.
  assert (N : Some "contact-audit.tsv" <> @None File) by discriminate.
  split; [reflexivity|]. split; [exact N|].
  exact (destinations_agree quote_ascii check_at reliable
           (example_auditor (inr example_rows)) None [] eq_refl N
           (fun _ _ => eq_refl) (fun _ _ _ => eq_refl)).
Defined.


Lemma main_report_witness :
  let d : DB := inr example_rows in
  started quote_ascii example_host example_flags example_config d
  /\ (let t := audit_events
                 (snd (main quote_ascii check_at reliable example_host example_flags)) in
      results t = audit_results quote_ascii check_at d
      /\ print_attempts t
         = (if toStdout example_flags then audit_results quote_ascii check_at d else [])
      /\ write_attempts t
         = (if toFile example_flags then audit_results quote_ascii check_at d else [])
      /\ fst (main quote_ascii check_at reliable example_host example_flags)
         = match run_error d with
           | None => Returned
           | Some err =>
               FailOnError err "Audit was interrupted, results may be incomplete"
           end).
Proof.
  cbv zeta.
  assert (S : started quote_ascii example_host example_flags example_config
                (inr example_rows)).
  { exists "{}", "user@tcp(db:3306)/boulder".
    split; [reflexivity|]. split; [reflexivity|]. split; [reflexivity|].
    split; [reflexivity|]. intros _. reflexivity. }
  split; [exact S|].
  exact (main_report quote_ascii check_at reliable example_host example_flags
           example_config (inr example_rows) S).
Defined.

Lemma unmarshalContact_json_array_witness :
  let c := example_auditor (inr example_rows) in
  forallb plain_text example_contacts = true
  /\ unmarshalContact quote_ascii (json_array example_contacts)
     = (example_contacts, None)
  /\ results (snd (audit_row quote_ascii check_at reliable c None 7
                     (json_array example_contacts) "2024-01-01" []))
     = match validateContacts quote_ascii check_at 7 "2024-01-01" example_contacts with
       | Some text => [text]
       | None => []
       end.
Proof.
  cbv zeta.
  assert (P : forallb plain_text example_contacts = true) by reflexivity.
  split; [exact P|].
  exact (unmarshalContact_json_array quote_ascii check_at reliable
           (example_auditor (inr example_rows)) None 7 "2024-01-01"
           example_contacts [] P).
Defined.

(** C5 as stated fails: when the query does not open, [run] returns its
    error, and no read of a row and no close of the cursor has failed (none
    was made). *)
Lemma query_failure_fails_the_run :
  let c := example_auditor (inl "connection refused") in
  let r := run quote_ascii check_at reliable c None [] in
  fst r = Some "connection refused"
  /\ snd r = [Log LevelInfo "Beginning database query";
              Query (Some "connection refused")]
  /\ existsb is_scan_failure (snd r) = false
  /\ existsb is_close_failure (snd r) = false.
Proof. cbv zeta. repeat split. Qed.

(** C9 as stated fails: a row whose payload does not decode is sent on the
    channel all the same, with no contacts. *)
Lemma undecodable_record_is_sent :
  let c := silent_auditor (inr {| pending := [Row 2 bad_payload "2024-01-02"];
                                  close_err := None |}) in
  snd (json.Unmarshal quote_ascii bad_payload)
  = Some "invalid character 'o' in literal null (expecting 'u')"
  /\ sent (snd (run quote_ascii check_at reliable c (Some Chan) []))
     = [{| id := 2; contacts := []; createdAt := "2024-01-02" |}].
Proof. cbv zeta. split; reflexivity. Qed.

(** A run on a system whose prints all fail: each failure is logged, the
    results file receives the whole report, and the run ends without error. *)
Example run_with_broken_pipe :
  let r := run quote_ascii check_at broken_pipe (example_auditor (inr example_rows))
             None [] in
  fst r = None
  /\ stdout (snd r) = ""
  /\ file (snd r) = String.concat "" (results (snd r))
  /\ List.length (results (snd r)) = 2%nat
  /\ In (Log LevelErr "Error while writing result to stdout: broken pipe") (snd r).
Proof.
  cbv zeta. split; [reflexivity|]. split; [reflexivity|]. split; [reflexivity|].
  split; [reflexivity|]. vm_compute. auto 10.
Qed.
